(** * Integration clients of postyl_backend: a shallow embedding

    The Go package [integrations] is a set of HTTP client wrappers.  Each
    wrapper builds a request, hands it to [HTTPClient.Do], looks at the
    status code of the response and decodes the body.  The embedding below
    keeps that shape:

    - the outside world (the remote servers, the wall clock, the file
      system, standard output) is an explicit [World] that every wrapper
      threads through;
    - a Go function returning [(T, error)] becomes a computation in the
      monad [M], whose outcome is a value, an [error] (carrying the text
      of [err.Error()]) or a run-time panic;
    - [encoding/json] and the URL syntax check of [http.NewRequest] are
      library code, not code of this repository: they are taken as
      interfaces ([JSONDecode], [HTTPLib]) and every statement holds for
      all their implementations. *)

From Stdlib Require Import ZArith String Ascii DecimalString Lia.
From stdpp Require Import base list strings gmap.
Set Warnings "-register-all".

Open Scope Z_scope.

(** ** Strings: the parts of [strings] and [fmt] the wrappers use *)

Module GoStrings.

(** [fmt.Sprintf("%d", n)]. *)
Definition itoa (n : Z) : string := NilZero.string_of_int (Z.to_int n).

(** [strings.Contains(s, substr)]. *)
Fixpoint Contains (s substr : string) : bool :=
  String.prefix substr s
  || match s with
     | EmptyString => false
     | String _ s' => Contains s' substr
     end.

Definition is_upper (c : ascii) : bool :=
  (65 <=? nat_of_ascii c)%nat && (nat_of_ascii c <=? 90)%nat.

Definition lower_ascii (c : ascii) : ascii :=
  if is_upper c then ascii_of_nat (nat_of_ascii c + 32) else c.

(** [strings.ToLower(s)], on the bytes of [s]: the ASCII capitals are
    lowered and every other byte is left as it is.  Go lowers every rune;
    the two agree on where the bytes of ".mp4" occur in the result, since
    no rune outside ASCII lowers to '.', 'm', 'p' or '4' and the bytes that
    encode a rune outside ASCII are all above 127.  The suffix test of
    [PostCarousel], the one use of [ToLower] here, looks at nothing else. *)
Fixpoint ToLower (s : string) : string :=
  match s with
  | EmptyString => EmptyString
  | String c s' => String (lower_ascii c) (ToLower s')
  end.

(** [strings.HasSuffix(s, suffix)]:
    [len(s) >= len(suffix) && s[len(s)-len(suffix):] == suffix]. *)
Definition HasSuffix (s suffix : string) : bool :=
  (String.length suffix <=? String.length s)%nat
  && String.eqb
       (substring (String.length s - String.length suffix)
                  (String.length suffix) s)
       suffix.

(** [strings.Join(elems, sep)]. *)
Fixpoint Join (elems : list string) (sep : string) : string :=
  match elems with
  | [] => ""
  | [e] => e
  | e :: rest => e +:+ sep +:+ Join rest sep
  end.

End GoStrings.
Import GoStrings.

(** ** JSON values, as [interface{}] holds them after decoding *)

Inductive JSON :=
  | JNull
  | JBool (b : bool)
  | JNumber (lit : string)
  | JString (s : string)
  | JArray (l : list JSON)
  | JObject (m : gmap string JSON).

(** [v.(string)] in its two-result form: the value and [ok]. *)
Definition as_string (v : option JSON) : option string :=
  match v with
  | Some (JString s) => Some s
  | _ => None
  end.

(** [v.(map[string]interface{})] in its two-result form. *)
Definition as_map (v : option JSON) : option (gmap string JSON) :=
  match v with
  | Some (JObject m) => Some m
  | _ => None
  end.

(** ** The world the wrappers talk to *)

Inductive Payload :=
  | NoBody
  | JSONBody (j : JSON)        (* bytes.NewBuffer(json.Marshal(j)) *)
  | RawBody (bytes : string).  (* bytes.NewReader(fileContents) *)

(** An [*http.Request].  [URL] is the text before the query string and
    [Query] the [url.Values] that [params.Encode()] appends to it, in the
    order of the [Add] calls (the percent-encoding and the sorting by key
    that [Encode] performs are not represented). *)
Record Request := mkRequest {
  Method : string;
  URL : string;
  Query : list (string * string);
  Header : list (string * string);
  Body : Payload
}.

(** What [HTTPClient.Do] gives back: an error, or a response with its
    status code and the text [io.ReadAll(resp.Body)] yields. *)
Inductive HTTPResult :=
  | TransportError (e : string)
  | Response (StatusCode : Z) (body : string).

(** One request that went out, the time it went out at (seconds slept so
    far) and what came back. *)
Record Exchange := mkExchange {
  sent_at : Z;
  request : Request;
  reply : HTTPResult
}.

(** [script]: what the remote side will answer, in order, to the requests
    still to come; once it is used up every further request fails at the
    transport.  [log]: the exchanges made so far, oldest first.  [clock]:
    seconds spent in [time.Sleep].  [stdout]: the lines printed.  [fs]:
    the readable files, by path. *)
Record World := mkWorld {
  script : list HTTPResult;
  log : list Exchange;
  clock : Z;
  stdout : list string;
  fs : gmap string string
}.

Definition sent (w : World) : list Request := request <$> log w.

(** ** The monad of the wrappers *)

Inductive outcome (A : Type) :=
  | Ok (a : A)
  | Err (e : string)
  | Panic (p : string).
Arguments Ok {A} a.
Arguments Err {A} e.
Arguments Panic {A} p.

Definition M (A : Type) : Type := World -> outcome A * World.

#[export] Instance M_ret : MRet M := fun A a w => (Ok a, w).

#[export] Instance M_bind : MBind M := fun A B f m w =>
  match m w with
  | (Ok a, w') => f a w'
  | (Err e, w') => (Err e, w')
  | (Panic p, w') => (Panic p, w')
  end.

(** [return nil, errors.New(e)] and [return nil, fmt.Errorf(...)]. *)
Definition raise {A} (e : string) : M A := fun w => (Err e, w).

Definition panic {A} (p : string) : M A := fun w => (Panic p, w).

(** [v, err := f(...)] where the caller goes on after looking at [err]. *)
Definition attempt {A} (m : M A) : M (string + A) := fun w =>
  match m w with
  | (Ok a, w') => (Ok (inr a), w')
  | (Err e, w') => (Ok (inl e), w')
  | (Panic p, w') => (Panic p, w')
  end.

(** [time.Sleep(d * time.Second)]. *)
Definition Sleep (d : Z) : M unit := fun w =>
  (Ok tt, mkWorld (script w) (log w) (clock w + d) (stdout w) (fs w)).

(** [fmt.Printf] / [fmt.Println]. *)
Definition Print (line : string) : M unit := fun w =>
  (Ok tt, mkWorld (script w) (log w) (clock w) (stdout w ++ [line]) (fs w)).

(** [os.Open(path)] followed by [io.ReadAll]. *)
Definition ReadFile (path : string) : M string := fun w =>
  match fs w !! path with
  | Some contents => (Ok contents, w)
  | None => (Err ("open " +:+ path +:+ ": no such file or directory"), w)
  end.

(** [c.HTTPClient.Do(req)]: the request goes out and the next answer of
    the script comes back. *)
Definition Do (req : Request) : M HTTPResult := fun w =>
  let r := match script w with
           | [] => TransportError "connection refused"
           | r :: _ => r
           end in
  (Ok r, mkWorld (tail (script w)) (log w ++ [mkExchange (clock w) req r])
                 (clock w) (stdout w) (fs w)).

(** ** Library interfaces *)

(** [json.Unmarshal(body, &v)] and [json.NewDecoder(body).Decode(&v)] for a
    target of type [T]: the decoded value, or the text of the error. *)
Class JSONDecode (T : Type) := json_Decode : string -> string + T.

(** [http.NewRequest(method, url, body)] fails when the method or the URL
    is malformed; [NewRequest_err] is the text of that error, if any. *)
Class HTTPLib := NewRequest_err : string -> string -> list (string * string) -> option string.

Definition Decode {T} `{JSONDecode T} (body : string) : M T :=
  match json_Decode body with
  | inr v => mret v
  | inl e => raise e
  end.

Definition NewRequest `{HTTPLib} (method url : string) (query : list (string * string))
    (body : Payload) : M Request :=
  match NewRequest_err method url query with
  | Some e => raise e
  | None => mret (mkRequest method url query [] body)
  end.

(** [req.Header.Set(k, v)] and [req.Header.Add(k, v)]. *)
Definition Header_Set (k v : string) (req : Request) : Request :=
  mkRequest (Method req) (URL req) (Query req)
            (filter (fun kv => kv.1 ≠ k) (Header req) ++ [(k, v)]) (Body req).

Definition Header_Add (k v : string) (req : Request) : Request :=
  mkRequest (Method req) (URL req) (Query req) (Header req ++ [(k, v)]) (Body req).

(** [req.Header.Get(k)] and [req.URL.Query().Get(k)]: the first value. *)
Fixpoint assoc_get (k : string) (kvs : list (string * string)) : option string :=
  match kvs with
  | [] => None
  | (k', v) :: rest => if String.eqb k' k then Some v else assoc_get k rest
  end.

(** [resp, err := c.HTTPClient.Do(req); if err != nil { return nil, wrap(err) }]
    followed by reading the status code and the body. *)
Definition DoOrErr (wrap : string -> string) (req : Request) : M (Z * string) :=
  resp ← Do req;
  match resp with
  | TransportError e => raise (wrap e)
  | Response code body => mret (code, body)
  end.

(** ** instagram.go *)

Module Instagram.

Definition BaseURL : string := "https://graph.facebook.com/v17.0".

Record InstagramClient := mkInstagramClient {
  AppID : string;
  AppSecret : string;
  RedirectURI : string;
  AccessToken : string;
  UserID : string
}.

Record MediaResponse := mkMediaResponse {
  ID : string;
  StatusURL : string
}.

Section Client.
Context `{HTTPLib} `{JSONDecode MediaResponse} `{JSONDecode (gmap string JSON)}.

Definition maxAttempts : nat := 30.

(** The body of [for i := 0; i < maxAttempts; i++ { ... }] in
    [waitForMediaProcessing], with [remaining = maxAttempts - i]. *)
Fixpoint poll (statusURL : string) (remaining : nat) : M unit :=
  match remaining with
  | O => raise "media processing timed out"
  | S remaining' =>
      _ ← Sleep 2;
      statusReq ← NewRequest "GET" statusURL [] NoBody;
      '(_, bodyBytes) ← DoOrErr id statusReq;
      statusData ← Decode (T := gmap string JSON) bodyBytes;
      match as_string (statusData !! "status_code") with
      | None => raise "invalid status response"
      | Some status =>
          if (status =? "FINISHED")%string then mret tt
          else if (status =? "ERROR")%string then
            raise ("media processing failed: " +:+ bodyBytes)
          else poll statusURL remaining'
      end
  end.

Definition waitForMediaProcessing (c : InstagramClient) (statusURL : string) : M unit :=
  poll statusURL maxAttempts.

(** Step 3 of [PostReel] and of [PostCarousel]: publish the container. *)
Definition publish (c : InstagramClient) (creationID what : string) : M MediaResponse :=
  let publishParams := [("creation_id", creationID); ("access_token", AccessToken c)] in
  pubReq ← NewRequest "POST" (BaseURL +:+ "/" +:+ UserID c +:+ "/media_publish")
                      publishParams NoBody;
  '(code, bodyBytes) ← DoOrErr id pubReq;
  if negb (code =? 200) then
    raise ("failed to publish " +:+ what +:+ ": " +:+ bodyBytes +:+ ", status: " +:+ itoa code)
  else
    Decode (T := MediaResponse) bodyBytes.

Definition PostReel (c : InstagramClient) (videoPath caption coverImagePath : string)
    (shareToFeed : bool) : M MediaResponse :=
  if (AccessToken c =? "")%string || (UserID c =? "")%string then
    raise "access token and user ID are required"
  else
    let params := [("media_type", "REELS"); ("video_url", videoPath);
                   ("caption", caption); ("access_token", AccessToken c)] in
    let params := if (coverImagePath =? "")%string then params
                  else params ++ [("thumb_url", coverImagePath)] in
    let params := if shareToFeed then params ++ [("share_to_feed", "true")]
                  else params in
    req ← NewRequest "POST" (BaseURL +:+ "/" +:+ UserID c +:+ "/media") params NoBody;
    '(code, bodyBytes) ← DoOrErr id req;
    if negb (code =? 200) then
      raise ("failed to create reel container: " +:+ bodyBytes
             +:+ ", status: " +:+ itoa code)
    else
      mediaResp ← Decode (T := MediaResponse) bodyBytes;
      _ ← (if (StatusURL mediaResp =? "")%string then mret tt
           else waitForMediaProcessing c (StatusURL mediaResp));
      publish c (ID mediaResp) "reel".

(** The media type and the parameter name [PostCarousel] picks for a path. *)
Definition carouselItemKind (mediaPath : string) : string * string :=
  if HasSuffix (ToLower mediaPath) ".mp4" then ("VIDEO", "video_url")
  else ("IMAGE", "image_url").

(** The request [PostCarousel] builds for one media item. *)
Definition carouselItemParams (c : InstagramClient) (mediaPath : string)
    : list (string * string) :=
  let '(mediaType, paramName) := carouselItemKind mediaPath in
  [("media_type", mediaType); (paramName, mediaPath);
   ("is_carousel_item", "true"); ("access_token", AccessToken c)].

(** Step 1 of [PostCarousel]: [for _, mediaPath := range mediaPaths { ... }],
    with the [childrenIDs] collected so far. *)
Fixpoint carouselChildren (c : InstagramClient) (mediaPaths childrenIDs : list string)
    : M (list string) :=
  match mediaPaths with
  | [] => mret childrenIDs
  | mediaPath :: rest =>
      req ← NewRequest "POST" (BaseURL +:+ "/" +:+ UserID c +:+ "/media")
                       (carouselItemParams c mediaPath) NoBody;
      '(code, bodyBytes) ← DoOrErr id req;
      if negb (code =? 200) then
        raise ("failed to create media container: " +:+ bodyBytes
               +:+ ", status: " +:+ itoa code)
      else
        mediaResp ← Decode (T := MediaResponse) bodyBytes;
        _ ← (if (StatusURL mediaResp =? "")%string then mret tt
             else waitForMediaProcessing c (StatusURL mediaResp));
        carouselChildren c rest (childrenIDs ++ [ID mediaResp])
  end.

Definition PostCarousel (c : InstagramClient) (mediaPaths : list string)
    (caption : string) : M MediaResponse :=
  if (AccessToken c =? "")%string || (UserID c =? "")%string then
    raise "access token and user ID are required"
  else
    childrenIDs ← carouselChildren c mediaPaths [];
    let carouselParams := [("media_type", "CAROUSEL"); ("caption", caption);
                           ("access_token", AccessToken c);
                           ("children", Join childrenIDs ",")] in
    carReq ← NewRequest "POST" (BaseURL +:+ "/" +:+ UserID c +:+ "/media")
                        carouselParams NoBody;
    '(code, bodyBytes) ← DoOrErr id carReq;
    if negb (code =? 200) then
      raise ("failed to create carousel container: " +:+ bodyBytes
             +:+ ", status: " +:+ itoa code)
    else
      carouselResp ← Decode (T := MediaResponse) bodyBytes;
      publish c (ID carouselResp) "carousel".

End Client.

(** *** The rest of instagram.go: tokens, single images, insights *)

Definition InstagramAPIURL : string := "https://api.instagram.com/oauth/access_token".

Record TokenResponse := mkTokenResponse {
  TokenAccessToken : string;   (* AccessToken *)
  TokenUserID : Z;             (* UserID *)
  ExpiresIn : Z
}.

Record MediaInsights := mkMediaInsights {
  Engagement : Z;
  Impressions : Z;
  Reach : Z;
  Saved : Z;
  VideoViews : Z;
  Likes : Z;
  Comments : Z;
  Shares : Z;
  StoriesReplies : Z
}.

Record UserInsights := mkUserInsights {
  Followers : Z;
  FollowersDelta : Z;
  ProfileViews : Z;
  UserReach : Z;          (* Reach *)
  UserImpressions : Z;    (* Impressions *)
  WebsiteClicks : Z
}.

(** One entry of [InsightsData.Data]; [Values] holds the [Value] fields. *)
Record Metric := mkMetric {
  Name : string;
  Period : string;
  Values : list Z
}.

(** An [int] of Go on the platforms it is 64 bits wide on: the result of
    an arithmetic operation wraps around. *)
Definition wrap64 (z : Z) : Z := (z + 2 ^ 63) mod 2 ^ 64 - 2 ^ 63.

Definition set_AccessToken (tok : string) (c : InstagramClient) : InstagramClient :=
  {| AppID := AppID c; AppSecret := AppSecret c; RedirectURI := RedirectURI c;
     AccessToken := tok; UserID := UserID c |}.

Definition set_UserID (uid : string) (c : InstagramClient) : InstagramClient :=
  {| AppID := AppID c; AppSecret := AppSecret c; RedirectURI := RedirectURI c;
     AccessToken := AccessToken c; UserID := uid |}.

(** The body of [for _, metric := range insightsData.Data] in
    [GetMediaInsights]. *)
Definition applyMediaMetric (insights : MediaInsights) (metric : Metric) : MediaInsights :=
  match Values metric with
  | [] => insights
  | value :: _ =>
      let '(mkMediaInsights engagement impressions reach saved videoViews likes comments
                            shares storiesReplies) := insights in
      if (Name metric =? "engagement")%string then
        mkMediaInsights value impressions reach saved videoViews likes comments shares
                        storiesReplies
      else if (Name metric =? "impressions")%string then
        mkMediaInsights engagement value reach saved videoViews likes comments shares
                        storiesReplies
      else if (Name metric =? "reach")%string then
        mkMediaInsights engagement impressions value saved videoViews likes comments shares
                        storiesReplies
      else if (Name metric =? "saved")%string then
        mkMediaInsights engagement impressions reach value videoViews likes comments shares
                        storiesReplies
      else if (Name metric =? "video_views")%string then
        mkMediaInsights engagement impressions reach saved value likes comments shares
                        storiesReplies
      else if (Name metric =? "likes")%string then
        mkMediaInsights engagement impressions reach saved videoViews value comments shares
                        storiesReplies
      else if (Name metric =? "comments")%string then
        mkMediaInsights engagement impressions reach saved videoViews likes value shares
                        storiesReplies
      else if (Name metric =? "shares")%string then
        mkMediaInsights engagement impressions reach saved videoViews likes comments value
                        storiesReplies
      else if (Name metric =? "stories_replies")%string then
        mkMediaInsights engagement impressions reach saved videoViews likes comments shares
                        value
      else insights
  end.

(** The body of [for _, metric := range insightsData.Data] in
    [GetUserInsights]: the [switch], then the follower growth. *)
Definition applyUserMetric (insights : UserInsights) (metric : Metric) : UserInsights :=
  match Values metric with
  | [] => insights
  | value :: others =>
      let '(mkUserInsights followers delta profileViews reach impressions clicks) :=
        insights in
      let insights :=
        if (Name metric =? "follower_count")%string then
          mkUserInsights value delta profileViews reach impressions clicks
        else if (Name metric =? "profile_views")%string then
          mkUserInsights followers delta value reach impressions clicks
        else if (Name metric =? "reach")%string then
          mkUserInsights followers delta profileViews value impressions clicks
        else if (Name metric =? "impressions")%string then
          mkUserInsights followers delta profileViews reach value clicks
        else if (Name metric =? "website_clicks")%string then
          mkUserInsights followers delta profileViews reach impressions value
        else insights in
      match others with
      | previousValue :: _ =>
          if (Name metric =? "follower_count")%string then
            mkUserInsights (Followers insights) (wrap64 (value - previousValue))
                           (ProfileViews insights) (UserReach insights)
                           (UserImpressions insights) (WebsiteClicks insights)
          else insights
      | [] => insights
      end
  end.

(** [url.Values.Encode()], where the encoded text itself is sent (the body
    of a form post). *)
Class FormEncoding := Encode : list (string * string) -> string.

Section More.
Context `{HTTPLib} `{FormEncoding} `{JSONDecode MediaResponse} `{JSONDecode TokenResponse}
        `{JSONDecode (list Metric)}.

(** The methods that assign [c.AccessToken] or [c.UserID] return the client
    as they leave it. *)
Definition GetAccessToken (c : InstagramClient) (code : string)
    : M (TokenResponse * InstagramClient) :=
  let params := [("client_id", AppID c); ("client_secret", AppSecret c);
                 ("grant_type", "authorization_code");
                 ("redirect_uri", RedirectURI c); ("code", code)] in
  req ← NewRequest "POST" InstagramAPIURL [] (RawBody (Encode params));
  let req := Header_Add "Content-Type" "application/x-www-form-urlencoded" req in
  '(status, bodyBytes) ← DoOrErr id req;
  if negb (status =? 200) then
    raise ("failed to get access token: " +:+ bodyBytes +:+ ", status: " +:+ itoa status)
  else
    tokenResp ← Decode (T := TokenResponse) bodyBytes;
    mret (tokenResp,
          set_UserID (itoa (TokenUserID tokenResp))
                     (set_AccessToken (TokenAccessToken tokenResp) c)).

Definition GetLongLivedAccessToken (c : InstagramClient)
    : M (TokenResponse * InstagramClient) :=
  if (AccessToken c =? "")%string then raise "no access token available"
  else
    let params := [("grant_type", "ig_exchange_token"); ("client_secret", AppSecret c);
                   ("access_token", AccessToken c)] in
    req ← NewRequest "GET" (BaseURL +:+ "/access_token") params NoBody;
    '(status, bodyBytes) ← DoOrErr id req;
    if negb (status =? 200) then
      raise ("failed to get long lived token: " +:+ bodyBytes
             +:+ ", status: " +:+ itoa status)
    else
      tokenResp ← Decode (T := TokenResponse) bodyBytes;
      mret (tokenResp, set_AccessToken (TokenAccessToken tokenResp) c).

Definition RefreshAccessToken (c : InstagramClient)
    : M (TokenResponse * InstagramClient) :=
  if (AccessToken c =? "")%string then raise "no access token available"
  else
    let params := [("grant_type", "ig_refresh_token"); ("access_token", AccessToken c)] in
    req ← NewRequest "GET" (BaseURL +:+ "/refresh_access_token") params NoBody;
    '(status, bodyBytes) ← DoOrErr id req;
    if negb (status =? 200) then
      raise ("failed to refresh token: " +:+ bodyBytes +:+ ", status: " +:+ itoa status)
    else
      tokenResp ← Decode (T := TokenResponse) bodyBytes;
      mret (tokenResp, set_AccessToken (TokenAccessToken tokenResp) c).

Definition PostImage (c : InstagramClient) (imagePath caption : string) : M MediaResponse :=
  if (AccessToken c =? "")%string || (UserID c =? "")%string then
    raise "access token and user ID are required"
  else
    let params := [("image_url", imagePath); ("caption", caption);
                   ("access_token", AccessToken c)] in
    req ← NewRequest "POST" (BaseURL +:+ "/" +:+ UserID c +:+ "/media") params NoBody;
    '(status, bodyBytes) ← DoOrErr id req;
    if negb (status =? 200) then
      raise ("failed to create media container: " +:+ bodyBytes
             +:+ ", status: " +:+ itoa status)
    else
      mediaResp ← Decode (T := MediaResponse) bodyBytes;
      publish c (ID mediaResp) "media".

Definition GetMediaInsights (c : InstagramClient) (mediaID : string) : M MediaInsights :=
  if (AccessToken c =? "")%string then raise "access token is required"
  else
    let params :=
      [("metric", "engagement,impressions,reach,saved,video_views,likes,comments,shares");
       ("access_token", AccessToken c)] in
    req ← NewRequest "GET" (BaseURL +:+ "/" +:+ mediaID +:+ "/insights") params NoBody;
    '(status, bodyBytes) ← DoOrErr id req;
    if negb (status =? 200) then
      raise ("failed to get media insights: " +:+ bodyBytes
             +:+ ", status: " +:+ itoa status)
    else
      insightsData ← Decode (T := list Metric) bodyBytes;
      mret (foldl applyMediaMetric (mkMediaInsights 0 0 0 0 0 0 0 0 0) insightsData).

Definition GetUserInsights (c : InstagramClient) (period : string) : M UserInsights :=
  if (AccessToken c =? "")%string || (UserID c =? "")%string then
    raise "access token and user ID are required"
  else
    let period := if (period =? "")%string then "day" else period in
    let params :=
      [("metric", "follower_count,profile_views,reach,impressions,website_clicks");
       ("period", period); ("access_token", AccessToken c)] in
    req ← NewRequest "GET" (BaseURL +:+ "/" +:+ UserID c +:+ "/insights") params NoBody;
    '(status, bodyBytes) ← DoOrErr id req;
    if negb (status =? 200) then
      raise ("failed to get user insights: " +:+ bodyBytes
             +:+ ", status: " +:+ itoa status)
    else
      insightsData ← Decode (T := list Metric) bodyBytes;
      mret (foldl applyUserMetric (mkUserInsights 0 0 0 0 0 0) insightsData).

End More.

End Instagram.

(** [if err != nil { return nil, fmt.Errorf("...: %v", err) }] around a call. *)
Definition wrapErr {A} (f : string -> string) (m : M A) : M A := fun w =>
  match m w with
  | (Err e, w') => (Err (f e), w')
  | r => r
  end.

(** [s[i]] on a slice: a run-time panic when [i] is out of range. *)
Definition index {A} (s : list A) (i : Z) : M A :=
  if i <? 0 then
    panic ("runtime error: index out of range [" +:+ itoa i +:+ "]")
  else if Z.of_nat (length s) <=? i then
    panic ("runtime error: index out of range [" +:+ itoa i +:+ "] with length "
           +:+ itoa (Z.of_nat (length s)))
  else
    match s !! Z.to_nat i with
    | Some x => mret x
    | None => panic "runtime error: index out of range"
    end.

(** [time.Time], as seconds since the epoch. *)
Definition Time : Type := Z.

(** ** twitter.go *)

Module Twitter.

Record TwitterClient := mkTwitterClient {
  BearerToken : string;
  APIKey : string;
  APISecret : string;
  AccessToken : string;
  TokenSecret : string;
  BaseURL : string
}.

Definition NewTwitterClient (apiKey apiSecret accessToken tokenSecret bearerToken : string)
    : TwitterClient :=
  {| BearerToken := bearerToken; APIKey := apiKey; APISecret := apiSecret;
     AccessToken := accessToken; TokenSecret := tokenSecret;
     BaseURL := "https://api.twitter.com/2" |}.

Record Tweet := mkTweet {
  ID : string;
  Text : string;
  CreatedAt : Time;
  AuthorID : string;
  ConversationID : string;
  InReplyToTweetID : string
}.

Record TweetResponse := mkTweetResponse { Data : Tweet }.

Record TweetsResponse := mkTweetsResponse {
  Tweets : list Tweet;      (* Data *)
  ResultCount : Z;          (* Meta.ResultCount *)
  NextToken : string        (* Meta.NextToken *)
}.

Section Client.
Context `{HTTPLib} `{JSONDecode TweetResponse} `{JSONDecode TweetsResponse}.

Definition CreateTweet (c : TwitterClient) (text : string) : M Tweet :=
  let endpoint := BaseURL c +:+ "/tweets" in
  let payload := JObject {[ "text" := JString text ]} in
  req ← wrapErr (fun e => "error creating request: " +:+ e)
                (NewRequest "POST" endpoint [] (JSONBody payload));
  let req := Header_Set "Authorization" ("Bearer " +:+ BearerToken c) req in
  let req := Header_Set "Content-Type" "application/json" req in
  '(code, body) ← DoOrErr (fun e => "error sending request: " +:+ e) req;
  if negb (code =? 201) && negb (code =? 200) then
    raise ("API error: " +:+ itoa code +:+ " - " +:+ body)
  else
    tweetResp ← wrapErr (fun e => "error decoding response: " +:+ e)
                        (Decode (T := TweetResponse) body);
    mret (Data tweetResp).

Definition ReplyToTweet (c : TwitterClient) (inReplyToTweetID text : string) : M Tweet :=
  let endpoint := BaseURL c +:+ "/tweets" in
  let payload :=
    JObject {[ "text" := JString text;
               "reply" := JObject {[ "in_reply_to_tweet_id" := JString inReplyToTweetID ]} ]} in
  req ← wrapErr (fun e => "error creating request: " +:+ e)
                (NewRequest "POST" endpoint [] (JSONBody payload));
  let req := Header_Set "Authorization" ("Bearer " +:+ BearerToken c) req in
  let req := Header_Set "Content-Type" "application/json" req in
  '(code, body) ← DoOrErr (fun e => "error sending request: " +:+ e) req;
  if negb (code =? 201) && negb (code =? 200) then
    raise ("API error: " +:+ itoa code +:+ " - " +:+ body)
  else
    tweetResp ← wrapErr (fun e => "error decoding response: " +:+ e)
                        (Decode (T := TweetResponse) body);
    mret (Data tweetResp).

Definition GetTweet (c : TwitterClient) (tweetID : string) : M Tweet :=
  let endpoint := BaseURL c +:+ "/tweets/" +:+ tweetID in
  req ← wrapErr (fun e => "error creating request: " +:+ e)
                (NewRequest "GET" endpoint [] NoBody);
  let req := Header_Set "Authorization" ("Bearer " +:+ BearerToken c) req in
  '(code, body) ← DoOrErr (fun e => "error sending request: " +:+ e) req;
  if negb (code =? 200) then
    raise ("API error: " +:+ itoa code +:+ " - " +:+ body)
  else
    tweetResp ← wrapErr (fun e => "error decoding response: " +:+ e)
                        (Decode (T := TweetResponse) body);
    mret (Data tweetResp).

Definition DeleteTweet (c : TwitterClient) (tweetID : string) : M unit :=
  let endpoint := BaseURL c +:+ "/tweets/" +:+ tweetID in
  req ← wrapErr (fun e => "error creating request: " +:+ e)
                (NewRequest "DELETE" endpoint [] NoBody);
  let req := Header_Set "Authorization" ("Bearer " +:+ BearerToken c) req in
  '(code, body) ← DoOrErr (fun e => "error sending request: " +:+ e) req;
  if negb (code =? 200) then
    raise ("API error: " +:+ itoa code +:+ " - " +:+ body)
  else mret tt.

Definition SearchRecentTweets (c : TwitterClient) (query : string) (maxResults : Z)
    : M (list Tweet) :=
  let endpoint := BaseURL c +:+ "/tweets/search/recent" in
  let params := [("query", query)] in
  let params := if 0 <? maxResults then params ++ [("max_results", itoa maxResults)]
                else params in
  req ← wrapErr (fun e => "error creating request: " +:+ e)
                (NewRequest "GET" endpoint params NoBody);
  let req := Header_Set "Authorization" ("Bearer " +:+ BearerToken c) req in
  '(code, body) ← DoOrErr (fun e => "error sending request: " +:+ e) req;
  if negb (code =? 200) then
    raise ("API error: " +:+ itoa code +:+ " - " +:+ body)
  else
    tweetsResp ← wrapErr (fun e => "error decoding response: " +:+ e)
                         (Decode (T := TweetsResponse) body);
    mret (Tweets tweetsResp).

(** *** AutomatedTweeter *)

(** [StopChan] and the ticker are channels between goroutines: they
    live in the state of the loop ([Loop], below), not in this record. *)
Record AutomatedTweeter := mkAutomatedTweeter {
  Client : TwitterClient;
  PostInterval : Z;
  Content : list string;
  CurrentIndex : Z
}.

Definition NewAutomatedTweeter (client : TwitterClient) (interval : Z)
    (content : list string) : AutomatedTweeter :=
  {| Client := client; PostInterval := interval; Content := content; CurrentIndex := 0 |}.

Definition set_CurrentIndex (i : Z) (at_ : AutomatedTweeter) : AutomatedTweeter :=
  {| Client := Client at_; PostInterval := PostInterval at_;
     Content := Content at_; CurrentIndex := i |}.

(** The body of [case <-ticker.C:] in [Start]. *)
Definition onTick (at_ : AutomatedTweeter) : M AutomatedTweeter :=
  let at_ := if Z.of_nat (length (Content at_)) <=? CurrentIndex at_
             then set_CurrentIndex 0 at_ else at_ in
  content ← index (Content at_) (CurrentIndex at_);
  r ← attempt (CreateTweet (Client at_) content);
  _ ← match r with
      | inl err => Print ("Error posting automated tweet: " +:+ err)
      | inr _ => Print ("Posted automated tweet: " +:+ content)
      end;
  mret (set_CurrentIndex (CurrentIndex at_ + 1) at_).

(** [n] ticks in a row. *)
Fixpoint ticks (n : nat) (at_ : AutomatedTweeter) : M AutomatedTweeter :=
  match n with
  | O => mret at_
  | S n' => at' ← onTick at_; ticks n' at'
  end.

(** *** The [select] loop of [Start]

    [Start] runs in one goroutine; the ticker and the caller of [Stop] run
    in others.  A state of the loop holds the tweeter, the world, the time
    the ticker has measured since [time.NewTicker] (in the unit of
    [PostInterval]), whether a tick is waiting in [ticker.C] (a channel of
    capacity one), whether [StopChan] has been closed, and where the loop
    is. *)
Inductive Status := Running | Returned | Crashed.

Record Loop := mkLoop {
  tweeter : AutomatedTweeter;
  world : World;
  elapsed : Z;
  tickReady : bool;
  stopClosed : bool;
  status : Status
}.

(** What can happen next: another [PostInterval] has gone by and the ticker
    fires, somebody calls [Stop], or the [select] of the loop takes one of
    its two cases.  Go's [select] takes any case that is ready; when both
    are, either. *)
Inductive Action := TickFires | CallStop | SelectTick | SelectStop.

#[global] Instance Action_eq_dec : EqDecision Action.
Proof. solve_decision. Defined.

#[global] Instance Status_eq_dec : EqDecision Status.
Proof. solve_decision. Defined.

(** One action; [None] when it cannot happen in that state. *)
Definition step (a : Action) (s : Loop) : option Loop :=
  match a with
  | TickFires =>
      (* the tick goes into [ticker.C], where it replaces nothing: a tick
         that finds one waiting is dropped; after [defer ticker.Stop()] has
         run no tick is delivered *)
      Some (mkLoop (tweeter s) (world s) (elapsed s + PostInterval (tweeter s))
                   (if decide (status s = Running) then true else tickReady s)
                   (stopClosed s) (status s))
  | CallStop =>
      (* closing a closed channel panics in the caller *)
      if stopClosed s then None
      else Some (mkLoop (tweeter s) (world s) (elapsed s) (tickReady s) true (status s))
  | SelectTick =>
      if decide (status s = Running) then
        if tickReady s then
          match onTick (tweeter s) (world s) with
          | (Ok at', w') => Some (mkLoop at' w' (elapsed s) false (stopClosed s) Running)
          | (_, w') => Some (mkLoop (tweeter s) w' (elapsed s) false (stopClosed s) Crashed)
          end
        else None
      else None
  | SelectStop =>
      if decide (status s = Running) then
        if stopClosed s then
          Some (mkLoop (tweeter s) (world s) (elapsed s) (tickReady s) true Returned)
        else None
      else None
  end.

Fixpoint exec (acts : list Action) (s : Loop) : option Loop :=
  match acts with
  | [] => Some s
  | a :: rest => s' ← step a s; exec rest s'
  end.

(** [go at.Start()]: the first statement, [time.NewTicker(at.PostInterval)],
    panics when the interval is not positive; otherwise the loop is entered
    with no tick waiting. *)
Definition start (at_ : AutomatedTweeter) (w : World) : Loop :=
  mkLoop at_ w 0 false false (if PostInterval at_ <=? 0 then Crashed else Running).

End Client.

(** *** AutoReplier *)

(** [StopChan] and the ticker live outside the record, as for
    [AutomatedTweeter]. *)
Record AutoReplier := mkAutoReplier {
  ReplierClient : TwitterClient;   (* Client *)
  SearchQueries : list string;
  ReplyContent : string;
  CheckInterval : Z;
  LastTweetIDs : gmap string string
}.

Definition NewAutoReplier (client : TwitterClient) (queries : list string)
    (replyContent : string) (interval : Z) : AutoReplier :=
  {| ReplierClient := client; SearchQueries := queries; ReplyContent := replyContent;
     CheckInterval := interval; LastTweetIDs := ∅ |}.

(** [ar.LastTweetIDs[query] = id]. *)
Definition set_LastTweetID (query id : string) (ar : AutoReplier) : AutoReplier :=
  {| ReplierClient := ReplierClient ar; SearchQueries := SearchQueries ar;
     ReplyContent := ReplyContent ar; CheckInterval := CheckInterval ar;
     LastTweetIDs := <[query := id]> (LastTweetIDs ar) |}.

(** [ar.LastTweetIDs[query]]: the empty string for a query that is not in
    the map. *)
Definition lastTweetID (ar : AutoReplier) (query : string) : string :=
  default "" (LastTweetIDs ar !! query).

(** The first loop of [Start]: every query starts with no tweet seen. *)
Definition initLastTweetIDs (ar : AutoReplier) : AutoReplier :=
  foldl (fun ar query => set_LastTweetID query "" ar) ar (SearchQueries ar).

(** [lastID != "" && tweet.ID <= lastID]: the tweet was seen before.  Go
    compares strings byte by byte. *)
Definition seenBefore (lastID : string) (tweet : Tweet) : bool :=
  negb (lastID =? "")%string && String.leb (ID tweet) lastID.

Section Replier.
Context `{HTTPLib} `{JSONDecode TweetResponse} `{JSONDecode TweetsResponse}.

(** [for i := len(tweets) - 1; i >= 0; i-- { ... }], on the tweets still
    to visit, oldest first: [tweets[i]] is the head of the list and
    [i == 0] holds when nothing comes after it. *)
Fixpoint replyOldestFirst (ar : AutoReplier) (query lastID : string)
    (oldestFirst : list Tweet) : M AutoReplier :=
  match oldestFirst with
  | [] => mret ar
  | tweet :: newer =>
      if seenBefore lastID tweet then replyOldestFirst ar query lastID newer
      else
        let ar := match newer with
                  | [] => set_LastTweetID query (ID tweet) ar
                  | _ :: _ => ar
                  end in
        r ← attempt (ReplyToTweet (ReplierClient ar) (ID tweet) (ReplyContent ar));
        _ ← match r with
            | inl err => Print ("Error replying to tweet " +:+ ID tweet +:+ ": " +:+ err)
            | inr _ => Print ("Replied to tweet " +:+ ID tweet +:+ " matching query '"
                              +:+ query +:+ "'")
            end;
        _ ← Sleep 2;
        replyOldestFirst ar query lastID newer
  end.

(** The body of [for _, query := range ar.SearchQueries] in the tick case
    of [Start]. *)
Definition checkQuery (ar : AutoReplier) (query : string) : M AutoReplier :=
  r ← attempt (SearchRecentTweets (ReplierClient ar) query 10);
  match r with
  | inl err =>
      _ ← Print ("Error searching tweets for query '" +:+ query +:+ "': " +:+ err);
      mret ar
  | inr tweets =>
      if (length tweets =? 0)%nat then mret ar
      else replyOldestFirst ar query (lastTweetID ar query) (rev tweets)
  end.

Fixpoint checkQueries (ar : AutoReplier) (queries : list string) : M AutoReplier :=
  match queries with
  | [] => mret ar
  | query :: rest => ar' ← checkQuery ar query; checkQueries ar' rest
  end.

(** The body of [case <-ticker.C:] in [AutoReplier.Start]. *)
Definition onCheck (ar : AutoReplier) : M AutoReplier :=
  checkQueries ar (SearchQueries ar).

End Replier.

End Twitter.

(** ** threads.go *)

Module Threads.

Record Thread := mkThread {
  ID : string;
  Title : string;
  Content : string;
  AuthorID : string;
  CreatedAt : Time;
  UpdatedAt : Time
}.

Record Reply := mkReply {
  ReplyID : string;         (* ID *)
  ThreadID : string;
  ReplyContent : string;    (* Content *)
  ReplyAuthorID : string;   (* AuthorID *)
  ParentID : string;
  ReplyCreatedAt : Time;    (* CreatedAt *)
  ReplyUpdatedAt : Time     (* UpdatedAt *)
}.

Record ThreadService := mkThreadService {
  BaseURL : string;
  AuthToken : string
}.

Definition NewThreadService (baseURL authToken : string) : ThreadService :=
  {| BaseURL := baseURL; AuthToken := authToken |}.

(** A [map[string]string] payload, as [json.Marshal] turns it into JSON. *)
Definition payloadJSON (payload : gmap string string) : Payload :=
  JSONBody (JObject (JString <$> payload)).

Definition creating (e : string) : string := "error creating request: " +:+ e.
Definition sending (e : string) : string := "error sending request: " +:+ e.
Definition decoding (e : string) : string := "error decoding response: " +:+ e.

(** [fmt.Errorf("API error (status %d): %s", resp.StatusCode, string(body))]. *)
Definition apiError (code : Z) (body : string) : string :=
  "API error (status " +:+ itoa code +:+ "): " +:+ body.

Section Service.
Context `{HTTPLib} `{JSONDecode Thread} `{JSONDecode (list Thread)}
        `{JSONDecode Reply} `{JSONDecode (list Reply)}.

Definition CreateThread (s : ThreadService) (title content authorID : string) : M Thread :=
  if (title =? "")%string then raise "title cannot be empty"
  else if (content =? "")%string then raise "content cannot be empty"
  else
    let payload : gmap string string :=
      {[ "title" := title; "content" := content; "author_id" := authorID ]} in
    req ← wrapErr creating
          (NewRequest "POST" (BaseURL s +:+ "/threads") [] (payloadJSON payload));
    let req := Header_Set "Content-Type" "application/json" req in
    let req := Header_Set "Authorization" ("Bearer " +:+ AuthToken s) req in
    '(code, body) ← DoOrErr sending req;
    if negb (code =? 201) then raise (apiError code body)
    else wrapErr decoding (Decode (T := Thread) body).

Definition GetThread (s : ThreadService) (threadID : string) : M Thread :=
  if (threadID =? "")%string then raise "thread ID cannot be empty"
  else
    req ← wrapErr creating
          (NewRequest "GET" (BaseURL s +:+ "/threads/" +:+ threadID) [] NoBody);
    let req := Header_Set "Authorization" ("Bearer " +:+ AuthToken s) req in
    '(code, body) ← DoOrErr sending req;
    if code =? 404 then raise "thread not found"
    else if negb (code =? 200) then raise (apiError code body)
    else wrapErr decoding (Decode (T := Thread) body).

Definition UpdateThread (s : ThreadService) (threadID title content : string) : M Thread :=
  if (threadID =? "")%string then raise "thread ID cannot be empty"
  else
    let payload : gmap string string := ∅ in
    let payload := if (title =? "")%string then payload
                   else <["title" := title]> payload in
    let payload := if (content =? "")%string then payload
                   else <["content" := content]> payload in
    if (size payload =? 0)%nat then raise "no update parameters provided"
    else
      req ← wrapErr creating
            (NewRequest "PUT" (BaseURL s +:+ "/threads/" +:+ threadID) []
                        (payloadJSON payload));
      let req := Header_Set "Content-Type" "application/json" req in
      let req := Header_Set "Authorization" ("Bearer " +:+ AuthToken s) req in
      '(code, body) ← DoOrErr sending req;
      if code =? 404 then raise "thread not found"
      else if negb (code =? 200) then raise (apiError code body)
      else wrapErr decoding (Decode (T := Thread) body).

Definition DeleteThread (s : ThreadService) (threadID : string) : M unit :=
  if (threadID =? "")%string then raise "thread ID cannot be empty"
  else
    req ← wrapErr creating
          (NewRequest "DELETE" (BaseURL s +:+ "/threads/" +:+ threadID) [] NoBody);
    let req := Header_Set "Authorization" ("Bearer " +:+ AuthToken s) req in
    '(code, body) ← DoOrErr sending req;
    if code =? 404 then raise "thread not found"
    else if negb (code =? 200) && negb (code =? 204) then raise (apiError code body)
    else mret tt.

Definition ListThreads (s : ThreadService) (page limit : Z) : M (list Thread) :=
  let url := BaseURL s +:+ "/threads?page=" +:+ itoa page +:+ "&limit=" +:+ itoa limit in
  req ← wrapErr creating (NewRequest "GET" url [] NoBody);
  let req := Header_Set "Authorization" ("Bearer " +:+ AuthToken s) req in
  '(code, body) ← DoOrErr sending req;
  if negb (code =? 200) then raise (apiError code body)
  else wrapErr decoding (Decode (T := list Thread) body).

Definition CreateReply (s : ThreadService) (threadID content authorID parentID : string)
    : M Reply :=
  if (threadID =? "")%string then raise "thread ID cannot be empty"
  else if (content =? "")%string then raise "content cannot be empty"
  else
    let payload : gmap string string :=
      {[ "thread_id" := threadID; "content" := content; "author_id" := authorID ]} in
    let payload := if (parentID =? "")%string then payload
                   else <["parent_id" := parentID]> payload in
    req ← wrapErr creating
          (NewRequest "POST" (BaseURL s +:+ "/threads/" +:+ threadID +:+ "/replies") []
                      (payloadJSON payload));
    let req := Header_Set "Content-Type" "application/json" req in
    let req := Header_Set "Authorization" ("Bearer " +:+ AuthToken s) req in
    '(code, body) ← DoOrErr sending req;
    if code =? 404 then raise "thread not found"
    else if negb (code =? 201) then raise (apiError code body)
    else wrapErr decoding (Decode (T := Reply) body).

Definition GetReplies (s : ThreadService) (threadID : string) (page limit : Z)
    : M (list Reply) :=
  if (threadID =? "")%string then raise "thread ID cannot be empty"
  else
    let url := BaseURL s +:+ "/threads/" +:+ threadID +:+ "/replies?page=" +:+ itoa page
               +:+ "&limit=" +:+ itoa limit in
    req ← wrapErr creating (NewRequest "GET" url [] NoBody);
    let req := Header_Set "Authorization" ("Bearer " +:+ AuthToken s) req in
    '(code, body) ← DoOrErr sending req;
    if code =? 404 then raise "thread not found"
    else if negb (code =? 200) then raise (apiError code body)
    else wrapErr decoding (Decode (T := list Reply) body).

Definition UpdateReply (s : ThreadService) (replyID content : string) : M Reply :=
  if (replyID =? "")%string then raise "reply ID cannot be empty"
  else if (content =? "")%string then raise "content cannot be empty"
  else
    let payload : gmap string string := {[ "content" := content ]} in
    req ← wrapErr creating
          (NewRequest "PUT" (BaseURL s +:+ "/replies/" +:+ replyID) []
                      (payloadJSON payload));
    let req := Header_Set "Content-Type" "application/json" req in
    let req := Header_Set "Authorization" ("Bearer " +:+ AuthToken s) req in
    '(code, body) ← DoOrErr sending req;
    if code =? 404 then raise "reply not found"
    else if negb (code =? 200) then raise (apiError code body)
    else wrapErr decoding (Decode (T := Reply) body).

Definition DeleteReply (s : ThreadService) (replyID : string) : M unit :=
  if (replyID =? "")%string then raise "reply ID cannot be empty"
  else
    req ← wrapErr creating
          (NewRequest "DELETE" (BaseURL s +:+ "/replies/" +:+ replyID) [] NoBody);
    let req := Header_Set "Authorization" ("Bearer " +:+ AuthToken s) req in
    '(code, body) ← DoOrErr sending req;
    if code =? 404 then raise "reply not found"
    else if negb (code =? 200) && negb (code =? 204) then raise (apiError code body)
    else mret tt.

Definition SearchThreads (s : ThreadService) (query : string) (page limit : Z)
    : M (list Thread) :=
  if (query =? "")%string then raise "search query cannot be empty"
  else
    let url := BaseURL s +:+ "/threads/search?q=" +:+ query +:+ "&page=" +:+ itoa page
               +:+ "&limit=" +:+ itoa limit in
    req ← wrapErr creating (NewRequest "GET" url [] NoBody);
    let req := Header_Set "Authorization" ("Bearer " +:+ AuthToken s) req in
    '(code, body) ← DoOrErr sending req;
    if negb (code =? 200) then raise (apiError code body)
    else wrapErr decoding (Decode (T := list Thread) body).

End Service.
End Threads.

(** ** linkedin.go *)

(** [for _, v := range m { ...; break }] looks at one entry of [m]; which
    one is up to the Go runtime.  [range_first m] is the value it sees. *)
Class MapRange := range_first : gmap string JSON -> option JSON.

(** [v.(string)] and [v.(map[string]interface{})] in their one-result form:
    a run-time panic when the value has another type. *)
Definition must_string (v : option JSON) : M string :=
  match as_string v with
  | Some s => mret s
  | None => panic "interface conversion: interface {} is not string"
  end.

Definition must_map (v : option JSON) : M (gmap string JSON) :=
  match as_map v with
  | Some m => mret m
  | None => panic "interface conversion: interface {} is not map[string]interface {}"
  end.

Module LinkedIn.

Definition UGCPostURL : string := "https://api.linkedin.com/v2/ugcPosts".
Definition AssetUploadURL : string := "https://api.linkedin.com/v2/assets".

Record LinkedInClient := mkLinkedInClient {
  ClientID : string;
  ClientSecret : string;
  RedirectURI : string;
  AccessToken : string;
  UserID : string
}.

Definition set_UserID (id : string) (c : LinkedInClient) : LinkedInClient :=
  {| ClientID := ClientID c; ClientSecret := ClientSecret c;
     RedirectURI := RedirectURI c; AccessToken := AccessToken c; UserID := id |}.

Record UserProfile := mkUserProfile {
  ID : string;
  FirstName : string;
  LastName : string;
  ProfilePicture : string;
  Email : string;
  Headline : string;
  Industry : string;
  Country : string;
  CurrentPosition : string
}.

Record PostResponse := mkPostResponse {
  PostID : string;   (* ID *)
  Status : string
}.

Definition mechanismKey : string :=
  "com.linkedin.digitalmedia.uploading.MediaUploadHttpRequest".

Section Client.
Context `{HTTPLib} `{MapRange} `{JSONDecode (gmap string JSON)}.

(** [if m, ok := raw[field].(map); ok { if l, ok := m["localized"].(map); ok
    { for _, v := range l { x = v.(string); break } } }]: the new value of
    [x], whose old value is [old]. *)
Definition localized (raw : gmap string JSON) (field old : string) : M string :=
  match as_map (raw !! field) with
  | None => mret old
  | Some m =>
      match as_map (m !! "localized") with
      | None => mret old
      | Some l =>
          if (size l =? 0)%nat then mret old
          else must_string (range_first l)
      end
  end.

(** The methods have a pointer receiver and [GetUserProfile] assigns
    [c.UserID]: each computation returns the client as it leaves it. *)
Definition GetUserProfile (c : LinkedInClient) : M (UserProfile * LinkedInClient) :=
  if (AccessToken c =? "")%string then raise "access token is required"
  else
    let params := [("projection",
                    "(id,firstName,lastName,profilePicture,headline,email,industry)")] in
    req ← NewRequest "GET" (Instagram.BaseURL +:+ "/me") params NoBody;
    let req := Header_Add "Authorization" ("Bearer " +:+ AccessToken c) req in
    '(code, bodyBytes) ← DoOrErr id req;
    if negb (code =? 200) then
      raise ("failed to get profile: " +:+ bodyBytes +:+ ", status: " +:+ itoa code)
    else
      rawProfile ← Decode (T := gmap string JSON) bodyBytes;
      profileID ← must_string (rawProfile !! "id");
      let c := set_UserID profileID c in
      firstName ← localized rawProfile "firstName" "";
      lastName ← localized rawProfile "lastName" "";
      headline ← localized rawProfile "headline" "";
      mret (mkUserProfile profileID firstName lastName "" "" headline "" "" "", c).

(** The [registerUploadRequest] document of [InitiateImageUpload]. *)
Definition assetData (c : LinkedInClient) (recipe : string) : JSON :=
  JObject {[ "registerUploadRequest" :=
    JObject {[ "recipes" := JArray [JString recipe];
               "owner" := JString ("urn:li:person:" +:+ UserID c);
               "serviceRelationships" :=
                 JArray [JObject {[ "relationshipType" := JString "OWNER";
                                    "identifier" := JString "urn:li:userGeneratedContent" ]}] ]} ]}.

Definition InitiateImageUpload (c : LinkedInClient) (imageType : string)
    : M (string * gmap string JSON) :=
  if (AccessToken c =? "")%string then raise "access token is required"
  else
    req ← NewRequest "POST" AssetUploadURL []
            (JSONBody (assetData c "urn:li:digitalmediaRecipe:feedshare-image"));
    let req := Header_Add "Authorization" ("Bearer " +:+ AccessToken c) req in
    let req := Header_Add "Content-Type" "application/json" req in
    '(code, bodyBytes) ← DoOrErr id req;
    if negb (code =? 200) then
      raise ("failed to initiate image upload: " +:+ bodyBytes
             +:+ ", status: " +:+ itoa code)
    else
      uploadResp ← Decode (T := gmap string JSON) bodyBytes;
      match as_map (uploadResp !! "value") with
      | None => raise "invalid upload response structure"
      | Some value =>
          match as_map (value !! "uploadMechanism") with
          | None => raise "invalid upload mechanism"
          | Some uploadMechanism =>
              request ← must_map (uploadMechanism !! mechanismKey);
              let uploadURL := as_string (request !! "uploadUrl") in
              _ ← Print (default "" uploadURL);
              match uploadURL with
              | None => raise "could not find upload URL"
              | Some _ =>
                  match as_string (value !! "asset") with
                  | None => raise "could not find asset URN"
                  | Some asset => mret (asset, uploadMechanism)
                  end
              end
          end
      end.

Definition UploadImage (c : LinkedInClient) (imagePath : string) : M string :=
  if (AccessToken c =? "")%string then raise "access token is required"
  else
    '(assetURN, uploadMechanism) ← InitiateImageUpload c "image";
    request ← must_map (uploadMechanism !! mechanismKey);
    match as_string (request !! "uploadUrl") with
    | None => raise "could not find upload URL"
    | Some uploadURL =>
        fileContents ← ReadFile imagePath;
        uploadReq ← NewRequest "PUT" uploadURL [] (RawBody fileContents);
        '(code, bodyBytes) ← DoOrErr id uploadReq;
        if negb (code =? 200) && negb (code =? 201) && negb (code =? 204) then
          raise ("failed to upload image: " +:+ bodyBytes +:+ ", status: " +:+ itoa code)
        else mret assetURN
    end.

(** The UGC post document of [CreateImagePost] and [CreateVideoPost]. *)
Definition postData (author text category description mediaURN title : string) : JSON :=
  JObject {[ "author" := JString author;
             "lifecycleState" := JString "PUBLISHED";
             "specificContent" :=
               JObject {[ "com.linkedin.ugc.ShareContent" :=
                 JObject {[ "shareCommentary" := JObject {[ "text" := JString text ]};
                            "shareMediaCategory" := JString category;
                            "media" :=
                              JArray [JObject {[ "status" := JString "READY";
                                                 "description" :=
                                                   JObject {[ "text" := JString description ]};
                                                 "media" := JString mediaURN;
                                                 "title" :=
                                                   JObject {[ "text" := JString title ]} ]}] ]} ]};
             "visibility" :=
               JObject {[ "com.linkedin.ugc.MemberNetworkVisibility" := JString "PUBLIC" ]} ]}.

(** [authorType] and [authorID] after the defaulting both post functions
    start with. *)
Definition resolveAuthor (c : LinkedInClient) (authorType authorID : string)
    : M (string * string * LinkedInClient) :=
  let authorType := if (authorType =? "")%string then "person" else authorType in
  if (authorID =? "")%string && (authorType =? "person")%string then
    if (UserID c =? "")%string then
      '(profile, c) ← wrapErr (fun e => "could not determine user ID: " +:+ e)
                              (GetUserProfile c);
      mret (authorType, ID profile, c)
    else mret (authorType, UserID c, c)
  else mret (authorType, authorID, c).

Definition CreateImagePost (c : LinkedInClient)
    (text imageAssetURN authorType authorID : string)
    : M (PostResponse * LinkedInClient) :=
  if (AccessToken c =? "")%string then raise "access token is required"
  else
    '(authorType, authorID, c) ← resolveAuthor c authorType authorID;
    let author := "urn:li:" +:+ authorType +:+ ":" +:+ authorID in
    req ← NewRequest "POST" UGCPostURL []
            (JSONBody (postData author text "IMAGE" "Image description"
                                imageAssetURN "Image title"));
    let req := Header_Add "Authorization" ("Bearer " +:+ AccessToken c) req in
    let req := Header_Add "Content-Type" "application/json" req in
    let req := Header_Add "X-Restli-Protocol-Version" "2.0.0" req in
    '(code, bodyBytes) ← DoOrErr id req;
    if negb (code =? 201) && negb (code =? 200) then
      raise ("failed to create image post: " +:+ bodyBytes +:+ ", status: " +:+ itoa code)
    else
      postResp ← Decode (T := gmap string JSON) bodyBytes;
      match as_string (postResp !! "id") with
      | None => raise "invalid post response, no ID found"
      | Some postID => mret (mkPostResponse postID "", c)
      end.

Definition PostWithImage (c : LinkedInClient) (text imagePath authorType authorID : string)
    : M (PostResponse * LinkedInClient) :=
  assetURN ← wrapErr (fun e => "failed to upload image: " +:+ e) (UploadImage c imagePath);
  CreateImagePost c text assetURN authorType authorID.

(** [CreateVideoPost] returns a pointer to a [PostResponse] and an error; on
    its last line both are [nil], so the pointer is an [option] here.  The two lines
    before decode [req.Body], the request's own body, into a map that is
    not looked at. *)
Definition CreateVideoPost (c : LinkedInClient)
    (text videoAssetURN authorType authorID : string)
    : M (option PostResponse * LinkedInClient) :=
  if (AccessToken c =? "")%string then raise "access token is required"
  else
    '(authorType, authorID, c) ← resolveAuthor c authorType authorID;
    let author := "urn:li:" +:+ authorType +:+ ":" +:+ authorID in
    req ← NewRequest "POST" UGCPostURL []
            (JSONBody (postData author text "VIDEO" "Video description"
                                videoAssetURN "Video title"));
    let req := Header_Add "Authorization" ("Bearer " +:+ AccessToken c) req in
    let req := Header_Add "Content-Type" "application/json" req in
    let req := Header_Add "X-Restli-Protocol-Version" "2.0.0" req in
    '(code, bodyBytes) ← DoOrErr id req;
    if negb (code =? 201) && negb (code =? 200) then
      raise ("failed to create video post: " +:+ bodyBytes +:+ ", status: " +:+ itoa code)
    else mret (None, c).

End Client.

(** *** The rest of linkedin.go: company pages and videos *)

Record CompanyPage := mkCompanyPage {
  PageID : string;        (* ID *)
  PageName : string;      (* Name *)
  Description : string;
  Logo : string;
  Website : string;
  PageIndustry : string;  (* Industry *)
  Size : string;
  Followers : Z
}.

(** One entry of [OrganizationResponse.Elements]. *)
Record Organization := mkOrganization {
  OrganizationTarget : string;
  Role : string
}.

Section More.
Context `{HTTPLib} `{MapRange} `{JSONDecode (gmap string JSON)}
        `{JSONDecode (list Organization)}.

(** [for _, org := range orgResp.Elements { ... }] in [GetCompanyPages],
    with the [companyPages] collected so far; a [continue] goes on with the
    other elements. *)
Fixpoint companyDetails (c : LinkedInClient) (elements : list Organization)
    (companyPages : list CompanyPage) : M (list CompanyPage) :=
  match elements with
  | [] => mret companyPages
  | org :: rest =>
      let orgID := OrganizationTarget org in
      r ← attempt (NewRequest "GET" (Instagram.BaseURL +:+ "/organizations/" +:+ orgID)
                              [] NoBody);
      match r with
      | inl _ => companyDetails c rest companyPages
      | inr detailsReq =>
          let detailsReq :=
            Header_Add "Authorization" ("Bearer " +:+ AccessToken c) detailsReq in
          detailsResp ← Do detailsReq;
          match detailsResp with
          | TransportError _ => companyDetails c rest companyPages
          | Response _ body =>
              match json_Decode (T := gmap string JSON) body with
              | inl _ => companyDetails c rest companyPages
              | inr pageDetails =>
                  let name := default "" (as_string (pageDetails !! "name")) in
                  description ← localized pageDetails "description" "";
                  companyDetails c rest
                    (companyPages ++ [mkCompanyPage orgID name description "" "" "" "" 0])
              end
          end
      end
  end.

Definition GetCompanyPages (c : LinkedInClient) : M (list CompanyPage) :=
  if (AccessToken c =? "")%string then raise "access token is required"
  else
    req ← NewRequest "GET"
            (Instagram.BaseURL +:+ "/organizationAcls?q=roleAssignee&role=ADMINISTRATOR")
            [] NoBody;
    let req := Header_Add "Authorization" ("Bearer " +:+ AccessToken c) req in
    '(code, bodyBytes) ← DoOrErr id req;
    if negb (code =? 200) then
      raise ("failed to get company pages: " +:+ bodyBytes +:+ ", status: " +:+ itoa code)
    else
      elements ← Decode (T := list Organization) bodyBytes;
      companyDetails c elements [].

Definition InitiateVideoUpload (c : LinkedInClient) : M (string * gmap string JSON) :=
  if (AccessToken c =? "")%string then raise "access token is required"
  else
    req ← NewRequest "POST" AssetUploadURL []
            (JSONBody (assetData c "urn:li:digitalmediaRecipe:feedshare-video"));
    let req := Header_Add "Authorization" ("Bearer " +:+ AccessToken c) req in
    let req := Header_Add "Content-Type" "application/json" req in
    '(code, bodyBytes) ← DoOrErr id req;
    if negb (code =? 200) then
      raise ("failed to initiate video upload: " +:+ bodyBytes
             +:+ ", status: " +:+ itoa code)
    else
      uploadResp ← Decode (T := gmap string JSON) bodyBytes;
      match as_map (uploadResp !! "value") with
      | None => raise "invalid upload response structure"
      | Some value =>
          match as_map (value !! "uploadMechanism") with
          | None => raise "invalid upload mechanism"
          | Some uploadMechanism =>
              match as_string (value !! "asset") with
              | None => raise "could not find asset URN"
              | Some asset => mret (asset, uploadMechanism)
              end
          end
      end.

Definition UploadVideo (c : LinkedInClient) (videoPath : string) : M string :=
  if (AccessToken c =? "")%string then raise "access token is required"
  else
    '(assetURN, uploadMechanism) ← InitiateVideoUpload c;
    match as_map (uploadMechanism !! mechanismKey) with
    | None => raise "invalid upload mechanism format"
    | Some uploadInfo =>
        match as_string (uploadInfo !! "uploadUrl") with
        | None => raise "could not find upload URL"
        | Some uploadURL =>
            fileContents ← ReadFile videoPath;
            uploadReq ← NewRequest "PUT" uploadURL [] (RawBody fileContents);
            '(code, bodyBytes) ← DoOrErr id uploadReq;
            if negb (code =? 200) && negb (code =? 201) && negb (code =? 204) then
              raise ("failed to upload video: " +:+ bodyBytes
                     +:+ ", status: " +:+ itoa code)
            else mret assetURN
        end
    end.

End More.

(** *** The rest of linkedin.go: tokens and text posts *)

Definition TokenURL : string := "https://www.linkedin.com/oauth/v2/accessToken".

Definition set_AccessToken (tok : string) (c : LinkedInClient) : LinkedInClient :=
  {| ClientID := ClientID c; ClientSecret := ClientSecret c;
     RedirectURI := RedirectURI c; AccessToken := tok; UserID := UserID c |}.

(** The UGC post document of [CreateTextPost]. *)
Definition textPostData (author text : string) : JSON :=
  JObject {[ "author" := JString author;
             "lifecycleState" := JString "PUBLISHED";
             "specificContent" :=
               JObject {[ "com.linkedin.ugc.ShareContent" :=
                 JObject {[ "shareCommentary" := JObject {[ "text" := JString text ]};
                            "shareMediaCategory" := JString "NONE" ]} ]};
             "visibility" :=
               JObject {[ "com.linkedin.ugc.MemberNetworkVisibility" := JString "PUBLIC" ]} ]}.

Section Tokens.
Context `{HTTPLib} `{Instagram.FormEncoding} `{MapRange} `{JSONDecode (gmap string JSON)}
        `{JSONDecode Instagram.TokenResponse}.

(** [TokenResponse] is the type of that name in the package, the one
    [instagram.go] declares.  Both functions assign [c.AccessToken]. *)
Definition GetAccessToken (c : LinkedInClient) (code : string)
    : M (Instagram.TokenResponse * LinkedInClient) :=
  let params := [("grant_type", "authorization_code"); ("code", code);
                 ("redirect_uri", RedirectURI c); ("client_id", ClientID c);
                 ("client_secret", ClientSecret c)] in
  req ← NewRequest "POST" TokenURL [] (RawBody (Instagram.Encode params));
  let req := Header_Add "Content-Type" "application/x-www-form-urlencoded" req in
  '(status, bodyBytes) ← DoOrErr id req;
  if negb (status =? 200) then
    raise ("failed to get access token: " +:+ bodyBytes +:+ ", status: " +:+ itoa status)
  else
    tokenResp ← Decode (T := Instagram.TokenResponse) bodyBytes;
    mret (tokenResp, set_AccessToken (Instagram.TokenAccessToken tokenResp) c).

Definition RefreshAccessToken (c : LinkedInClient) (refreshToken : string)
    : M (Instagram.TokenResponse * LinkedInClient) :=
  let params := [("grant_type", "refresh_token"); ("refresh_token", refreshToken);
                 ("client_id", ClientID c); ("client_secret", ClientSecret c)] in
  req ← NewRequest "POST" TokenURL [] (RawBody (Instagram.Encode params));
  let req := Header_Add "Content-Type" "application/x-www-form-urlencoded" req in
  '(status, bodyBytes) ← DoOrErr id req;
  if negb (status =? 200) then
    raise ("failed to refresh access token: " +:+ bodyBytes
           +:+ ", status: " +:+ itoa status)
  else
    tokenResp ← Decode (T := Instagram.TokenResponse) bodyBytes;
    mret (tokenResp, set_AccessToken (Instagram.TokenAccessToken tokenResp) c).

Definition CreateTextPost (c : LinkedInClient) (text authorType authorID : string)
    : M (PostResponse * LinkedInClient) :=
  if (AccessToken c =? "")%string then raise "access token is required"
  else
    '(authorType, authorID, c) ← resolveAuthor c authorType authorID;
    let author := "urn:li:" +:+ authorType +:+ ":" +:+ authorID in
    req ← NewRequest "POST" UGCPostURL [] (JSONBody (textPostData author text));
    let req := Header_Add "Authorization" ("Bearer " +:+ AccessToken c) req in
    let req := Header_Add "Content-Type" "application/json" req in
    let req := Header_Add "X-Restli-Protocol-Version" "2.0.0" req in
    '(code, bodyBytes) ← DoOrErr id req;
    if negb (code =? 201) && negb (code =? 200) then
      raise ("failed to create post: " +:+ bodyBytes +:+ ", status: " +:+ itoa code)
    else
      postResp ← Decode (T := gmap string JSON) bodyBytes;
      match as_string (postResp !! "id") with
      | None => raise "invalid post response, no ID found"
      | Some postID => mret (mkPostResponse postID "", c)
      end.

End Tokens.

End LinkedIn.

(** ** Sample library instances and data

    A decoder that knows a handful of JSON texts, each with the value
    [encoding/json] gives it, and rejects every other text; and a
    [NewRequest] that accepts every URL.  The examples run on these. *)

Module Samples.

Definition quote : string := String (ascii_of_nat 34) EmptyString.

(** The JSON text of an object with string fields. *)
Fixpoint fieldsText (kvs : list (string * string)) : string :=
  match kvs with
  | [] => ""
  | [(k, v)] => quote +:+ k +:+ quote +:+ ":" +:+ quote +:+ v +:+ quote
  | (k, v) :: rest =>
      quote +:+ k +:+ quote +:+ ":" +:+ quote +:+ v +:+ quote +:+ "," +:+ fieldsText rest
  end.

Definition objectText (kvs : list (string * string)) : string :=
  "{" +:+ fieldsText kvs +:+ "}".

Fixpoint lookupText {T} (table : list (string * T)) (text : string) : string + T :=
  match table with
  | [] => inl "invalid character looking for beginning of value"
  | (t, v) :: rest => if String.eqb t text then inr v else lookupText rest text
  end.

Definition statusText (status : string) : string := objectText [("status_code", status)].

Definition containerText (id statusURL : string) : string :=
  objectText [("id", id); ("status_url", statusURL)].

Definition mapTable : list (string * gmap string JSON) :=
  [ (statusText "FINISHED", {[ "status_code" := JString "FINISHED" ]});
    (statusText "ERROR", {[ "status_code" := JString "ERROR" ]});
    (statusText "IN_PROGRESS", {[ "status_code" := JString "IN_PROGRESS" ]});
    (objectText [("id", "urn:li:share:1")], {[ "id" := JString "urn:li:share:1" ]});
    ("{}", ∅) ].

Definition mediaTable : list (string * Instagram.MediaResponse) :=
  [ (objectText [("id", "17890")], Instagram.mkMediaResponse "17890" "");
    (objectText [("id", "17891")], Instagram.mkMediaResponse "17891" "");
    (objectText [("id", "17892")], Instagram.mkMediaResponse "17892" "");
    (containerText "17889" "https://graph.facebook.com/status/17889",
     Instagram.mkMediaResponse "17889" "https://graph.facebook.com/status/17889") ].

Definition sampleThread : Threads.Thread :=
  Threads.mkThread "t1" "Hello" "First post" "u1" 1700000000 1700000000.

Definition threadText : string :=
  objectText [("id", "t1"); ("title", "Hello"); ("content", "First post");
              ("author_id", "u1"); ("created_at", "2023-11-14T22:13:20Z");
              ("updated_at", "2023-11-14T22:13:20Z")].

Definition sampleTweet : Twitter.Tweet :=
  Twitter.mkTweet "1001" "hello" 0 "" "" "".

Definition tweetText : string :=
  "{" +:+ quote +:+ "data" +:+ quote +:+ ":"
  +:+ objectText [("id", "1001"); ("text", "hello")] +:+ "}".

#[export] Instance lib : HTTPLib := fun _ _ _ => None.
#[export] Instance range : MapRange := fun m => snd <$> head (map_to_list m).
#[export] Instance decodeMap : JSONDecode (gmap string JSON) := lookupText mapTable.
#[export] Instance decodeMedia : JSONDecode Instagram.MediaResponse := lookupText mediaTable.
#[export] Instance decodeThread : JSONDecode Threads.Thread :=
  lookupText [(threadText, sampleThread)].
#[export] Instance decodeThreads : JSONDecode (list Threads.Thread) :=
  lookupText [("[]", [])].
#[export] Instance decodeReply : JSONDecode Threads.Reply := lookupText [].
#[export] Instance decodeReplies : JSONDecode (list Threads.Reply) :=
  lookupText [("[]", [])].
#[export] Instance decodeTweet : JSONDecode Twitter.TweetResponse :=
  lookupText [(tweetText, Twitter.mkTweetResponse sampleTweet)].
#[export] Instance decodeTweets : JSONDecode Twitter.TweetsResponse := lookupText [].

(** A world whose remote side answers with [answers]. *)
Definition world (answers : list HTTPResult) : World :=
  mkWorld answers [] 0 [] ∅.

Definition ig : Instagram.InstagramClient :=
  Instagram.mkInstagramClient "app" "secret" "https://example.com/cb" "IGTOKEN" "42".

Definition tw : Twitter.TwitterClient :=
  Twitter.NewTwitterClient "key" "secret" "access" "tsecret" "BEARER".

Definition ts : Threads.ThreadService :=
  Threads.NewThreadService "https://forum.example.com/api" "THREADTOKEN".

Definition li : LinkedIn.LinkedInClient :=
  LinkedIn.mkLinkedInClient "cid" "csecret" "https://example.com/cb" "LITOKEN" "u77".

Definition statusURL : string := "https://graph.facebook.com/status/17889".

Definition pendingAnswer : HTTPResult := Response 200 (statusText "IN_PROGRESS").
Definition finishedAnswer : HTTPResult := Response 200 (statusText "FINISHED").
Definition failedAnswer : HTTPResult := Response 200 (statusText "ERROR").

(** A container that has to be polled for. *)
Definition containerAnswer : HTTPResult := Response 200 (containerText "17889" statusURL).

(** The answer to a publish request. *)
Definition publishedAnswer : HTTPResult := Response 200 (objectText [("id", "17890")]).

(** A poll answered with a server error whose body says "FINISHED". *)
Definition finishedWith500 : HTTPResult := Response 500 (statusText "FINISHED").

Definition tweeter : Twitter.AutomatedTweeter :=
  Twitter.NewAutomatedTweeter tw 21600 ["first"; "second"; "third"].

End Samples.

(** ** Vocabulary of the statements *)

(** What one answer to a status poll means to [waitForMediaProcessing]. *)
Inductive Verdict := Finished | Failed | Pending | Broken.

#[export] Instance Verdict_eq_dec : EqDecision Verdict.
Proof. solve_decision. Defined.

Definition verdict `{JSONDecode (gmap string JSON)} (r : HTTPResult) : Verdict :=
  match r with
  | TransportError _ => Broken
  | Response _ body =>
      match json_Decode (T := gmap string JSON) body with
      | inl _ => Broken
      | inr statusData =>
          match as_string (statusData !! "status_code") with
          | None => Broken
          | Some status =>
              if (status =? "FINISHED")%string then Finished
              else if (status =? "ERROR")%string then Failed
              else Pending
          end
      end
  end.

(** The answer carries a [status_code] of "FINISHED" or "ERROR". *)
Definition terminal `{JSONDecode (gmap string JSON)} (r : HTTPResult) : bool :=
  bool_decide (verdict r = Finished) || bool_decide (verdict r = Failed).

(** The request of one status poll. *)
Definition pollRequest (statusURL : string) : Request :=
  mkRequest "GET" statusURL [] [] NoBody.

(** The exchanges of successive polls answered by [answers], the first one
    going out two seconds after [t]. *)
Fixpoint pollExchanges (statusURL : string) (t : Z) (answers : list HTTPResult)
    : list Exchange :=
  match answers with
  | [] => []
  | r :: rest =>
      mkExchange (t + 2) (pollRequest statusURL) r :: pollExchanges statusURL (t + 2) rest
  end.

(** The world after [answers] have been consumed by polls. *)
Definition afterPolls (statusURL : string) (answers rest : list HTTPResult) (w : World)
    : World :=
  mkWorld rest (log w ++ pollExchanges statusURL (clock w) answers)
          (clock w + 2 * Z.of_nat (length answers)) (stdout w) (fs w).

(** A status code in the 2xx range. *)
Definition is2xx (code : Z) : bool := (200 <=? code) && (code <? 300).

(** ** A logic for what a computation exchanges with the remote side

    [Spec m Q]: whenever [m] runs, the log grows by some exchanges [xs]
    (nothing logged before is touched) and [Q] holds of the outcome and of
    [xs]. *)

Definition Spec {A} (m : M A) (Q : outcome A -> list Exchange -> Prop) : Prop :=
  forall w r w', m w = (r, w') -> exists xs, log w' = log w ++ xs /\ Q r xs.

(** The outcome of [m ≫= f] when [m] stops with [o]: the error or the panic
    of [m]. *)
Definition stopped {A B} (o : outcome A) : outcome B :=
  match o with
  | Ok _ => Panic "unreachable"
  | Err e => Err e
  | Panic p => Panic p
  end.

Definition is_Ok {A} (o : outcome A) : bool :=
  match o with Ok _ => true | _ => false end.

(** A step that logs nothing. *)
Definition silent {A} (m : M A) : Prop :=
  forall w r w', m w = (r, w') -> log w' = log w.

(** ** The wrappers that make one request

    [threads.go] and the tweet wrappers of [twitter.go] all have one shape:
    check the arguments, build one request, send it, look at the status
    code, decode the body.  [Call] names a wrapper together with its
    arguments, so that a statement can range over all of them. *)

Inductive Call :=
  | CreateThread (s : Threads.ThreadService) (title content authorID : string)
  | GetThread (s : Threads.ThreadService) (threadID : string)
  | UpdateThread (s : Threads.ThreadService) (threadID title content : string)
  | DeleteThread (s : Threads.ThreadService) (threadID : string)
  | ListThreads (s : Threads.ThreadService) (page limit : Z)
  | CreateReply (s : Threads.ThreadService) (threadID content authorID parentID : string)
  | GetReplies (s : Threads.ThreadService) (threadID : string) (page limit : Z)
  | UpdateReply (s : Threads.ThreadService) (replyID content : string)
  | DeleteReply (s : Threads.ThreadService) (replyID : string)
  | SearchThreads (s : Threads.ThreadService) (query : string) (page limit : Z)
  | CreateTweet (c : Twitter.TwitterClient) (text : string)
  | ReplyToTweet (c : Twitter.TwitterClient) (inReplyToTweetID text : string)
  | GetTweet (c : Twitter.TwitterClient) (tweetID : string)
  | DeleteTweet (c : Twitter.TwitterClient) (tweetID : string)
  | SearchRecentTweets (c : Twitter.TwitterClient) (query : string) (maxResults : Z).

(** What a wrapper returns next to its error. *)
Inductive Result :=
  | AThread (t : Threads.Thread)
  | SomeThreads (ts : list Threads.Thread)
  | AReply (r : Threads.Reply)
  | SomeReplies (rs : list Threads.Reply)
  | ATweet (t : Twitter.Tweet)
  | SomeTweets (ts : list Twitter.Tweet)
  | Nothing.

Definition map_outcome {A B} (g : A -> B) (o : outcome A) : outcome B :=
  match o with
  | Ok a => Ok (g a)
  | Err e => Err e
  | Panic p => Panic p
  end.

Definition lift {A B} (g : A -> B) (m : M A) : M B := fun w =>
  (map_outcome g (m w).1, (m w).2).

Section Calls.
Context `{HTTPLib} `{JSONDecode Threads.Thread} `{JSONDecode (list Threads.Thread)}
        `{JSONDecode Threads.Reply} `{JSONDecode (list Threads.Reply)}
        `{JSONDecode Twitter.TweetResponse} `{JSONDecode Twitter.TweetsResponse}.

Definition invoke (call : Call) : M Result :=
  match call with
  | CreateThread s title content authorID =>
      lift AThread (Threads.CreateThread s title content authorID)
  | GetThread s threadID => lift AThread (Threads.GetThread s threadID)
  | UpdateThread s threadID title content =>
      lift AThread (Threads.UpdateThread s threadID title content)
  | DeleteThread s threadID => lift (fun _ => Nothing) (Threads.DeleteThread s threadID)
  | ListThreads s page limit => lift SomeThreads (Threads.ListThreads s page limit)
  | CreateReply s threadID content authorID parentID =>
      lift AReply (Threads.CreateReply s threadID content authorID parentID)
  | GetReplies s threadID page limit =>
      lift SomeReplies (Threads.GetReplies s threadID page limit)
  | UpdateReply s replyID content => lift AReply (Threads.UpdateReply s replyID content)
  | DeleteReply s replyID => lift (fun _ => Nothing) (Threads.DeleteReply s replyID)
  | SearchThreads s query page limit =>
      lift SomeThreads (Threads.SearchThreads s query page limit)
  | CreateTweet c text => lift ATweet (Twitter.CreateTweet c text)
  | ReplyToTweet c inReplyToTweetID text =>
      lift ATweet (Twitter.ReplyToTweet c inReplyToTweetID text)
  | GetTweet c tweetID => lift ATweet (Twitter.GetTweet c tweetID)
  | DeleteTweet c tweetID => lift (fun _ => Nothing) (Twitter.DeleteTweet c tweetID)
  | SearchRecentTweets c query maxResults =>
      lift SomeTweets (Twitter.SearchRecentTweets c query maxResults)
  end.

(** The typed result a body stands for, as the decoder of the wrapper's
    result type reads it. *)
Definition decoded (call : Call) (body : string) : string + Result :=
  match call with
  | CreateThread _ _ _ _ | GetThread _ _ | UpdateThread _ _ _ _ =>
      match json_Decode (T := Threads.Thread) body with
      | inl e => inl e | inr t => inr (AThread t) end
  | ListThreads _ _ _ | SearchThreads _ _ _ _ =>
      match json_Decode (T := list Threads.Thread) body with
      | inl e => inl e | inr ts => inr (SomeThreads ts) end
  | CreateReply _ _ _ _ _ | UpdateReply _ _ _ =>
      match json_Decode (T := Threads.Reply) body with
      | inl e => inl e | inr r => inr (AReply r) end
  | GetReplies _ _ _ _ =>
      match json_Decode (T := list Threads.Reply) body with
      | inl e => inl e | inr rs => inr (SomeReplies rs) end
  | CreateTweet _ _ | ReplyToTweet _ _ _ | GetTweet _ _ =>
      match json_Decode (T := Twitter.TweetResponse) body with
      | inl e => inl e | inr t => inr (ATweet (Twitter.Data t)) end
  | SearchRecentTweets _ _ _ =>
      match json_Decode (T := Twitter.TweetsResponse) body with
      | inl e => inl e | inr ts => inr (SomeTweets (Twitter.Tweets ts)) end
  | DeleteThread _ _ | DeleteReply _ _ | DeleteTweet _ _ => inr Nothing
  end.

End Calls.

(** The status codes a wrapper goes on to decode the body at. *)
Definition accepts (call : Call) (code : Z) : bool :=
  match call with
  | CreateThread _ _ _ _ | CreateReply _ _ _ _ _ => code =? 201
  | DeleteThread _ _ | DeleteReply _ _ => (code =? 200) || (code =? 204)
  | CreateTweet _ _ | ReplyToTweet _ _ _ => (code =? 201) || (code =? 200)
  | _ => code =? 200
  end.



(** The request carries [Authorization: Bearer <tok>]. *)
Definition bearer (tok : string) (req : Request) : Prop :=
  assoc_get "Authorization" (Header req) = Some ("Bearer " +:+ tok).

(** ** Exchanges that must end an operation *)

(** [x] is an exchange the operation has to check ([checked x]) and its
    answer is a response outside the 2xx range. *)
Definition refused (checked : Exchange -> bool) (x : Exchange) : bool :=
  checked x && match reply x with
               | Response code _ => negb (is2xx code)
               | TransportError _ => false
               end.

(** Either no checked exchange was refused, or the last one was, nothing
    went out after it, and the outcome is an error whose text contains the
    body and the status code of that answer. *)
Definition Aborts (checked : Exchange -> bool) {A} (r : outcome A)
    (xs : list Exchange) : Prop :=
  Forall (fun x => refused checked x = false) xs
  \/ exists xs0 x code body e,
       xs = xs0 ++ [x]
       /\ Forall (fun x => refused checked x = false) xs0
       /\ checked x = true
       /\ reply x = Response code body
       /\ is2xx code = false
       /\ r = Err e
       /\ Contains e body = true
       /\ Contains e (itoa code) = true.

Definition isPOST (x : Exchange) : bool := String.eqb (Method (request x)) "POST".
Definition always (x : Exchange) : bool := true.

(** The arguments of a [ThreadService] operation that it requires to be
    non-empty. *)
Definition required (call : Call) : list string :=
  match call with
  | CreateThread _ title content _ => [title; content]
  | GetThread _ threadID | DeleteThread _ threadID | GetReplies _ threadID _ _
  | UpdateThread _ threadID _ _ => [threadID]
  | CreateReply _ threadID content _ _ => [threadID; content]
  | UpdateReply _ replyID content => [replyID; content]
  | DeleteReply _ replyID => [replyID]
  | SearchThreads _ query _ _ => [query]
  | _ => []
  end.


(** ** What the requests of an operation look like *)







(** ** Vocabulary for the carousel *)


(** The request that creates the container of one carousel item. *)
Definition itemRequest (c : Instagram.InstagramClient) (mediaPath : string)
    : Request :=
  mkRequest "POST" (Instagram.BaseURL +:+ "/" +:+ Instagram.UserID c +:+ "/media")
            (Instagram.carouselItemParams c mediaPath) [] NoBody.

Definition isItem (x : Exchange) : bool :=
  bool_decide (assoc_get "is_carousel_item" (Query (request x)) = Some "true").

Definition isCarousel (x : Exchange) : bool :=
  bool_decide (assoc_get "media_type" (Query (request x)) = Some "CAROUSEL").




(** The request that creates the carousel out of the containers
    [childrenIDs]. *)
Definition carouselRequest (c : Instagram.InstagramClient) (caption : string)
    (childrenIDs : list string) : Request :=
  mkRequest "POST" (Instagram.BaseURL +:+ "/" +:+ Instagram.UserID c +:+ "/media")
            [("media_type", "CAROUSEL"); ("caption", caption);
             ("access_token", Instagram.AccessToken c);
             ("children", Join childrenIDs ",")] [] NoBody.




(** ** Vocabulary for the automated tweeter *)

(** The request [CreateTweet] builds for [text]. *)
Definition tweetRequest (c : Twitter.TwitterClient) (text : string) : Request :=
  Header_Set "Content-Type" "application/json"
    (Header_Set "Authorization" ("Bearer " +:+ Twitter.BearerToken c)
       (mkRequest "POST" (Twitter.BaseURL c +:+ "/tweets") [] []
                  (JSONBody (JObject {[ "text" := JString text ]})))).

(** The entries of [content] at the indices [i, i+1, ...] taken modulo its
    length, [n] of them. *)
Fixpoint cycleFrom (content : list string) (i n : nat) : list string :=
  match n with
  | O => []
  | S n' =>
      match content !! (i mod length content)%nat with
      | Some text => text :: cycleFrom content (S i) n'
      | None => []
      end
  end.

(** The index a tick reads [Content] at: 0 once [CurrentIndex] has reached
    or passed the length, and [CurrentIndex] otherwise. *)
Definition indexRead (at_ : Twitter.AutomatedTweeter) : Z :=
  if Z.of_nat (length (Twitter.Content at_)) <=? Twitter.CurrentIndex at_ then 0
  else Twitter.CurrentIndex at_.

(** [CreateTweet] never panics, and when its request can be built it sends
    exactly that request. *)
Definition tweeted `{HTTPLib} (c : Twitter.TwitterClient) (text : string) {A} (r : outcome A)
    (xs : list Exchange) : Prop :=
  (forall p, r ≠ Panic p)
  /\ (NewRequest_err "POST" (Twitter.BaseURL c +:+ "/tweets") [] = None ->
      request <$> xs = [tweetRequest c text]).


(** How many times the loop took the tick case in [acts]. *)
Definition ticksTaken (acts : list Twitter.Action) : nat :=
  length (filter (fun a => a = Twitter.SelectTick) acts).

(** The ticks waiting in [ticker.C]: one or none. *)
Definition waiting (s : Twitter.Loop) : nat := if Twitter.tickReady s then 1 else 0.

(** How many times the ticker fired in [acts]. *)
Definition firings (acts : list Twitter.Action) : nat :=
  length (filter (fun a => a = Twitter.TickFires) acts).

(** ** Vocabulary for the course of the status polls *)

(** The exchange was a status poll answered "not yet". *)
Definition pendingPoll `{JSONDecode (gmap string JSON)} (x : Exchange) : Prop :=
  verdict (reply x) = Pending.

(** What the polls [xs] of one call of the helper, ended with [r], look
    like: polls of [statusURL] only, at most [n] of them; every poll but
    the last was answered "not yet"; and the helper returned [nil] only on a
    last poll answered "FINISHED". *)
Definition pollsDone `{JSONDecode (gmap string JSON)} (statusURL : string) (n : nat)
    (r : outcome unit) (xs : list Exchange) : Prop :=
  (length xs <= n)%nat
  /\ Forall (fun x => request x = pollRequest statusURL) xs
  /\ (forall init x, xs = init ++ [x] -> Forall pendingPoll init)
  /\ (r = Ok tt ->
      exists init x, xs = init ++ [x] /\ verdict (reply x) = Finished).

(** ** Vocabulary for publishing a container *)

(** The request that publishes the container [creationID]. *)
Definition publishRequest (c : Instagram.InstagramClient) (creationID : string) : Request :=
  mkRequest "POST" (Instagram.BaseURL +:+ "/" +:+ Instagram.UserID c +:+ "/media_publish")
            [("creation_id", creationID); ("access_token", Instagram.AccessToken c)]
            [] NoBody.

(** The request names a container to publish. *)
Definition isPublish (x : Exchange) : bool :=
  match assoc_get "creation_id" (Query (request x)) with
  | Some _ => true
  | None => false
  end.

(** The answer is a 200 whose body decodes to [v]. *)
Definition answered {T} `{JSONDecode T} (a : HTTPResult) (v : T) : Prop :=
  exists body, a = Response 200 body /\ json_Decode body = inr v.

(** What holds of the exchanges of [publish]: at most one, the publish
    request of [creationID]; a value is returned only as the decoded body of
    a 200 answer to it. *)
Definition publishDone `{JSONDecode Instagram.MediaResponse}
    (c : Instagram.InstagramClient) (creationID : string)
    (r : outcome Instagram.MediaResponse) (xs : list Exchange) : Prop :=
  (xs = [] /\ is_Ok r = false)
  \/ exists t a, xs = [mkExchange t (publishRequest c creationID) a]
                 /\ forall v, r = Ok v -> answered a v.

(** The polls [PostReel] makes between creating the container [mediaResp]
    and publishing it: none when the container has no status URL, and
    otherwise polls of that URL that were answered "not yet" up to a last
    one answered "FINISHED". *)
Definition processed `{JSONDecode (gmap string JSON)}
    (mediaResp : Instagram.MediaResponse) (polls : list Exchange) : Prop :=
  Forall (fun p => request p = pollRequest (Instagram.StatusURL mediaResp)) polls
  /\ if (Instagram.StatusURL mediaResp =? "")%string then polls = []
     else exists init last,
            polls = init ++ [last] /\ Forall pendingPoll init
            /\ verdict (reply last) = Finished.

(** What holds of the exchanges [xs] of [PostReel], ended with [r]: a
    publish request went out only as the last request, after the container
    was created and processed, and for the id the container answer carried;
    and a value is returned only as the decoded answer to that request. *)
Definition reelDone `{JSONDecode Instagram.MediaResponse} `{JSONDecode (gmap string JSON)}
    (c : Instagram.InstagramClient) (r : outcome Instagram.MediaResponse)
    (xs : list Exchange) : Prop :=
  (forall x, x ∈ xs -> isPublish x = true ->
     exists container mediaResp polls,
       xs = container :: polls ++ [x]
       /\ answered (reply container) mediaResp
       /\ processed mediaResp polls
       /\ request x = publishRequest c (Instagram.ID mediaResp))
  /\ (forall v, r = Ok v ->
        exists x, last xs = Some x /\ isPublish x = true /\ answered (reply x) v).

(** The request [PostImage] creates its container with. *)
Definition imageRequest (c : Instagram.InstagramClient) (imagePath caption : string)
    : Request :=
  mkRequest "POST" (Instagram.BaseURL +:+ "/" +:+ Instagram.UserID c +:+ "/media")
            [("image_url", imagePath); ("caption", caption);
             ("access_token", Instagram.AccessToken c)] [] NoBody.

(** What holds of the exchanges of [PostImage]: the container request,
    then, once that was answered 200 with a body that decodes, the publish
    request for the id it carried, and nothing else. *)
Definition imageDone `{JSONDecode Instagram.MediaResponse}
    (c : Instagram.InstagramClient) (imagePath caption : string)
    (r : outcome Instagram.MediaResponse) (xs : list Exchange) : Prop :=
  (xs = [] /\ is_Ok r = false)
  \/ (exists t a, xs = [mkExchange t (imageRequest c imagePath caption) a]
                  /\ is_Ok r = false)
  \/ (exists t a mediaResp t' a',
        xs = [mkExchange t (imageRequest c imagePath caption) a;
              mkExchange t' (publishRequest c (Instagram.ID mediaResp)) a']
        /\ answered a mediaResp
        /\ forall v, r = Ok v -> answered a' v).

(** ** The operations of instagram.go that check the credentials first *)

Inductive Operation :=
  | PostImage (imagePath caption : string)
  | PostReel (videoPath caption coverImagePath : string) (shareToFeed : bool)
  | PostCarousel (mediaPaths : list string) (caption : string)
  | GetLongLivedAccessToken
  | RefreshAccessToken
  | GetMediaInsights (mediaID : string)
  | GetUserInsights (period : string).

Section Operations.
Context `{HTTPLib} `{Instagram.FormEncoding} `{JSONDecode (gmap string JSON)}
        `{JSONDecode Instagram.MediaResponse} `{JSONDecode Instagram.TokenResponse}
        `{JSONDecode (list Instagram.Metric)}.

Definition perform (c : Instagram.InstagramClient) (op : Operation) : M unit :=
  match op with
  | PostImage imagePath caption =>
      lift (fun _ => tt) (Instagram.PostImage c imagePath caption)
  | PostReel videoPath caption coverImagePath shareToFeed =>
      lift (fun _ => tt) (Instagram.PostReel c videoPath caption coverImagePath shareToFeed)
  | PostCarousel mediaPaths caption =>
      lift (fun _ => tt) (Instagram.PostCarousel c mediaPaths caption)
  | GetLongLivedAccessToken => lift (fun _ => tt) (Instagram.GetLongLivedAccessToken c)
  | RefreshAccessToken => lift (fun _ => tt) (Instagram.RefreshAccessToken c)
  | GetMediaInsights mediaID => lift (fun _ => tt) (Instagram.GetMediaInsights c mediaID)
  | GetUserInsights period => lift (fun _ => tt) (Instagram.GetUserInsights c period)
  end.

End Operations.

(** The operations that address the user's own node of the graph. *)
Definition needsUser (op : Operation) : bool :=
  match op with
  | PostImage _ _ | PostReel _ _ _ _ | PostCarousel _ _ | GetUserInsights _ => true
  | GetLongLivedAccessToken | RefreshAccessToken | GetMediaInsights _ => false
  end.

(** The client lacks a credential that [op] needs. *)
Definition unready (c : Instagram.InstagramClient) (op : Operation) : bool :=
  (Instagram.AccessToken c =? "")%string
  || (needsUser op && (Instagram.UserID c =? "")%string).

(** ** Vocabulary for the tokens *)

(** What holds of a token renewal of [c] ([GetLongLivedAccessToken],
    [RefreshAccessToken]): at most one request is made, a GET of [url]
    without headers that carries the old token and [grant] as its grant
    type; and the renewal succeeds exactly when that request was answered
    200 with a body that decodes: to the value returned, the client then
    holding the token of that value, with its other fields as before. *)
Definition renewed `{JSONDecode Instagram.TokenResponse} (c : Instagram.InstagramClient)
    (url grant : string)
    (r : outcome (Instagram.TokenResponse * Instagram.InstagramClient))
    (xs : list Exchange) : Prop :=
  (length xs <= 1)%nat
  /\ Forall (fun x => Method (request x) = "GET" /\ URL (request x) = url
                      /\ Header (request x) = []
                      /\ assoc_get "grant_type" (Query (request x)) = Some grant
                      /\ assoc_get "access_token" (Query (request x))
                         = Some (Instagram.AccessToken c)) xs
  /\ forall tokenResp c',
       r = Ok (tokenResp, c')
       <-> c' = Instagram.set_AccessToken (Instagram.TokenAccessToken tokenResp) c
           /\ exists x, xs = [x] /\ answered (reply x) tokenResp.

(** The form [GetAccessToken] posts. *)
Definition codeForm (c : Instagram.InstagramClient) (code : string)
    : list (string * string) :=
  [("client_id", Instagram.AppID c); ("client_secret", Instagram.AppSecret c);
   ("grant_type", "authorization_code"); ("redirect_uri", Instagram.RedirectURI c);
   ("code", code)].

(** ** Vocabulary for the insights *)

(** The reading of the metric [name] in [data]: the first value of the last
    entry of that name that has a value. *)
Definition reading (name : string) (data : list Instagram.Metric) : option Z :=
  last (omap (fun metric => if (Instagram.Name metric =? name)%string
                            then head (Instagram.Values metric) else None) data).

(** The growth of the followers in [data]: the first value less the second
    one, in the last "follower_count" entry that has two values. *)
Definition growth (data : list Instagram.Metric) : option Z :=
  last (omap (fun metric =>
                if (Instagram.Name metric =? "follower_count")%string then
                  match Instagram.Values metric with
                  | value :: previousValue :: _ =>
                      Some (Instagram.wrap64 (value - previousValue))
                  | _ => None
                  end
                else None) data).

(** The insights an answer [data] stands for: each field is the reading of
    its metric, and 0 when [data] has none. *)
Definition mediaReadings (data : list Instagram.Metric) : Instagram.MediaInsights :=
  Instagram.mkMediaInsights
    (default 0 (reading "engagement" data)) (default 0 (reading "impressions" data))
    (default 0 (reading "reach" data)) (default 0 (reading "saved" data))
    (default 0 (reading "video_views" data)) (default 0 (reading "likes" data))
    (default 0 (reading "comments" data)) (default 0 (reading "shares" data))
    (default 0 (reading "stories_replies" data)).

Definition userReadings (data : list Instagram.Metric) : Instagram.UserInsights :=
  Instagram.mkUserInsights
    (default 0 (reading "follower_count" data)) (default 0 (growth data))
    (default 0 (reading "profile_views" data)) (default 0 (reading "reach" data))
    (default 0 (reading "impressions" data)) (default 0 (reading "website_clicks" data)).

(** ** Vocabulary for the automatic replies *)

(** The request [ReplyToTweet] builds. *)
Definition replyRequest (c : Twitter.TwitterClient) (inReplyToTweetID text : string)
    : Request :=
  Header_Set "Content-Type" "application/json"
    (Header_Set "Authorization" ("Bearer " +:+ Twitter.BearerToken c)
       (mkRequest "POST" (Twitter.BaseURL c +:+ "/tweets") [] []
          (JSONBody
             (JObject {[ "text" := JString text;
                         "reply" := JObject {[ "in_reply_to_tweet_id"
                                                 := JString inReplyToTweetID ]} ]})))).

(** The search [AutoReplier] makes for a query: ten results at most. *)
Definition searchRequest (c : Twitter.TwitterClient) (query : string) : Request :=
  Header_Set "Authorization" ("Bearer " +:+ Twitter.BearerToken c)
    (mkRequest "GET" (Twitter.BaseURL c +:+ "/tweets/search/recent")
               [("query", query); ("max_results", itoa 10)] [] NoBody).

(** The answer is a search result that lists [tweets]. *)
Definition found `{JSONDecode Twitter.TweetsResponse} (a : HTTPResult)
    (tweets : list Twitter.Tweet) : Prop :=
  exists resp, answered a resp /\ Twitter.Tweets resp = tweets.

Definition isUnseen (lastID : string) (tweet : Twitter.Tweet) : Prop :=
  Twitter.seenBefore lastID tweet = false.

#[export] Instance isUnseen_dec lastID tweet : Decision (isUnseen lastID tweet).
Proof. unfold isUnseen. apply _. Defined.

(** The tweets of a search result (which lists the newest first) that were
    not seen before, oldest first. *)
Definition unseen (lastID : string) (tweets : list Twitter.Tweet) : list Twitter.Tweet :=
  filter (isUnseen lastID) (rev tweets).

(** The id remembered for a query after a pass over [tweets]: the id of the
    newest tweet when that tweet was not seen before. *)
Definition watermark (lastID : string) (tweets : list Twitter.Tweet) : string :=
  match tweets with
  | newest :: _ => if Twitter.seenBefore lastID newest then lastID else Twitter.ID newest
  | [] => lastID
  end.

(** [ar'] is [ar] but for the id remembered for [query]. *)
Definition sameSetup (query : string) (ar ar' : Twitter.AutoReplier) : Prop :=
  Twitter.ReplierClient ar' = Twitter.ReplierClient ar
  /\ Twitter.SearchQueries ar' = Twitter.SearchQueries ar
  /\ Twitter.ReplyContent ar' = Twitter.ReplyContent ar
  /\ Twitter.CheckInterval ar' = Twitter.CheckInterval ar
  /\ forall q, q ≠ query -> Twitter.LastTweetIDs ar' !! q = Twitter.LastTweetIDs ar !! q.

(** What holds of the replies [xs] made for the tweets [todo]: one request
    at most per tweet, and, when the reply request can be built, exactly the
    replies to these tweets, in that order. *)
Definition repliesTo `{HTTPLib} (ar : Twitter.AutoReplier) (todo : list Twitter.Tweet)
    (xs : list Exchange) : Prop :=
  (length xs <= length todo)%nat
  /\ (NewRequest_err "POST" (Twitter.BaseURL (Twitter.ReplierClient ar) +:+ "/tweets") []
      = None ->
      request <$> xs
      = (fun tweet => replyRequest (Twitter.ReplierClient ar) (Twitter.ID tweet)
                                   (Twitter.ReplyContent ar)) <$> todo).

(** What holds of one pass of [AutoReplier] over [query], ended with [r]
    after the exchanges [xs]: the pass neither fails nor panics; it starts
    with the search; when the search was not answered by a result, nothing
    else happens; and when it was, the tweets not seen before are replied
    to, oldest first, and the id remembered moves to the newest tweet if
    that one was not seen before. *)
Definition passDone `{HTTPLib} `{JSONDecode Twitter.TweetsResponse}
    (ar : Twitter.AutoReplier) (query : string)
    (r : outcome Twitter.AutoReplier) (xs : list Exchange) : Prop :=
  exists ar',
    r = Ok ar' /\ sameSetup query ar ar'
    /\ match xs with
       | [] => ar' = ar
       | x :: replies =>
           request x = searchRequest (Twitter.ReplierClient ar) query
           /\ ((forall tweets, ~ found (reply x) tweets) -> replies = [] /\ ar' = ar)
           /\ (forall tweets, found (reply x) tweets ->
                 let lastID := Twitter.lastTweetID ar query in
                 repliesTo ar (unseen lastID tweets) replies
                 /\ Twitter.lastTweetID ar' query = watermark lastID tweets
                 /\ (unseen lastID tweets = [] -> ar' = ar))
       end.

(** ** Vocabulary for updates *)

(** A field of an update: sent only when a value was given for it. *)
Definition given (value : string) : option string :=
  if (value =? "")%string then None else Some value.

(** ** Vocabulary for linkedin.go *)

(** The request [GetUserProfile] makes.  [BaseURL] is the constant of that
    name in the package, the one [instagram.go] declares. *)
Definition profileRequest (c : LinkedIn.LinkedInClient) : Request :=
  Header_Add "Authorization" ("Bearer " +:+ LinkedIn.AccessToken c)
    (mkRequest "GET" (Instagram.BaseURL +:+ "/me")
               [("projection",
                 "(id,firstName,lastName,profilePicture,headline,email,industry)")]
               [] NoBody).

(** The fields of a profile that [GetUserProfile] never fills. *)
Definition unfilled (profile : LinkedIn.UserProfile) : Prop :=
  LinkedIn.ProfilePicture profile = "" /\ LinkedIn.Email profile = ""
  /\ LinkedIn.Industry profile = "" /\ LinkedIn.Country profile = ""
  /\ LinkedIn.CurrentPosition profile = "".

(** What holds of [GetUserProfile], ended with [r] after the exchanges
    [xs]: at most one request, the profile request; a profile is returned
    only for a 200 answer whose body decodes to an object with a string
    [id], which is the id of the profile and the user ID of the client
    afterwards; and a 200 answer whose body decodes to an object without a
    string [id] makes the function panic. *)
Definition profileDone `{JSONDecode (gmap string JSON)} (c : LinkedIn.LinkedInClient)
    (r : outcome (LinkedIn.UserProfile * LinkedIn.LinkedInClient))
    (xs : list Exchange) : Prop :=
  (length xs <= 1)%nat
  /\ Forall (fun x => request x = profileRequest c) xs
  /\ (forall profile c',
        r = Ok (profile, c') ->
        exists x rawProfile,
          xs = [x] /\ answered (reply x) rawProfile
          /\ as_string (rawProfile !! "id") = Some (LinkedIn.ID profile)
          /\ c' = LinkedIn.set_UserID (LinkedIn.ID profile) c
          /\ unfilled profile)
  /\ (forall x rawProfile,
        x ∈ xs -> answered (reply x) rawProfile ->
        as_string (rawProfile !! "id") = None ->
        exists p, r = Panic p).

(** The kind of author a post is made for: a person unless said otherwise. *)
Definition authorKind (authorType : string) : string :=
  if (authorType =? "")%string then "person" else authorType.

(** The request that creates a post from the document [doc]. *)
Definition postRequest (c : LinkedIn.LinkedInClient) (doc : JSON) : Request :=
  Header_Add "X-Restli-Protocol-Version" "2.0.0"
    (Header_Add "Content-Type" "application/json"
       (Header_Add "Authorization" ("Bearer " +:+ LinkedIn.AccessToken c)
          (mkRequest "POST" LinkedIn.UGCPostURL [] [] (JSONBody doc)))).

(** Where the id [authorID'] of the author of a post comes from, [before]
    being the exchanges made to find it: the id given; for a person and no
    id given, the user ID of the client; and when that is empty too, the
    [id] of the answer to a profile request. *)
Definition authorFrom `{JSONDecode (gmap string JSON)} (c : LinkedIn.LinkedInClient)
    (authorType authorID : string) (before : list Exchange) (authorID' : string) : Prop :=
  if (authorID =? "")%string && (authorKind authorType =? "person")%string then
    if (LinkedIn.UserID c =? "")%string then
      exists x rawProfile,
        before = [x] /\ request x = profileRequest c /\ answered (reply x) rawProfile
        /\ as_string (rawProfile !! "id") = Some authorID'
    else before = [] /\ authorID' = LinkedIn.UserID c
  else before = [] /\ authorID' = authorID.

(** What holds of the exchanges [xs] of a function that posts the media
    [mediaURN]: a POST is made only as the last request, once the author is
    known, and carries the post document for that author. *)
Definition posted `{JSONDecode (gmap string JSON)} (c : LinkedIn.LinkedInClient)
    (category description title text mediaURN authorType authorID : string)
    (xs : list Exchange) : Prop :=
  forall x, x ∈ xs -> Method (request x) = "POST" ->
    exists before authorID',
      xs = before ++ [x]
      /\ authorFrom c authorType authorID before authorID'
      /\ request x
         = postRequest c (LinkedIn.postData
                            ("urn:li:" +:+ authorKind authorType +:+ ":" +:+ authorID')
                            text category description mediaURN title).

(** The answer registers an upload: it is a 200 whose body decodes to an
    object with an object [value] that holds an object [uploadMechanism]. *)
Definition registered `{JSONDecode (gmap string JSON)} (a : HTTPResult)
    (value uploadMechanism : gmap string JSON) : Prop :=
  exists uploadResp,
    answered a uploadResp
    /\ as_map (uploadResp !! "value") = Some value
    /\ as_map (value !! "uploadMechanism") = Some uploadMechanism.

(** The request that registers an upload. *)
Definition isRegister (x : Exchange) : Prop :=
  Method (request x) = "POST" /\ URL (request x) = LinkedIn.AssetUploadURL.

(** The request by which [InitiateImageUpload] registers the upload. *)
Definition imageRegistration (c : LinkedIn.LinkedInClient) : Request :=
  Header_Add "Content-Type" "application/json"
    (Header_Add "Authorization" ("Bearer " +:+ LinkedIn.AccessToken c)
       (mkRequest "POST" LinkedIn.AssetUploadURL [] []
          (JSONBody (LinkedIn.assetData c "urn:li:digitalmediaRecipe:feedshare-image")))).

(** What the remote side answers to the next request that goes out. *)
Definition nextAnswer (w : World) : HTTPResult :=
  match script w with
  | [] => TransportError "connection refused"
  | r :: _ => r
  end.

(** What holds of [InitiateImageUpload]: at most one request, which
    registers the upload; success exactly on an answer that registers it
    with an asset and an upload URL under the HTTP mechanism; and a panic
    when the answer registers it without an entry for that mechanism. *)
Definition imageUploadInitiated `{JSONDecode (gmap string JSON)}
    (r : outcome (string * gmap string JSON)) (xs : list Exchange) : Prop :=
  (length xs <= 1)%nat
  /\ Forall isRegister xs
  /\ (forall asset uploadMechanism,
        r = Ok (asset, uploadMechanism)
        <-> exists x value uploadInfo uploadURL,
              xs = [x] /\ registered (reply x) value uploadMechanism
              /\ as_string (value !! "asset") = Some asset
              /\ as_map (uploadMechanism !! LinkedIn.mechanismKey) = Some uploadInfo
              /\ as_string (uploadInfo !! "uploadUrl") = Some uploadURL)
  /\ (forall x value uploadMechanism,
        x ∈ xs -> registered (reply x) value uploadMechanism ->
        as_map (uploadMechanism !! LinkedIn.mechanismKey) = None ->
        exists p, r = Panic p).

(** What holds of [InitiateVideoUpload]: no panic; at most one request,
    which registers the upload; success exactly on an answer that registers
    it with an asset. *)
Definition videoUploadInitiated `{JSONDecode (gmap string JSON)}
    (r : outcome (string * gmap string JSON)) (xs : list Exchange) : Prop :=
  (forall p, r ≠ Panic p)
  /\ (length xs <= 1)%nat
  /\ Forall isRegister xs
  /\ forall asset uploadMechanism,
       r = Ok (asset, uploadMechanism)
       <-> exists x value,
             xs = [x] /\ registered (reply x) value uploadMechanism
             /\ as_string (value !! "asset") = Some asset.

(** What holds of an upload ([UploadImage], [UploadVideo]): the requests
    are the registration and then at most one PUT; the PUT is made only
    after an answer that registers the upload, to the upload URL that answer
    gives under the HTTP mechanism, and without any header; and the asset
    returned is the one of that answer, once the PUT was answered 200, 201 or
    204. *)
Definition uploaded `{JSONDecode (gmap string JSON)} (r : outcome string)
    (xs : list Exchange) : Prop :=
  (forall x, x ∈ xs -> Method (request x) = "PUT" ->
     exists reg value uploadMechanism uploadInfo,
       xs = [reg; x] /\ isRegister reg
       /\ registered (reply reg) value uploadMechanism
       /\ as_map (uploadMechanism !! LinkedIn.mechanismKey) = Some uploadInfo
       /\ as_string (uploadInfo !! "uploadUrl") = Some (URL (request x))
       /\ Header (request x) = [])
  /\ (forall x, x ∈ xs -> Method (request x) ≠ "PUT" -> head xs = Some x /\ isRegister x)
  /\ (forall assetURN,
        r = Ok assetURN ->
        exists reg put value uploadMechanism code body,
          xs = [reg; put] /\ Method (request put) = "PUT"
          /\ registered (reply reg) value uploadMechanism
          /\ as_string (value !! "asset") = Some assetURN
          /\ reply put = Response code body /\ code ∈ [200; 201; 204]).

(** ** Vocabulary for the company pages *)





(** What holds of the exchanges [xs] of [PostCarousel], ended with [r]: a
    publish request went out only as the last request, right after the
    request that created the carousel was answered, and for the id that
    answer carried; and a value is returned only as the decoded answer to
    that publish request. *)
Definition carouselPublished `{JSONDecode Instagram.MediaResponse}
    (c : Instagram.InstagramClient) (r : outcome Instagram.MediaResponse)
    (xs : list Exchange) : Prop :=
  (forall x, x ∈ xs -> isPublish x = true ->
     exists before carousel carouselResp,
       xs = before ++ [carousel; x]
       /\ Forall (fun y => isPublish y = false /\ isCarousel y = false) before
       /\ isCarousel carousel = true
       /\ answered (reply carousel) carouselResp
       /\ request x = publishRequest c (Instagram.ID carouselResp))
  /\ (forall v, r = Ok v ->
        exists x, last xs = Some x /\ isPublish x = true /\ answered (reply x) v).

(** ** Every wrapper of instagram.go and of linkedin.go

    As [Call] does for [threads.go] and [twitter.go], [Operation] names a
    wrapper with its arguments and [perform] runs it; the value a wrapper
    returns next to its error is a [Result].  (A wrapper that assigns a
    field of its client also hands the client back; that is left out
    here.) *)

Module OnInstagram.

Inductive Operation :=
  | GetAccessToken (code : string)
  | GetLongLivedAccessToken
  | RefreshAccessToken
  | PostImage (imagePath caption : string)
  | PostReel (videoPath caption coverImagePath : string) (shareToFeed : bool)
  | PostCarousel (mediaPaths : list string) (caption : string)
  | GetMediaInsights (mediaID : string)
  | GetUserInsights (period : string).

Inductive Result :=
  | AToken (t : Instagram.TokenResponse)
  | AMedia (m : Instagram.MediaResponse)
  | MediaNumbers (i : Instagram.MediaInsights)
  | UserNumbers (u : Instagram.UserInsights).

Section Perform.
Context `{HTTPLib} `{Instagram.FormEncoding} `{JSONDecode (gmap string JSON)}
        `{JSONDecode Instagram.MediaResponse} `{JSONDecode Instagram.TokenResponse}
        `{JSONDecode (list Instagram.Metric)}.

Definition perform (c : Instagram.InstagramClient) (op : Operation) : M Result :=
  match op with
  | GetAccessToken code => lift (fun r => AToken r.1) (Instagram.GetAccessToken c code)
  | GetLongLivedAccessToken =>
      lift (fun r => AToken r.1) (Instagram.GetLongLivedAccessToken c)
  | RefreshAccessToken => lift (fun r => AToken r.1) (Instagram.RefreshAccessToken c)
  | PostImage imagePath caption => lift AMedia (Instagram.PostImage c imagePath caption)
  | PostReel videoPath caption coverImagePath shareToFeed =>
      lift AMedia (Instagram.PostReel c videoPath caption coverImagePath shareToFeed)
  | PostCarousel mediaPaths caption =>
      lift AMedia (Instagram.PostCarousel c mediaPaths caption)
  | GetMediaInsights mediaID => lift MediaNumbers (Instagram.GetMediaInsights c mediaID)
  | GetUserInsights period => lift UserNumbers (Instagram.GetUserInsights c period)
  end.

(** The typed result a body stands for, as the wrapper reads it: the value
    the decoder of its result type gives, and for the insights the readings
    of the metrics the body lists. *)
Definition decoded (op : Operation) (body : string) : string + Result :=
  match op with
  | GetAccessToken _ | GetLongLivedAccessToken | RefreshAccessToken =>
      match json_Decode (T := Instagram.TokenResponse) body with
      | inl e => inl e | inr t => inr (AToken t) end
  | PostImage _ _ | PostReel _ _ _ _ | PostCarousel _ _ =>
      match json_Decode (T := Instagram.MediaResponse) body with
      | inl e => inl e | inr m => inr (AMedia m) end
  | GetMediaInsights _ =>
      match json_Decode (T := list Instagram.Metric) body with
      | inl e => inl e | inr data => inr (MediaNumbers (mediaReadings data)) end
  | GetUserInsights _ =>
      match json_Decode (T := list Instagram.Metric) body with
      | inl e => inl e | inr data => inr (UserNumbers (userReadings data)) end
  end.

End Perform.

(** The wrappers that poll for the status of a container. *)
Definition polls (op : Operation) : bool :=
  match op with
  | PostReel _ _ _ _ | PostCarousel _ _ => true
  | _ => false
  end.

(** The status codes a wrapper goes on at, after the request [req]: 200,
    and any code at all after a status poll (the only GET of the wrappers
    that poll), whose status code is never looked at. *)
Definition accepted (polling : bool) (req : Request) (code : Z) : bool :=
  (code =? 200) || (polling && (Method req =? "GET")%string).

Definition accepts (op : Operation) : Request -> Z -> bool := accepted (polls op).

(** The exchange whose answer carries the result: the publish request of
    the wrappers that post, the one request of the others. *)
Definition final (op : Operation) (x : Exchange) : bool :=
  match op with
  | PostImage _ _ | PostReel _ _ _ _ | PostCarousel _ _ => isPublish x
  | _ => true
  end.

End OnInstagram.

Module OnLinkedIn.

Inductive Operation :=
  | GetAccessToken (code : string)
  | RefreshAccessToken (refreshToken : string)
  | GetUserProfile
  | GetCompanyPages
  | CreateTextPost (text authorType authorID : string)
  | InitiateImageUpload (imageType : string)
  | UploadImage (imagePath : string)
  | CreateImagePost (text imageAssetURN authorType authorID : string)
  | PostWithImage (text imagePath authorType authorID : string)
  | InitiateVideoUpload
  | UploadVideo (videoPath : string)
  | CreateVideoPost (text videoAssetURN authorType authorID : string).

(** [APost None] is the [nil] pointer that [CreateVideoPost] returns next
    to a [nil] error. *)
Inductive Result :=
  | AToken (t : Instagram.TokenResponse)
  | AProfile (p : LinkedIn.UserProfile)
  | SomePages (ps : list LinkedIn.CompanyPage)
  | APost (p : option LinkedIn.PostResponse)
  | AnUpload (asset : string) (uploadMechanism : gmap string JSON)
  | AnAsset (assetURN : string).

Section Perform.
Context `{HTTPLib} `{Instagram.FormEncoding} `{MapRange} `{JSONDecode (gmap string JSON)}
        `{JSONDecode Instagram.TokenResponse} `{JSONDecode (list LinkedIn.Organization)}.

Definition perform (c : LinkedIn.LinkedInClient) (op : Operation) : M Result :=
  match op with
  | GetAccessToken code => lift (fun r => AToken r.1) (LinkedIn.GetAccessToken c code)
  | RefreshAccessToken refreshToken =>
      lift (fun r => AToken r.1) (LinkedIn.RefreshAccessToken c refreshToken)
  | GetUserProfile => lift (fun r => AProfile r.1) (LinkedIn.GetUserProfile c)
  | GetCompanyPages => lift SomePages (LinkedIn.GetCompanyPages c)
  | CreateTextPost text authorType authorID =>
      lift (fun r => APost (Some r.1)) (LinkedIn.CreateTextPost c text authorType authorID)
  | InitiateImageUpload imageType =>
      lift (fun r => AnUpload r.1 r.2) (LinkedIn.InitiateImageUpload c imageType)
  | UploadImage imagePath => lift AnAsset (LinkedIn.UploadImage c imagePath)
  | CreateImagePost text imageAssetURN authorType authorID =>
      lift (fun r => APost (Some r.1))
           (LinkedIn.CreateImagePost c text imageAssetURN authorType authorID)
  | PostWithImage text imagePath authorType authorID =>
      lift (fun r => APost (Some r.1))
           (LinkedIn.PostWithImage c text imagePath authorType authorID)
  | InitiateVideoUpload => lift (fun r => AnUpload r.1 r.2) (LinkedIn.InitiateVideoUpload c)
  | UploadVideo videoPath => lift AnAsset (LinkedIn.UploadVideo c videoPath)
  | CreateVideoPost text videoAssetURN authorType authorID =>
      lift (fun r => APost r.1)
           (LinkedIn.CreateVideoPost c text videoAssetURN authorType authorID)
  end.

End Perform.

(** The look-up of one organisation by [GetCompanyPages]. *)
Definition isLookup (req : Request) : bool :=
  String.prefix (Instagram.BaseURL +:+ "/organizations/") (URL req).

(** The status codes a wrapper goes on at, after the request [req]: 200,
    201 or 204 after the PUT of an upload; 200 or 201 after the request that
    creates a post; 200 after any other request, but for the look-ups of
    [GetCompanyPages], whose status code is never looked at. *)
Definition accepted (req : Request) (code : Z) : bool :=
  if (Method req =? "PUT")%string then (code =? 200) || (code =? 201) || (code =? 204)
  else if (URL req =? LinkedIn.UGCPostURL)%string then (code =? 201) || (code =? 200)
  else code =? 200.

Definition accepts (op : Operation) (req : Request) (code : Z) : bool :=
  match op with
  | GetCompanyPages => isLookup req || accepted req code
  | _ => accepted req code
  end.

(** The exchange whose answer carries the result: the request that
    creates the post, for the wrappers that post; the PUT, for the uploads;
    the one request of the others. *)
Definition final (op : Operation) (x : Exchange) : bool :=
  match op with
  | CreateTextPost _ _ _ | CreateImagePost _ _ _ _ | PostWithImage _ _ _ _
  | CreateVideoPost _ _ _ _ =>
      (Method (request x) =? "POST")%string && (URL (request x) =? LinkedIn.UGCPostURL)%string
  | UploadImage _ | UploadVideo _ => (Method (request x) =? "PUT")%string
  | _ => true
  end.


Section Reads.
Context `{MapRange} `{JSONDecode (gmap string JSON)} `{JSONDecode Instagram.TokenResponse}.

(** [localized] gives the text [s] for the field [field] of [raw]. *)
Definition localizedAs (raw : gmap string JSON) (field s : string) : Prop :=
  forall w, LinkedIn.localized raw field "" w = (Ok s, w).

(** The body stands for the result [v], as the wrapper reads it: a token
    is the value the decoder gives; of a profile the id and the localized
    names and headline are read; of a post the id; of a registration the
    asset and the upload mechanism (which, for an image, must hold an
    upload URL under the HTTP mechanism). *)
Definition reads (op : Operation) (body : string) (v : Result) : Prop :=
  match op with
  | GetAccessToken _ | RefreshAccessToken _ =>
      exists tokenResp, json_Decode body = inr tokenResp /\ v = AToken tokenResp
  | GetUserProfile =>
      exists raw profileID firstName lastName headline,
        json_Decode body = inr raw
        /\ as_string (raw !! "id") = Some profileID
        /\ localizedAs raw "firstName" firstName
        /\ localizedAs raw "lastName" lastName
        /\ localizedAs raw "headline" headline
        /\ v = AProfile (LinkedIn.mkUserProfile profileID firstName lastName "" ""
                                                headline "" "" "")
  | CreateTextPost _ _ _ | CreateImagePost _ _ _ _ | PostWithImage _ _ _ _ =>
      exists postResp postID,
        json_Decode (T := gmap string JSON) body = inr postResp
        /\ as_string (postResp !! "id") = Some postID
        /\ v = APost (Some (LinkedIn.mkPostResponse postID ""))
  | InitiateImageUpload _ =>
      exists uploadResp value uploadMechanism uploadInfo uploadURL asset,
        json_Decode (T := gmap string JSON) body = inr uploadResp
        /\ as_map (uploadResp !! "value") = Some value
        /\ as_map (value !! "uploadMechanism") = Some uploadMechanism
        /\ as_map (uploadMechanism !! LinkedIn.mechanismKey) = Some uploadInfo
        /\ as_string (uploadInfo !! "uploadUrl") = Some uploadURL
        /\ as_string (value !! "asset") = Some asset
        /\ v = AnUpload asset uploadMechanism
  | InitiateVideoUpload =>
      exists uploadResp value uploadMechanism asset,
        json_Decode (T := gmap string JSON) body = inr uploadResp
        /\ as_map (uploadResp !! "value") = Some value
        /\ as_map (value !! "uploadMechanism") = Some uploadMechanism
        /\ as_string (value !! "asset") = Some asset
        /\ v = AnUpload asset uploadMechanism
  | UploadImage _ | UploadVideo _ | GetCompanyPages | CreateVideoPost _ _ _ _ => False
  end.

End Reads.

End OnLinkedIn.

(** ** What a wrapper returns on an answer it accepts *)

(** Once the exchange that carries the result ([final]) has been answered
    with a status code the wrapper accepts and a body that stands for [v]
    ([reads]), the wrapper returns [v], with no error. *)
Definition Returns {A} (final : Exchange -> bool) (accepts : Request -> Z -> bool)
    (reads : string -> A -> Prop) (r : outcome A) (xs : list Exchange) : Prop :=
  forall x code body v,
    x ∈ xs -> final x = true -> reply x = Response code body ->
    accepts (request x) code = true -> reads body v -> r = Ok v.




(** ** Answers a wrapper does not accept *)



(** ** More sample data *)

Module Cases.

Definition quote : string := Samples.quote.

(** ["k":] *)
Definition key (k : string) : string := quote +:+ k +:+ quote +:+ ":".

(** ["s"] *)
Definition text (s : string) : string := quote +:+ s +:+ quote.

Definition tokenText : string :=
  "{" +:+ key "access_token" +:+ text "LONGTOKEN" +:+ "," +:+ key "user_id"
  +:+ "17841400000," +:+ key "expires_in" +:+ "5184000}".

Definition sampleToken : Instagram.TokenResponse :=
  Instagram.mkTokenResponse "LONGTOKEN" 17841400000 5184000.

(** A token answer without the [access_token] field. *)
Definition emptyTokenText : string := "{" +:+ key "expires_in" +:+ "5184000}".

Definition metricText (name period values : string) : string :=
  "{" +:+ key "name" +:+ text name +:+ "," +:+ key "period" +:+ text period +:+ ","
  +:+ key "values" +:+ "[" +:+ values +:+ "]}".

Definition valueText (value : string) : string := "{" +:+ key "value" +:+ value +:+ "}".

Definition metricsText : string :=
  "{" +:+ key "data" +:+ "["
  +:+ metricText "reach" "day" (valueText "120") +:+ ","
  +:+ metricText "follower_count" "day" (valueText "210" +:+ "," +:+ valueText "200")
  +:+ "," +:+ metricText "likes" "day" "" +:+ ","
  +:+ metricText "reach" "day" (valueText "150") +:+ "]}".

Definition sampleMetrics : list Instagram.Metric :=
  [ Instagram.mkMetric "reach" "day" [120];
    Instagram.mkMetric "follower_count" "day" [210; 200];
    Instagram.mkMetric "likes" "day" [];
    Instagram.mkMetric "reach" "day" [150] ].

Definition orgsText : string :=
  "{" +:+ key "elements" +:+ "[{" +:+ key "organizationTarget"
  +:+ text "urn:li:organization:1" +:+ "," +:+ key "role" +:+ text "ADMINISTRATOR"
  +:+ "},{" +:+ key "organizationTarget" +:+ text "urn:li:organization:2" +:+ ","
  +:+ key "role" +:+ text "ADMINISTRATOR" +:+ "}]}".

Definition sampleOrgs : list LinkedIn.Organization :=
  [ LinkedIn.mkOrganization "urn:li:organization:1" "ADMINISTRATOR";
    LinkedIn.mkOrganization "urn:li:organization:2" "ADMINISTRATOR" ].

Definition pageText : string := Samples.objectText [("name", "Acme")].

Definition profileText : string := Samples.objectText [("id", "u99")].

Definition uploadURL : string := "https://upload.example.com/put/1".

Definition registerText : string :=
  "{" +:+ key "value" +:+ "{" +:+ key "asset" +:+ text "urn:li:digitalmediaAsset:1"
  +:+ "," +:+ key "uploadMechanism" +:+ "{" +:+ key LinkedIn.mechanismKey +:+ "{"
  +:+ key "uploadUrl" +:+ text uploadURL +:+ "}}}}".

Definition registerDoc : gmap string JSON :=
  {[ "value" :=
       JObject {[ "asset" := JString "urn:li:digitalmediaAsset:1";
                  "uploadMechanism" :=
                    JObject {[ LinkedIn.mechanismKey :=
                                 JObject {[ "uploadUrl" := JString uploadURL ]} ]} ]} ]}.

(** A registration answer without an entry for the HTTP mechanism. *)
Definition bareRegisterText : string :=
  "{" +:+ key "value" +:+ "{" +:+ key "asset" +:+ text "urn:li:digitalmediaAsset:1"
  +:+ "," +:+ key "uploadMechanism" +:+ "{}}}".

Definition bareRegisterDoc : gmap string JSON :=
  {[ "value" :=
       JObject {[ "asset" := JString "urn:li:digitalmediaAsset:1";
                  "uploadMechanism" := JObject ∅ ]} ]}.

Definition postText : string := Samples.objectText [("id", "urn:li:share:1")].

Definition mapTable : list (string * gmap string JSON) :=
  [ (registerText, registerDoc);
    (bareRegisterText, bareRegisterDoc);
    (profileText, {[ "id" := JString "u99" ]});
    (pageText, {[ "name" := JString "Acme" ]});
    (postText, {[ "id" := JString "urn:li:share:1" ]});
    (Samples.statusText "FINISHED", {[ "status_code" := JString "FINISHED" ]});
    (Samples.statusText "IN_PROGRESS", {[ "status_code" := JString "IN_PROGRESS" ]}) ].

Definition tweet (id text : string) : Twitter.Tweet := Twitter.mkTweet id text 0 "" "" "".

Definition tweetJSON (id content : string) : string :=
  "{" +:+ key "id" +:+ text id +:+ "," +:+ key "text" +:+ text content +:+ "}".

Definition searchText : string :=
  "{" +:+ key "data" +:+ "[" +:+ tweetJSON "1003" "newest" +:+ ","
  +:+ tweetJSON "1002" "middle" +:+ "," +:+ tweetJSON "1001" "oldest" +:+ "],"
  +:+ key "meta" +:+ "{" +:+ key "result_count" +:+ "3}}".

Definition sampleSearch : Twitter.TweetsResponse :=
  Twitter.mkTweetsResponse [tweet "1003" "newest"; tweet "1002" "middle";
                            tweet "1001" "oldest"] 3 "".

#[export] Instance lib : HTTPLib := Samples.lib.
#[export] Instance range : MapRange := Samples.range.
#[export] Instance decodeMap : JSONDecode (gmap string JSON) := Samples.lookupText mapTable.
#[export] Instance decodeMedia : JSONDecode Instagram.MediaResponse := Samples.decodeMedia.
#[export] Instance decodeToken : JSONDecode Instagram.TokenResponse :=
  Samples.lookupText [(tokenText, sampleToken);
                      (emptyTokenText, Instagram.mkTokenResponse "" 0 5184000)].
#[export] Instance decodeMetrics : JSONDecode (list Instagram.Metric) :=
  Samples.lookupText [(metricsText, sampleMetrics)].
#[export] Instance decodeOrgs : JSONDecode (list LinkedIn.Organization) :=
  Samples.lookupText [(orgsText, sampleOrgs)].
#[export] Instance decodeThread : JSONDecode Threads.Thread := Samples.decodeThread.
#[export] Instance decodeThreads : JSONDecode (list Threads.Thread) := Samples.decodeThreads.
#[export] Instance decodeReply : JSONDecode Threads.Reply := Samples.decodeReply.
#[export] Instance decodeReplies : JSONDecode (list Threads.Reply) := Samples.decodeReplies.
#[export] Instance decodeTweet : JSONDecode Twitter.TweetResponse := Samples.decodeTweet.
#[export] Instance decodeTweets : JSONDecode Twitter.TweetsResponse :=
  Samples.lookupText [(searchText, sampleSearch)].

(** A form encoding that keeps the pairs apart (the escaping of the values
    is left out). *)
Fixpoint formText (params : list (string * string)) : string :=
  match params with
  | [] => ""
  | [(k, v)] => k +:+ "=" +:+ v
  | (k, v) :: rest => k +:+ "=" +:+ v +:+ "&" +:+ formText rest
  end.

#[export] Instance encode : Instagram.FormEncoding := formText.

Definition world (answers : list HTTPResult) : World := Samples.world answers.

Definition ig : Instagram.InstagramClient := Samples.ig.

(** A client that has not been authorised yet. *)
Definition newcomer : Instagram.InstagramClient :=
  Instagram.mkInstagramClient "app" "secret" "https://example.com/cb" "" "".

Definition tw : Twitter.TwitterClient := Samples.tw.
Definition ts : Threads.ThreadService := Samples.ts.
Definition li : LinkedIn.LinkedInClient := Samples.li.

(** A LinkedIn client whose user ID is not known yet. *)
Definition stranger : LinkedIn.LinkedInClient :=
  LinkedIn.mkLinkedInClient "cid" "csecret" "https://example.com/cb" "LITOKEN" "".

Definition replier : Twitter.AutoReplier :=
  Twitter.NewAutoReplier tw ["golang"] "Thanks for sharing!" 300.

(** The replier after a pass that saw tweet 1003 as the newest one. *)
Definition caughtUp : Twitter.AutoReplier :=
  Twitter.set_LastTweetID "golang" "1003" replier.

End Cases.

(** [Q] holds of the run of [m] in the world [w]. *)
Definition holdsAt {A} (m : M A) (w : World) (Q : outcome A -> list Exchange -> Prop)
    : Prop :=
  exists xs, log (m w).2 = log w ++ xs /\ Q (m w).1 xs.
(** ** Strings *)

Section StringFacts.

Lemma append_cons (c : ascii) (s t : string) : String c s +:+ t = String c (s +:+ t).
Proof. reflexivity. Qed.

Lemma append_empty_l (t : string) : "" +:+ t = t.
Proof. reflexivity. Qed.

Lemma append_empty_r (s : string) : s +:+ "" = s.
Proof. induction s as [|c s IH]; [reflexivity|]. now rewrite append_cons, IH. Qed.

Lemma prefix_app (s t : string) : String.prefix s (s +:+ t) = true.
Proof.
  induction s as [|c s IH].
  - rewrite append_empty_l. now destruct t.
  - rewrite append_cons. simpl. destruct (ascii_dec c c); [exact IH | congruence].
Qed.

Lemma prefix_app_r (sub s b : string) :
  String.prefix sub s = true -> String.prefix sub (s +:+ b) = true.
Proof.
  revert s. induction sub as [|e sub IH]; intros s Hp.
  - now destruct (s +:+ b).
  - destruct s as [|f s]; [discriminate|]. rewrite append_cons. simpl in *.
    destruct (ascii_dec e f); [auto | discriminate].
Qed.

Lemma Contains_prefix (s sub : string) :
  String.prefix sub s = true -> Contains s sub = true.
Proof. intros Hp. destruct s; cbn [Contains]; rewrite Hp; reflexivity. Qed.

Lemma Contains_here (s t : string) : Contains (s +:+ t) s = true.
Proof. apply Contains_prefix, prefix_app. Qed.

Lemma Contains_later (a s sub : string) :
  Contains s sub = true -> Contains (a +:+ s) sub = true.
Proof.
  intros Hs. induction a as [|c a IH]; [exact Hs|].
  rewrite append_cons. simpl. rewrite IH. apply orb_true_r.
Qed.

Lemma Contains_middle (a sub b : string) : Contains (a +:+ sub +:+ b) sub = true.
Proof. apply Contains_later, Contains_here. Qed.

Lemma Contains_end (a sub : string) : Contains (a +:+ sub) sub = true.
Proof.
  apply Contains_later. rewrite <- (append_empty_r sub) at 1. apply Contains_here.
Qed.

Lemma Contains_earlier (s b sub : string) :
  Contains s sub = true -> Contains (s +:+ b) sub = true.
Proof.
  induction s as [|c s IH]; intros Hs.
  - simpl in Hs. rewrite orb_false_r in Hs. now apply Contains_prefix, prefix_app_r.
  - simpl in Hs. apply orb_true_iff in Hs as [Hp | Hs].
    + now apply Contains_prefix, prefix_app_r.
    + rewrite append_cons. simpl. rewrite (IH Hs). apply orb_true_r.
Qed.

End StringFacts.

(** ** The monad: equations for running a computation *)

Section MonadFacts.
Context {A B : Type}.

Lemma bind_Ok (m : M A) (f : A -> M B) w a w' :
  m w = (Ok a, w') -> (m ≫= f) w = f a w'.
Proof. unfold mbind, M_bind. now intros ->. Qed.

Lemma bind_Err (m : M A) (f : A -> M B) w e w' :
  m w = (Err e, w') -> (m ≫= f) w = (Err e, w').
Proof. unfold mbind, M_bind. now intros ->. Qed.

Lemma bind_Panic (m : M A) (f : A -> M B) w p w' :
  m w = (Panic p, w') -> (m ≫= f) w = (Panic p, w').
Proof. unfold mbind, M_bind. now intros ->. Qed.

End MonadFacts.

(** Unfold the monad and the primitive steps in the goal. *)
Ltac run :=
  repeat (unfold mbind, M_bind, mret, M_ret, raise, wrapErr, DoOrErr, Do, Decode,
            NewRequest, Sleep; simpl).

(** ** waitForMediaProcessing *)

Section Polling.
Context `{HTTPLib} `{JSONDecode Instagram.MediaResponse} `{JSONDecode (gmap string JSON)}.

Lemma pollExchanges_length url t answers :
  length (pollExchanges url t answers) = length answers.
Proof. revert t. induction answers as [|r rs IH]; intros t; simpl; [|rewrite IH]; reflexivity. Qed.

Lemma pollExchanges_lookup url t answers (k : nat) r :
  answers !! k = Some r ->
  pollExchanges url t answers !! k
  = Some (mkExchange (t + 2 * (Z.of_nat k + 1)) (pollRequest url) r).
Proof.
  revert t k. induction answers as [|a rs IH]; intros t k Hk; [discriminate|].
  destruct k as [|k]; simpl in *.
  - inversion Hk; subst. do 2 f_equal; lia.
  - rewrite (IH _ _ Hk). do 2 f_equal; lia.
Qed.

Lemma pollExchanges_snoc url t answers r :
  pollExchanges url t (answers ++ [r])
  = pollExchanges url t answers
    ++ [mkExchange (t + 2 * Z.of_nat (length answers) + 2) (pollRequest url) r].
Proof.
  revert t. induction answers as [|a rs IH]; intros t.
  - simpl. do 2 f_equal. lia.
  - cbn [pollExchanges app length]. rewrite IH, Nat2Z.inj_succ. do 4 f_equal. lia.
Qed.

Lemma afterPolls_nil url rest w :
  script w = rest -> afterPolls url [] rest w = w.
Proof.
  intros <-. destruct w as [sc lg cl so f]. unfold afterPolls. simpl.
  rewrite app_nil_r. f_equal. lia.
Qed.

Lemma afterPolls_cons url r answers rest w :
  afterPolls url (r :: answers) rest w
  = afterPolls url answers rest
      (mkWorld (answers ++ rest) (log w ++ [mkExchange (clock w + 2) (pollRequest url) r])
               (clock w + 2) (stdout w) (fs w)).
Proof.
  unfold afterPolls. simpl. rewrite <- app_assoc. simpl. f_equal. lia.
Qed.

(** One round of the loop on an answer that is not terminal. *)
Lemma poll_Pending url n r rest w :
  NewRequest_err "GET" url [] = None ->
  script w = r :: rest ->
  verdict r = Pending ->
  Instagram.poll url (S n) w
  = Instagram.poll url n
      (mkWorld rest (log w ++ [mkExchange (clock w + 2) (pollRequest url) r])
               (clock w + 2) (stdout w) (fs w)).
Proof.
  intros Hreq Hs Hv. cbn [Instagram.poll]. run. rewrite Hreq. run. rewrite Hs. simpl.
  unfold verdict in Hv. destruct r as [e|code body]; [discriminate|]. run.
  destruct (json_Decode body) as [e|statusData]; [discriminate|]. run.
  destruct (as_string (statusData !! "status_code")) as [status|]; [|discriminate].
  destruct (status =? "FINISHED")%string; [discriminate|].
  destruct (status =? "ERROR")%string; [discriminate|]. reflexivity.
Qed.

(** One round of the loop on an answer that ends it. *)
Lemma poll_last url n r rest w :
  NewRequest_err "GET" url [] = None ->
  script w = r :: rest ->
  verdict r ≠ Pending ->
  Instagram.poll url (S n) w
  = (match r with
     | TransportError e => Err e
     | Response _ body =>
         match json_Decode (T := gmap string JSON) body with
         | inl e => Err e
         | inr statusData =>
             match as_string (statusData !! "status_code") with
             | None => Err "invalid status response"
             | Some status =>
                 if (status =? "FINISHED")%string then Ok tt
                 else Err ("media processing failed: " +:+ body)
             end
         end
     end,
     mkWorld rest (log w ++ [mkExchange (clock w + 2) (pollRequest url) r])
             (clock w + 2) (stdout w) (fs w)).
Proof.
  intros Hreq Hs Hv. cbn [Instagram.poll]. run. rewrite Hreq. run. rewrite Hs. simpl.
  unfold verdict in Hv. destruct r as [e|code body]; [reflexivity|]. run.
  destruct (json_Decode body) as [e|statusData]; [reflexivity|]. run.
  destruct (as_string (statusData !! "status_code")) as [status|]; [|reflexivity].
  destruct (status =? "FINISHED")%string; [reflexivity|].
  destruct (status =? "ERROR")%string; [reflexivity|]. congruence.
Qed.

(** Rounds on pending answers only use up the attempts. *)
Lemma poll_Pending_run url answers : forall n rest w,
  NewRequest_err "GET" url [] = None ->
  script w = answers ++ rest ->
  Forall (fun r => verdict r = Pending) answers ->
  Instagram.poll url (length answers + n) w
  = Instagram.poll url n (afterPolls url answers rest w).
Proof.
  induction answers as [|r answers IH]; intros n rest w Hreq Hs Hall.
  - simpl in *. now rewrite afterPolls_nil.
  - inversion Hall as [|? ? Hr Hrest]; subst. simpl length. simpl Nat.add.
    rewrite (poll_Pending url _ r (answers ++ rest) w Hreq Hs Hr).
    rewrite IH with (rest := rest); auto. now rewrite afterPolls_cons.
Qed.

(** C1 (amended): when the status request can be built and each of the
    first 30 answers is a response whose body decodes to an object with a
    string [status_code] other than "FINISHED" and "ERROR", the helper makes
    exactly 30 polls, the k-th one 2*k seconds after the call (60 seconds
    of sleep in all), and returns the time-out error. *)
Theorem waitForMediaProcessing_times_out c statusURL w answers rest :
  NewRequest_err "GET" statusURL [] = None ->
  script w = answers ++ rest ->
  length answers = 30%nat ->
  Forall (fun r => verdict r = Pending) answers ->
  let w' := afterPolls statusURL answers rest w in
  Instagram.waitForMediaProcessing c statusURL w = (Err "media processing timed out", w')
  /\ length (log w') = (length (log w) + 30)%nat
  /\ (forall (k : nat) r, answers !! k = Some r ->
        log w' !! (length (log w) + k)%nat
        = Some (mkExchange (clock w + 2 * (Z.of_nat k + 1)) (pollRequest statusURL) r))
  /\ clock w' = clock w + 60
  /\ script w' = rest.
Proof.
  intros Hreq Hs Hlen Hall w'. repeat split.
  - unfold Instagram.waitForMediaProcessing, Instagram.maxAttempts.
    replace 30%nat with (length answers + 0)%nat by lia.
    now rewrite (poll_Pending_run statusURL answers 0 rest w Hreq Hs Hall).
  - unfold w', afterPolls. simpl. rewrite length_app, pollExchanges_length. lia.
  - intros k r Hk. unfold w', afterPolls. simpl.
    rewrite lookup_app_r by lia.
    replace (length (log w) + k - length (log w))%nat with k by lia.
    now apply pollExchanges_lookup.
  - unfold w', afterPolls. simpl. lia.
Qed.

(** C2: the first answer that carries "FINISHED" or "ERROR" ends the
    helper, provided it comes within the 30 attempts and every answer
    before it was a pending one: on "FINISHED" the result is [nil], on
    "ERROR" an error whose text contains the body; the polls made are the
    ones up to that answer and the answers after it stay unread. *)
Theorem waitForMediaProcessing_stops_early c statusURL w before r rest :
  NewRequest_err "GET" statusURL [] = None ->
  script w = before ++ r :: rest ->
  (length before < 30)%nat ->
  Forall (fun r => verdict r = Pending) before ->
  let w' := afterPolls statusURL (before ++ [r]) rest w in
  (verdict r = Finished ->
     Instagram.waitForMediaProcessing c statusURL w = (Ok tt, w'))
  /\ (verdict r = Failed ->
       exists code body e,
         r = Response code body
         /\ Instagram.waitForMediaProcessing c statusURL w = (Err e, w')
         /\ e = "media processing failed: " +:+ body
         /\ Contains e body = true)
  /\ length (log w') = (length (log w) + length before + 1)%nat
  /\ script w' = rest.
Proof.
  intros Hreq Hs Hlen Hall w'.
  assert (Hrun : forall n,
    Instagram.poll statusURL (length before + S n) w
    = Instagram.poll statusURL (S n)
        (afterPolls statusURL before (r :: rest) w)).
  { intros n. now apply poll_Pending_run. }
  assert (Hw' : w' = mkWorld rest
                 (log (afterPolls statusURL before (r :: rest) w)
                  ++ [mkExchange (clock (afterPolls statusURL before (r :: rest) w) + 2)
                                 (pollRequest statusURL) r])
                 (clock (afterPolls statusURL before (r :: rest) w) + 2)
                 (stdout (afterPolls statusURL before (r :: rest) w))
                 (fs (afterPolls statusURL before (r :: rest) w))).
  { unfold w', afterPolls. simpl. rewrite pollExchanges_snoc, app_assoc, length_app.
    simpl. f_equal. lia. }
  unfold Instagram.waitForMediaProcessing, Instagram.maxAttempts.
  replace 30%nat with (length before + S (29 - length before))%nat by lia.
  rewrite Hrun. repeat split.
  - intros Hv.
    rewrite (poll_last statusURL _ r rest) by (auto; congruence).
    rewrite <- Hw'. f_equal.
    unfold verdict in Hv. destruct r as [e|code body]; [discriminate|].
    destruct (json_Decode body) as [e|statusData]; [discriminate|].
    destruct (as_string (statusData !! "status_code")) as [status|]; [|discriminate].
    destruct (status =? "FINISHED")%string; [reflexivity|].
    destruct (status =? "ERROR")%string; discriminate.
  - intros Hv.
    rewrite (poll_last statusURL _ r rest) by (auto; congruence).
    rewrite <- Hw'.
    unfold verdict in Hv. destruct r as [e|code body]; [discriminate|].
    exists code, body, ("media processing failed: " +:+ body).
    repeat split; [|apply Contains_end].
    destruct (json_Decode body) as [e|statusData]; [discriminate|].
    destruct (as_string (statusData !! "status_code")) as [status|]; [|discriminate].
    destruct (status =? "FINISHED")%string; [discriminate|]. reflexivity.
  - unfold w', afterPolls. simpl.
    rewrite length_app, pollExchanges_length, length_app. simpl. lia.
Qed.

End Polling.

(** ** Rules of the exchange logic *)

Section SpecRules.
Context `{HTTPLib}.
Context {A B : Type}.

Lemma Spec_weaken (m : M A) (Q Q' : outcome A -> list Exchange -> Prop) :
  Spec m Q -> (forall r xs, Q r xs -> Q' r xs) -> Spec m Q'.
Proof.
  intros Hm HQ w r w' Hrun. destruct (Hm w r w' Hrun) as (xs & Hlog & Hq). eauto.
Qed.

Lemma Spec_ret (a : A) (Q : outcome A -> list Exchange -> Prop) :
  Q (Ok a) [] -> Spec (mret a) Q.
Proof.
  intros HQ w r w' Hrun. inversion Hrun; subst. exists []. now rewrite app_nil_r.
Qed.

Lemma Spec_raise (e : string) (Q : outcome A -> list Exchange -> Prop) :
  Q (Err e) [] -> Spec (raise e) Q.
Proof.
  intros HQ w r w' Hrun. inversion Hrun; subst. exists []. now rewrite app_nil_r.
Qed.

Lemma Spec_panic (p : string) (Q : outcome A -> list Exchange -> Prop) :
  Q (Panic p) [] -> Spec (panic p) Q.
Proof.
  intros HQ w r w' Hrun. inversion Hrun; subst. exists []. now rewrite app_nil_r.
Qed.

(** A call whose result the rest of the function goes on with. *)
Lemma Spec_bind (m : M A) (f : A -> M B)
    (Q1 : outcome A -> list Exchange -> Prop)
    (Q : outcome B -> list Exchange -> Prop) :
  Spec m Q1 ->
  (forall o xs, is_Ok o = false -> Q1 o xs -> Q (stopped o) xs) ->
  (forall a xs1, Q1 (Ok a) xs1 -> Spec (f a) (fun r xs2 => Q r (xs1 ++ xs2))) ->
  Spec (m ≫= f) Q.
Proof.
  intros Hm Hstop Hf w r w' Hrun. unfold mbind, M_bind in Hrun.
  destruct (m w) as [o w1] eqn:Hmw.
  destruct (Hm w o w1 Hmw) as (xs1 & Hlog1 & Hq1).
  destruct o as [a|e|p].
  - destruct (Hf a xs1 Hq1 w1 r w' Hrun) as (xs2 & Hlog2 & Hq2).
    exists (xs1 ++ xs2). split; [|exact Hq2]. now rewrite Hlog2, Hlog1, app_assoc.
  - inversion Hrun; subst. exists xs1. split; [exact Hlog1|]. now apply (Hstop (Err e)).
  - inversion Hrun; subst. exists xs1. split; [exact Hlog1|]. now apply (Hstop (Panic p)).
Qed.

Lemma Spec_silent_bind (m : M A) (f : A -> M B)
    (Q : outcome B -> list Exchange -> Prop) :
  silent m ->
  (forall o, is_Ok o = false -> Q (stopped (A := A) o) []) ->
  (forall a, Spec (f a) Q) ->
  Spec (m ≫= f) Q.
Proof.
  intros Hm Hstop Hf w r w' Hrun. unfold mbind, M_bind in Hrun.
  destruct (m w) as [o w1] eqn:Hmw. pose proof (Hm w o w1 Hmw) as Hlog1.
  destruct o as [a|e|p].
  - destruct (Hf a w1 r w' Hrun) as (xs & Hlog & Hq). exists xs. now rewrite Hlog, Hlog1.
  - inversion Hrun; subst. exists []. rewrite app_nil_r. split; [exact Hlog1|].
    now apply (Hstop (Err e)).
  - inversion Hrun; subst. exists []. rewrite app_nil_r. split; [exact Hlog1|].
    now apply (Hstop (Panic p)).
Qed.

End SpecRules.

Section SpecPrimitives.
Context `{HTTPLib}.
Context {B : Type}.

(** [NewRequest] either fails or hands over the request it was asked for. *)
Lemma Spec_NewRequest_bind wrap method url query body (f : Request -> M B)
    (Q : outcome B -> list Exchange -> Prop) :
  (forall e, NewRequest_err method url query = Some e -> Q (Err (wrap e)) []) ->
  (NewRequest_err method url query = None ->
   Spec (f (mkRequest method url query [] body)) Q) ->
  Spec (wrapErr wrap (NewRequest method url query body) ≫= f) Q.
Proof.
  intros Herr Hf w r w' Hrun. unfold mbind, M_bind, wrapErr, NewRequest in Hrun.
  destruct (NewRequest_err method url query) as [e|] eqn:Hreq.
  - inversion Hrun; subst. exists []. rewrite app_nil_r. auto.
  - exact (Hf eq_refl w r w' Hrun).
Qed.

Lemma Spec_NewRequest_bind_id method url query body (f : Request -> M B)
    (Q : outcome B -> list Exchange -> Prop) :
  (forall e, NewRequest_err method url query = Some e -> Q (Err e) []) ->
  (NewRequest_err method url query = None ->
   Spec (f (mkRequest method url query [] body)) Q) ->
  Spec (NewRequest method url query body ≫= f) Q.
Proof.
  intros Herr Hf w r w' Hrun. unfold mbind, M_bind, NewRequest in Hrun.
  destruct (NewRequest_err method url query) as [e|] eqn:Hreq.
  - inversion Hrun; subst. exists []. rewrite app_nil_r. auto.
  - exact (Hf eq_refl w r w' Hrun).
Qed.

(** [Do], with the transport error handed back through [wrap]: one
    exchange, then either the error or the rest of the function. *)
Lemma Spec_DoOrErr_bind wrap req (f : Z * string -> M B)
    (Q : outcome B -> list Exchange -> Prop) :
  (forall t e, Q (Err (wrap e)) [mkExchange t req (TransportError e)]) ->
  (forall t code body,
     Spec (f (code, body))
          (fun r xs => Q r (mkExchange t req (Response code body) :: xs))) ->
  Spec (DoOrErr wrap req ≫= f) Q.
Proof.
  intros Herr Hf w r w' Hrun. unfold mbind at 1, M_bind at 1 in Hrun.
  unfold DoOrErr, mbind, M_bind, Do in Hrun. simpl in Hrun.
  set (x := match script w with [] => TransportError "connection refused" | x :: _ => x end)
    in Hrun.
  destruct x as [e|code body].
  - inversion Hrun; subst. simpl. eexists; split; [reflexivity|]. apply Herr.
  - simpl in Hrun. destruct (Hf (clock w) code body _ r w' Hrun) as (xs & Hlog & Hq).
    simpl in Hlog. exists (mkExchange (clock w) req (Response code body) :: xs).
    split; [|exact Hq]. now rewrite Hlog, <- app_assoc.
Qed.

Lemma Spec_Decode_bind {T} `{JSONDecode T} wrap body (f : T -> M B)
    (Q : outcome B -> list Exchange -> Prop) :
  (forall e, json_Decode (T := T) body = inl e -> Q (Err (wrap e)) []) ->
  (forall v, json_Decode body = inr v -> Spec (f v) Q) ->
  Spec (wrapErr wrap (Decode (T := T) body) ≫= f) Q.
Proof.
  intros Herr Hf w r w' Hrun. unfold mbind, M_bind, wrapErr, Decode in Hrun.
  destruct (json_Decode body) as [e|v] eqn:Hd.
  - inversion Hrun; subst. exists []. rewrite app_nil_r. auto.
  - exact (Hf v eq_refl w r w' Hrun).
Qed.

Lemma Spec_Decode_bind_id {T} `{JSONDecode T} body (f : T -> M B)
    (Q : outcome B -> list Exchange -> Prop) :
  (forall e, json_Decode (T := T) body = inl e -> Q (Err e) []) ->
  (forall v, json_Decode body = inr v -> Spec (f v) Q) ->
  Spec (Decode (T := T) body ≫= f) Q.
Proof.
  intros Herr Hf w r w' Hrun. unfold mbind, M_bind, Decode in Hrun.
  destruct (json_Decode body) as [e|v] eqn:Hd.
  - inversion Hrun; subst. exists []. rewrite app_nil_r. auto.
  - exact (Hf v eq_refl w r w' Hrun).
Qed.

Lemma Spec_Decode {T} `{JSONDecode T} wrap body
    (Q : outcome T -> list Exchange -> Prop) :
  (forall e, json_Decode (T := T) body = inl e -> Q (Err (wrap e)) []) ->
  (forall v, json_Decode body = inr v -> Q (Ok v) []) ->
  Spec (wrapErr wrap (Decode (T := T) body)) Q.
Proof.
  intros Herr Hok w r w' Hrun. unfold wrapErr, Decode in Hrun.
  destruct (json_Decode body) as [e|v] eqn:Hd;
    inversion Hrun; subst; exists []; rewrite app_nil_r; auto.
Qed.

Lemma Spec_Decode_id {T} `{JSONDecode T} body
    (Q : outcome T -> list Exchange -> Prop) :
  (forall e, json_Decode (T := T) body = inl e -> Q (Err e) []) ->
  (forall v, json_Decode body = inr v -> Q (Ok v) []) ->
  Spec (Decode (T := T) body) Q.
Proof.
  intros Herr Hok w r w' Hrun. unfold Decode in Hrun.
  destruct (json_Decode body) as [e|v] eqn:Hd;
    inversion Hrun; subst; exists []; rewrite app_nil_r; auto.
Qed.

Lemma silent_Sleep d : silent (Sleep d).
Proof. intros w r w' Hrun. now inversion Hrun. Qed.

Lemma silent_Print line : silent (Print line).
Proof. intros w r w' Hrun. now inversion Hrun. Qed.

Lemma silent_ReadFile path : silent (ReadFile path).
Proof.
  intros w r w' Hrun. unfold ReadFile in Hrun.
  destruct (fs w !! path); now inversion Hrun.
Qed.

Lemma silent_must_map v : silent (must_map v).
Proof.
  intros w r w' Hrun. unfold must_map in Hrun.
  destruct (as_map v); now inversion Hrun.
Qed.

Lemma silent_must_string v : silent (must_string v).
Proof.
  intros w r w' Hrun. unfold must_string in Hrun.
  destruct (as_string v); now inversion Hrun.
Qed.

Lemma silent_index {T} (s : list T) i : silent (index s i).
Proof.
  intros w r w' Hrun. unfold index in Hrun.
  destruct (i <? 0); [now inversion Hrun|].
  destruct (Z.of_nat (length s) <=? i); [now inversion Hrun|].
  destruct (s !! Z.to_nat i); now inversion Hrun.
Qed.

End SpecPrimitives.

(** ** Argument validation in threads.go *)

Section Validation.
Context `{HTTPLib} `{JSONDecode Threads.Thread} `{JSONDecode (list Threads.Thread)}
        `{JSONDecode Threads.Reply} `{JSONDecode (list Threads.Reply)}
        `{JSONDecode Twitter.TweetResponse} `{JSONDecode Twitter.TweetsResponse}.

Lemma eqb_empty_false (s : string) : s ≠ "" -> (s =? "")%string = false.
Proof. intros Hs. now apply String.eqb_neq. Qed.

(** C9: a [ThreadService] operation called with the empty string for an
    argument it requires returns an error saying which one cannot be empty,
    and leaves the world as it was: nothing is sent, nothing changes. *)
Theorem empty_argument_rejected (call : Call) (w : World) :
  "" ∈ required call ->
  exists e, invoke call w = (Err e, w) /\ Contains e "cannot be empty" = true.
Proof.
  intros Hin.
  destruct call; cbn [required] in Hin;
    repeat match goal with
           | Hin : _ ∈ [] |- _ => now apply not_elem_of_nil in Hin
           | Hin : _ ∈ _ :: _ |- _ => apply elem_of_cons in Hin as [<- | Hin]
           end;
    unfold invoke, lift, Threads.CreateThread, Threads.GetThread, Threads.UpdateThread,
      Threads.DeleteThread, Threads.CreateReply, Threads.GetReplies, Threads.UpdateReply,
      Threads.DeleteReply, Threads.SearchThreads;
    cbn [String.eqb];
    try (eexists; split; [reflexivity | reflexivity]).
  - destruct (title =? "")%string; eexists; split; reflexivity.
  - destruct (threadID =? "")%string; eexists; split; reflexivity.
  - destruct (replyID =? "")%string; eexists; split; reflexivity.
Qed.

End Validation.

(** ** The wrappers that make one request *)

Section SingleRequest.
Context `{HTTPLib} `{JSONDecode Threads.Thread} `{JSONDecode (list Threads.Thread)}
        `{JSONDecode Threads.Reply} `{JSONDecode (list Threads.Reply)}
        `{JSONDecode Twitter.TweetResponse} `{JSONDecode Twitter.TweetsResponse}.

Lemma Spec_lift {A B} (g : A -> B) (m : M A) (Q : outcome B -> list Exchange -> Prop) :
  Spec m (fun r xs => Q (map_outcome g r) xs) -> Spec (lift g m) Q.
Proof.
  intros Hm w r w' Hrun. unfold lift in Hrun. destruct (m w) as [o w1] eqn:Hmw.
  simpl in Hrun. inversion Hrun; subst. exact (Hm w o w' Hmw).
Qed.



End SingleRequest.

(** Take a wrapper apart along its control flow, down to what holds at each
    [return]. *)
Ltac unfold_call :=
  unfold invoke, Threads.CreateThread, Threads.GetThread, Threads.UpdateThread,
    Threads.DeleteThread, Threads.ListThreads, Threads.CreateReply, Threads.GetReplies,
    Threads.UpdateReply, Threads.DeleteReply, Threads.SearchThreads,
    Twitter.CreateTweet, Twitter.ReplyToTweet, Twitter.GetTweet, Twitter.DeleteTweet,
    Twitter.SearchRecentTweets.

Ltac walk :=
  repeat first
    [ apply Spec_lift
    | apply Spec_raise
    | apply Spec_ret
    | apply Spec_NewRequest_bind; [intros ? ? | intros ?]
    | apply Spec_NewRequest_bind_id; [intros ? ? | intros ?]
    | apply Spec_DoOrErr_bind; [intros ? ? | intros ? ? ?]
    | apply Spec_Decode_bind; [intros ? ? | intros ? ?]
    | apply Spec_Decode_bind_id; [intros ? ? | intros ? ?]
    | apply Spec_Decode; [intros ? ? | intros ? ?]
    | apply Spec_Decode_id; [intros ? ? | intros ? ?]
    | match goal with
      | |- Spec (if ?b then _ else _) _ => destruct b eqn:?
      | |- Spec (let _ := _ in _) _ => cbv zeta
      end ].

(** Decide the comparisons of status codes in sight. *)
Ltac tests :=
  repeat match goal with
         | H : context [(?a =? ?b)] |- _ =>
             destruct (Z.eqb_spec a b); [subst|]; simpl in H
         | |- context [(?a =? ?b)] =>
             destruct (Z.eqb_spec a b); [subst|]; simpl
         end;
  try discriminate; try lia; try congruence.

Section SingleRequestClaims.
Context `{HTTPLib} `{JSONDecode Threads.Thread} `{JSONDecode (list Threads.Thread)}
        `{JSONDecode Threads.Reply} `{JSONDecode (list Threads.Reply)}
        `{JSONDecode Twitter.TweetResponse} `{JSONDecode Twitter.TweetsResponse}.





End SingleRequestClaims.

(** ** Operations that stop at the first refused exchange *)

Section AbortRules.
Context `{HTTPLib}.
Context (checked : Exchange -> bool).

Lemma Aborts_calm {A} (r : outcome A) xs :
  Forall (fun x => refused checked x = false) xs -> Aborts checked r xs.
Proof. now left. Qed.

Lemma Aborts_nil {A} (r : outcome A) : Aborts checked r [].
Proof. left. constructor. Qed.

Lemma Aborts_after {A} (r : outcome A) xs1 xs2 :
  Forall (fun x => refused checked x = false) xs1 ->
  Aborts checked r xs2 -> Aborts checked r (xs1 ++ xs2).
Proof.
  intros Hcalm [Hall | (xs0 & x & code & body & e & -> & Hall & Hrest)].
  - left. now apply Forall_app.
  - right. exists (xs1 ++ xs0), x, code, body, e. rewrite app_assoc.
    split; [reflexivity|]. split; [now apply Forall_app | exact Hrest].
Qed.

Lemma Aborts_Ok {A} (a : A) xs :
  Aborts checked (Ok a) xs -> Forall (fun x => refused checked x = false) xs.
Proof.
  intros [Hall | (xs0 & x & code & body & e & _ & _ & _ & _ & _ & Hr & _)];
    [exact Hall | discriminate].
Qed.

Lemma Aborts_stopped {A B} (o : outcome A) xs :
  is_Ok o = false -> Aborts checked o xs -> Aborts checked (stopped (B := B) o) xs.
Proof.
  intros Hno [Hall | (xs0 & x & code & body & e & Hxs & Hall & Hck & Hrep & Hc & -> & Hcont)].
  - now left.
  - right. exists xs0, x, code, body, e. simpl. auto 10.
Qed.

Lemma Spec_Aborts_bind {A B} (m : M A) (f : A -> M B) :
  Spec m (Aborts checked) ->
  (forall a, Spec (f a) (Aborts checked)) ->
  Spec (m ≫= f) (Aborts checked).
Proof.
  intros Hm Hf. apply Spec_bind with (Q1 := Aborts checked); [exact Hm | |].
  - intros o xs Hno Ha. now apply Aborts_stopped.
  - intros a xs1 Ha. apply Spec_weaken with (Q := Aborts checked); [apply Hf|].
    intros r xs2. apply Aborts_after. exact (Aborts_Ok a xs1 Ha).
Qed.

Lemma Spec_Aborts_silent_bind {A B} (m : M A) (f : A -> M B) :
  silent m ->
  (forall a, Spec (f a) (Aborts checked)) ->
  Spec (m ≫= f) (Aborts checked).
Proof.
  intros Hm Hf. apply Spec_silent_bind; [exact Hm | | exact Hf].
  intros o _. apply Aborts_nil.
Qed.

(** A call whose error the caller prefixes before returning it. *)
Lemma Spec_Aborts_wrapErr {A} (g : string -> string) (m : M A) :
  (forall e s, Contains e s = true -> Contains (g e) s = true) ->
  Spec m (Aborts checked) ->
  Spec (wrapErr g m) (Aborts checked).
Proof.
  intros Hg Hm w r w' Hrun. unfold wrapErr in Hrun.
  destruct (m w) as [o w1] eqn:Hmw. destruct (Hm w o w1 Hmw) as (xs & Hlog & Ha).
  destruct o as [a|e|p]; inversion Hrun; subst; exists xs; (split; [exact Hlog|]); auto.
  destruct Ha as [Hall | (xs0 & x & code & body & e' & Hxs & Hall & Hck & Hrep & Hc & He & Hb & Hs)].
  - now left.
  - right. inversion He; subst e'. exists xs0, x, code, body, (g e). auto 12.
Qed.

(** A request whose answer the operation checks: on a refused answer what
    follows must be a [return] of an error that quotes it. *)
Lemma Spec_Aborts_checked {B} wrap req (f : Z * string -> M B) :
  (forall code body, is2xx code = false ->
     exists e, f (code, body) = raise e
               /\ Contains e body = true /\ Contains e (itoa code) = true) ->
  (forall code body, Spec (f (code, body)) (Aborts checked)) ->
  Spec (DoOrErr wrap req ≫= f) (Aborts checked).
Proof.
  intros Hrefused Hf. apply Spec_DoOrErr_bind.
  - intros t e. left. repeat constructor. unfold refused. simpl. apply andb_false_r.
  - intros t code body.
    destruct (is2xx code) eqn:Hc.
    + apply Spec_weaken with (Q := Aborts checked); [apply Hf|].
      intros r xs. apply (Aborts_after r [_] xs). repeat constructor.
      unfold refused. simpl. rewrite Hc. apply andb_false_r.
    + destruct (Hrefused code body Hc) as (e & -> & Hb & Hs). apply Spec_raise.
      destruct (checked (mkExchange t req (Response code body))) eqn:Hck.
      * right. exists [], (mkExchange t req (Response code body)), code, body, e.
        simpl. auto 12.
      * left. repeat constructor. unfold refused. now rewrite Hck.
Qed.

(** A request whose answer the operation does not have to check. *)
Lemma Spec_Aborts_unchecked {B} wrap req (f : Z * string -> M B) :
  (forall t r, checked (mkExchange t req r) = false) ->
  (forall code body, Spec (f (code, body)) (Aborts checked)) ->
  Spec (DoOrErr wrap req ≫= f) (Aborts checked).
Proof.
  intros Hun Hf. apply Spec_DoOrErr_bind.
  - intros t e. left. repeat constructor. unfold refused. now rewrite Hun.
  - intros t code body.
    apply Spec_weaken with (Q := Aborts checked); [apply Hf|].
    intros r xs. apply (Aborts_after r [_] xs). repeat constructor.
    unfold refused. now rewrite Hun.
Qed.

End AbortRules.

(** Find [sub] in a text put together with [+:+]. *)
Ltac contains :=
  solve [ repeat first [ apply Contains_middle | apply Contains_end | apply Contains_here
                       | apply Contains_later ] ].

(** On a status code outside 2xx the check after a request returns the
    error that quotes the answer. *)
Ltac refusal :=
  let code := fresh "code" in
  let body := fresh "body" in
  let Hc := fresh "Hc" in
  intros code body Hc; unfold is2xx in Hc; cbv beta iota;
  repeat match goal with
         | |- context [(code =? ?k)] =>
             destruct (Z.eqb_spec code k); [subst; simpl in Hc; discriminate|]
         end;
  simpl; eexists; split; [reflexivity|]; split; contains.

Ltac abort_walk :=
  repeat first
    [ apply Aborts_nil
    | apply Spec_raise
    | apply Spec_ret
    | apply Spec_panic
    | apply Spec_NewRequest_bind_id; [intros ? ? | intros ?]
    | apply Spec_Decode_bind_id; [intros ? ? | intros ? ?]
    | apply Spec_Decode_id; [intros ? ? | intros ? ?]
    | apply Spec_Aborts_silent_bind;
      [ solve [ apply silent_Sleep | apply silent_Print | apply silent_ReadFile
              | apply silent_must_map | apply silent_must_string | apply silent_index ]
      | intros ? ]
    | apply Spec_Aborts_unchecked; [ solve [intros; reflexivity] | intros ? ? ]
    | apply Spec_Aborts_checked; [ solve [refusal] | intros ? ? ]
    | match goal with
      | |- Spec (if ?b then _ else _) _ => destruct b eqn:?
      | |- Spec (match ?x with _ => _ end) _ => destruct x eqn:?
      | |- Spec (let _ := _ in _) _ => cbv zeta
      end ].

Section InstagramAborts.
Context `{HTTPLib} `{JSONDecode Instagram.MediaResponse} `{JSONDecode (gmap string JSON)}.

Lemma poll_Aborts url n : Spec (Instagram.poll url n) (Aborts isPOST).
Proof.
  induction n as [|n IH]; cbn [Instagram.poll]; abort_walk. exact IH.
Qed.

Lemma waitForMediaProcessing_Aborts c url :
  Spec (Instagram.waitForMediaProcessing c url) (Aborts isPOST).
Proof. apply poll_Aborts. Qed.

Lemma publish_Aborts c id what : Spec (Instagram.publish c id what) (Aborts isPOST).
Proof. unfold Instagram.publish. abort_walk. Qed.

Lemma PostReel_Aborts c videoPath caption coverImagePath shareToFeed :
  Spec (Instagram.PostReel c videoPath caption coverImagePath shareToFeed) (Aborts isPOST).
Proof.
  unfold Instagram.PostReel. abort_walk.
  apply Spec_Aborts_bind;
    [destruct (Instagram.StatusURL v =? "")%string;
       [apply Spec_ret, Aborts_nil | apply waitForMediaProcessing_Aborts]|].
  intros _. apply publish_Aborts.
Qed.

Lemma carouselChildren_Aborts c mediaPaths : forall childrenIDs,
  Spec (Instagram.carouselChildren c mediaPaths childrenIDs) (Aborts isPOST).
Proof.
  induction mediaPaths as [|mediaPath rest IH]; intros ids;
    cbn [Instagram.carouselChildren]; abort_walk.
  apply Spec_Aborts_bind;
    [destruct (Instagram.StatusURL v =? "")%string;
       [apply Spec_ret, Aborts_nil | apply waitForMediaProcessing_Aborts]|].
  intros _. apply IH.
Qed.

Lemma PostCarousel_Aborts c mediaPaths caption :
  Spec (Instagram.PostCarousel c mediaPaths caption) (Aborts isPOST).
Proof.
  unfold Instagram.PostCarousel. abort_walk.
  apply Spec_Aborts_bind; [apply carouselChildren_Aborts|]. intros childrenIDs.
  abort_walk.
Qed.

End InstagramAborts.

Section LinkedInAborts.
Context `{HTTPLib} `{MapRange} `{JSONDecode (gmap string JSON)}.

Lemma silent_localized raw field old : silent (LinkedIn.localized raw field old).
Proof.
  intros w r w' Hrun. unfold LinkedIn.localized in Hrun.
  destruct (as_map (raw !! field)) as [m|]; [|now inversion Hrun].
  destruct (as_map (m !! "localized")) as [l|]; [|now inversion Hrun].
  destruct (size l =? 0)%nat; [now inversion Hrun|].
  now apply silent_must_string in Hrun.
Qed.

Lemma GetUserProfile_Aborts c : Spec (LinkedIn.GetUserProfile c) (Aborts always).
Proof.
  unfold LinkedIn.GetUserProfile. abort_walk.
  repeat (apply Spec_Aborts_silent_bind; [apply silent_localized | intros ?]).
  abort_walk.
Qed.

Lemma InitiateImageUpload_Aborts c imageType :
  Spec (LinkedIn.InitiateImageUpload c imageType) (Aborts always).
Proof. unfold LinkedIn.InitiateImageUpload. abort_walk. Qed.

Lemma UploadImage_Aborts c imagePath :
  Spec (LinkedIn.UploadImage c imagePath) (Aborts always).
Proof.
  unfold LinkedIn.UploadImage. abort_walk.
  apply Spec_Aborts_bind; [apply InitiateImageUpload_Aborts|]. intros [assetURN mechanism].
  abort_walk.
Qed.

Lemma resolveAuthor_Aborts c authorType authorID :
  Spec (LinkedIn.resolveAuthor c authorType authorID) (Aborts always).
Proof.
  unfold LinkedIn.resolveAuthor. abort_walk.
  apply Spec_Aborts_bind.
  - apply Spec_Aborts_wrapErr; [|apply GetUserProfile_Aborts].
    intros e s. apply Contains_later.
  - intros [profile c']. abort_walk.
Qed.

Lemma CreateImagePost_Aborts c text imageAssetURN authorType authorID :
  Spec (LinkedIn.CreateImagePost c text imageAssetURN authorType authorID) (Aborts always).
Proof.
  unfold LinkedIn.CreateImagePost. abort_walk.
  apply Spec_Aborts_bind; [apply resolveAuthor_Aborts|]. intros [[authorType' authorID'] c'].
  abort_walk.
Qed.

Lemma CreateVideoPost_Aborts c text videoAssetURN authorType authorID :
  Spec (LinkedIn.CreateVideoPost c text videoAssetURN authorType authorID) (Aborts always).
Proof.
  unfold LinkedIn.CreateVideoPost. abort_walk.
  apply Spec_Aborts_bind; [apply resolveAuthor_Aborts|]. intros [[authorType' authorID'] c'].
  abort_walk.
Qed.

Lemma PostWithImage_Aborts c text imagePath authorType authorID :
  Spec (LinkedIn.PostWithImage c text imagePath authorType authorID) (Aborts always).
Proof.
  unfold LinkedIn.PostWithImage. apply Spec_Aborts_bind.
  - apply Spec_Aborts_wrapErr; [|apply UploadImage_Aborts].
    intros e s. apply Contains_later.
  - intros assetURN. apply CreateImagePost_Aborts.
Qed.

End LinkedInAborts.

(** ** What the requests of an operation look like *)

Section SendsRules.
Context `{HTTPLib}.
Context (P : Request -> Prop).










End SendsRules.



Section InstagramSends.
Context `{HTTPLib} `{JSONDecode Instagram.MediaResponse} `{JSONDecode (gmap string JSON)}.







End InstagramSends.

Section LinkedInSends.
Context `{HTTPLib} `{MapRange} `{JSONDecode (gmap string JSON)}.







End LinkedInSends.

(** ** The media type of a carousel item *)

Section Suffix.















End Suffix.

(** ** The carousel *)

Section Carousel.
Context `{HTTPLib} `{JSONDecode Instagram.MediaResponse} `{JSONDecode (gmap string JSON)}.




Lemma item_not_carousel c path t r : isCarousel (mkExchange t (itemRequest c path) r) = false.
Proof.
  unfold isCarousel, itemRequest, Instagram.carouselItemParams, Instagram.carouselItemKind.
  simpl. destruct (HasSuffix (ToLower path) ".mp4"); reflexivity.
Qed.










(** *** Runs that get through *)







Lemma carousel_not_item c caption ids t r :
  isItem (mkExchange t (carouselRequest c caption ids) r) = false
  /\ isCarousel (mkExchange t (carouselRequest c caption ids) r) = true.
Proof. split; reflexivity. Qed.


End Carousel.

(** ** The automated tweeter *)

Section Tweeter.
Context `{HTTPLib} `{JSONDecode Twitter.TweetResponse} `{JSONDecode Twitter.TweetsResponse}.

Lemma CreateTweet_tweeted c text : Spec (Twitter.CreateTweet c text) (tweeted c text).
Proof.
  unfold Twitter.CreateTweet. walk.
  all: split; [intros p; discriminate|]; intros Hreq; try reflexivity; congruence.
Qed.

(** Only the index modulo the length matters to [cycleFrom]. *)
Lemma cycleFrom_shift (content : list string) (n : nat) : forall i i' : nat,
  (i mod length content = i' mod length content)%nat ->
  cycleFrom content i n = cycleFrom content i' n.
Proof.
  induction n as [|n IH]; intros i i' Hmod; [reflexivity|].
  simpl. rewrite Hmod. destruct (content !! (i' mod length content)%nat); [|reflexivity].
  f_equal. apply IH.
  destruct (length content) as [|len] eqn:Hlen; [simpl in *; now subst|].
  replace (S i) with (i + 1)%nat by lia. replace (S i') with (i' + 1)%nat by lia.
  rewrite (Nat.Div0.add_mod i), (Nat.Div0.add_mod i'). now rewrite Hmod.
Qed.

Lemma CreateTweet_at_most_one c text :
  Spec (Twitter.CreateTweet c text) (fun r xs => (length xs <= 1)%nat).
Proof. unfold Twitter.CreateTweet. walk. all: simpl; lia. Qed.

Lemma index_Ok {T} (s : list T) (i : Z) (x : T) w :
  0 <= i < Z.of_nat (length s) -> s !! Z.to_nat i = Some x -> index s i w = (Ok x, w).
Proof.
  intros Hi Hx. unfold index.
  replace (i <? 0) with false by (symmetry; apply Z.ltb_ge; lia).
  replace (Z.of_nat (length s) <=? i) with false by (symmetry; apply Z.leb_gt; lia).
  now rewrite Hx.
Qed.

(** One tick on a tweeter with something to post and an index that is not
    negative: the text at the index read is there, one tweet is attempted
    with it, and the index moves on from the index read. *)
Lemma onTick_spec (at_ : Twitter.AutomatedTweeter) :
  Twitter.Content at_ ≠ [] ->
  0 <= Twitter.CurrentIndex at_ ->
  Spec (Twitter.onTick at_) (fun r xs =>
    exists text,
      Twitter.Content at_ !! Z.to_nat (indexRead at_) = Some text
      /\ r = Ok (Twitter.set_CurrentIndex (indexRead at_ + 1) at_)
      /\ (NewRequest_err "POST" (Twitter.BaseURL (Twitter.Client at_) +:+ "/tweets") [] = None ->
          request <$> xs = [tweetRequest (Twitter.Client at_) text])).
Proof.
  intros Hne Hidx w r w' Hrun.
  assert (Hlen : (0 < length (Twitter.Content at_))%nat)
    by (destruct (Twitter.Content at_); [congruence | simpl; lia]).
  assert (Hj : 0 <= indexRead at_ < Z.of_nat (length (Twitter.Content at_))).
  { unfold indexRead.
    destruct (Z.leb_spec (Z.of_nat (length (Twitter.Content at_)))
                         (Twitter.CurrentIndex at_)); lia. }
  destruct (lookup_lt_is_Some_2 (Twitter.Content at_) (Z.to_nat (indexRead at_)))
    as [text Htext]; [lia|].
  unfold Twitter.onTick in Hrun.
  set (at1 := if Z.of_nat (length (Twitter.Content at_)) <=? Twitter.CurrentIndex at_
              then Twitter.set_CurrentIndex 0 at_ else at_) in Hrun.
  assert (Hat1 : Twitter.Content at1 = Twitter.Content at_
                 /\ Twitter.Client at1 = Twitter.Client at_
                 /\ Twitter.CurrentIndex at1 = indexRead at_
                 /\ Twitter.set_CurrentIndex (indexRead at_ + 1) at1
                    = Twitter.set_CurrentIndex (indexRead at_ + 1) at_).
  { unfold at1, indexRead.
    destruct (Z.of_nat (length (Twitter.Content at_)) <=? Twitter.CurrentIndex at_);
      repeat split. }
  destruct Hat1 as (Hc & Hcl & Hi & Hset). rewrite Hc, Hcl, Hi, Hset in Hrun.
  rewrite (bind_Ok _ _ w text w) in Hrun by (now apply index_Ok).
  unfold mbind at 1, M_bind at 1, attempt in Hrun.
  destruct (Twitter.CreateTweet (Twitter.Client at_) text w) as [o w1] eqn:Hct.
  destruct (CreateTweet_tweeted _ _ w o w1 Hct) as (xs & Hlog & Hnp & Hreq).
  exists xs. destruct o as [tweet|e|p]; [| |now destruct (Hnp p)].
  all: unfold mbind, M_bind, Print, mret, M_ret in Hrun; simpl in Hrun.
  all: inversion Hrun; subst; simpl.
  all: split; [exact Hlog|]; exists text; auto.
Qed.

(** The index read by the tick after one that read [j]. *)
Lemma indexRead_next (at_ : Twitter.AutomatedTweeter) (j : Z) :
  0 <= j < Z.of_nat (length (Twitter.Content at_)) ->
  indexRead (Twitter.set_CurrentIndex (j + 1) at_)
  = Z.of_nat (S (Z.to_nat j) mod length (Twitter.Content at_)).
Proof.
  intros Hj. unfold indexRead. simpl.
  destruct (Z.leb_spec (Z.of_nat (length (Twitter.Content at_))) (j + 1)).
  - replace (S (Z.to_nat j)) with (length (Twitter.Content at_)) by lia.
    now rewrite Nat.Div0.mod_same.
  - rewrite Nat.mod_small by lia. lia.
Qed.

Lemma indexRead_bounds (at_ : Twitter.AutomatedTweeter) :
  Twitter.Content at_ ≠ [] -> 0 <= Twitter.CurrentIndex at_ ->
  0 <= indexRead at_ < Z.of_nat (length (Twitter.Content at_)).
Proof.
  intros Hne Hidx.
  assert (Hlen : (0 < length (Twitter.Content at_))%nat)
    by (destruct (Twitter.Content at_); [congruence | simpl; lia]).
  unfold indexRead.
  destruct (Z.leb_spec (Z.of_nat (length (Twitter.Content at_)))
                       (Twitter.CurrentIndex at_)); lia.
Qed.

(** [n] ticks in a row: no panic, the tweets attempted are the texts of
    [Content] in order, starting at the index read first and wrapping
    around, and the tick that comes next reads within the bounds again. *)
Lemma ticks_spec (n : nat) : forall at_ : Twitter.AutomatedTweeter,
  Twitter.Content at_ ≠ [] ->
  0 <= Twitter.CurrentIndex at_ ->
  Spec (Twitter.ticks n at_) (fun r xs =>
    (exists at', r = Ok at'
                 /\ Twitter.Content at' = Twitter.Content at_
                 /\ Twitter.Client at' = Twitter.Client at_
                 /\ Twitter.PostInterval at' = Twitter.PostInterval at_
                 /\ 0 <= Twitter.CurrentIndex at'
                 /\ indexRead at'
                    = Z.of_nat ((Z.to_nat (indexRead at_) + n)
                                mod length (Twitter.Content at_)))
    /\ (NewRequest_err "POST" (Twitter.BaseURL (Twitter.Client at_) +:+ "/tweets") [] = None ->
        request <$> xs
        = tweetRequest (Twitter.Client at_)
          <$> cycleFrom (Twitter.Content at_) (Z.to_nat (indexRead at_)) n)).
Proof.
  induction n as [|n IH]; intros at_ Hne Hidx; cbn [Twitter.ticks].
  - apply Spec_ret. split; [|reflexivity]. exists at_.
    pose proof (indexRead_bounds at_ Hne Hidx).
    rewrite Nat.add_0_r, Nat.mod_small by lia. repeat split; auto. lia.
  - pose proof (indexRead_bounds at_ Hne Hidx) as Hj.
    eapply Spec_bind; [apply (onTick_spec at_ Hne Hidx) | |].
    + intros o xs Ho (text & _ & -> & _). discriminate.
    + intros at' xs1 (text & Htext & Hat' & Hreq1). injection Hat' as ->.
      pose proof (indexRead_next at_ (indexRead at_) Hj) as Hnext.
      eapply Spec_weaken; [apply IH; simpl; [exact Hne | lia]|].
      cbn [Twitter.Content Twitter.Client Twitter.PostInterval Twitter.set_CurrentIndex].
      intros r xs2 [(at2 & -> & Hc2 & Hcl2 & Hp2 & Hi2 & Hr2) Hreq2].
      rewrite Hnext, Nat2Z.id in Hr2, Hreq2.
      split.
      * exists at2. repeat split; auto. rewrite Hr2. f_equal.
        rewrite Nat.Div0.add_mod_idemp_l. f_equal. lia.
      * intros Hreq. rewrite fmap_app, (Hreq1 Hreq), (Hreq2 Hreq).
        cbn [cycleFrom]. rewrite (Nat.mod_small (Z.to_nat (indexRead at_))) by lia.
        rewrite Htext. simpl.
        do 2 f_equal. apply cycleFrom_shift. now rewrite Nat.Div0.mod_mod.
Qed.

Lemma cycleFrom_lookup (content : list string) (n : nat) : forall i k : nat,
  content ≠ [] -> (k < n)%nat ->
  cycleFrom content i n !! k = content !! ((i + k) mod length content)%nat.
Proof.
  induction n as [|n IH]; intros i k Hne Hk; [lia|].
  assert (Hlen : (0 < length content)%nat)
    by (destruct content; [congruence | simpl; lia]).
  assert (Hi : (i mod length content < length content)%nat)
    by (apply Nat.mod_upper_bound; lia).
  destruct (lookup_lt_is_Some_2 _ _ Hi) as [text Htext].
  simpl. rewrite Htext. destruct k as [|k]; simpl.
  - now rewrite Nat.add_0_r.
  - rewrite IH by (auto; lia). do 2 f_equal. lia.
Qed.

(** C8 (amended): on a tweeter whose [CurrentIndex] is not negative and
    whose [Content] is not empty, every tick reads [Content] within its
    bounds: the first one at [CurrentIndex], or at 0 when [CurrentIndex] has
    reached or passed the length, and the k-th one after it k entries
    further on, wrapping around at the end of the list; so no tick panics
    and the tweets attempted are the entries of [Content] in list order,
    cyclically.  With an empty [Content] the first tick panics on the index,
    whatever [CurrentIndex] is. *)
Theorem tick_index_in_bounds (at_ : Twitter.AutomatedTweeter) :
  let content := Twitter.Content at_ in
  let first := Z.to_nat (indexRead at_) in
  (content ≠ [] -> 0 <= Twitter.CurrentIndex at_ ->
   (first < length content)%nat
   /\ forall n,
        Spec (Twitter.ticks n at_)
          (fun r xs =>
             (exists at', r = Ok at'
                          /\ 0 <= indexRead at' < Z.of_nat (length content)
                          /\ Z.to_nat (indexRead at') = ((first + n) mod length content)%nat)
             /\ (NewRequest_err "POST" (Twitter.BaseURL (Twitter.Client at_) +:+ "/tweets") []
                 = None ->
                 request <$> xs
                 = tweetRequest (Twitter.Client at_) <$> cycleFrom content first n)
             /\ (forall k : nat, (k < n)%nat ->
                   cycleFrom content first n !! k
                   = content !! ((first + k) mod length content)%nat)))
  /\ (content = [] -> forall w, exists p, Twitter.onTick at_ w = (Panic p, w)).
Proof.
  intros content first. split.
  - intros Hne Hidx. pose proof (indexRead_bounds at_ Hne Hidx) as Hj.
    split; [unfold first, content; lia|].
    intros n. eapply Spec_weaken; [apply ticks_spec; [exact Hne | exact Hidx]|].
    simpl. intros r xs [(at' & -> & Hc & _ & _ & Hi & Hr) Hreq].
    split; [|split; [exact Hreq|]].
    + exists at'. split; [reflexivity|]. fold content first in Hr. rewrite Hr.
      assert ((first + n) mod length content < length content)%nat
        by (apply Nat.mod_upper_bound; unfold content; lia).
      split; lia.
    + intros k Hk. now rewrite cycleFrom_lookup.
  - intros Hempty w. unfold content in Hempty. unfold Twitter.onTick.
    rewrite Hempty. change (Z.of_nat (length [])) with 0.
    destruct (Z.leb_spec 0 (Twitter.CurrentIndex at_)) as [Hge | Hlt].
    + unfold mbind at 1, M_bind at 1. cbn [Twitter.Content Twitter.CurrentIndex
        Twitter.set_CurrentIndex]. rewrite Hempty. eexists. reflexivity.
    + unfold mbind at 1, M_bind at 1, index. rewrite Hempty.
      replace (Twitter.CurrentIndex at_ <? 0) with true
        by (symmetry; apply Z.ltb_lt; lia).
      eexists. reflexivity.
Qed.

(** A tick makes at most one exchange. *)
Lemma onTick_at_most_one (at_ : Twitter.AutomatedTweeter) :
  Spec (Twitter.onTick at_) (fun r xs => (length xs <= 1)%nat).
Proof.
  intros w r w' Hrun. unfold Twitter.onTick in Hrun.
  set (at1 := if Z.of_nat (length (Twitter.Content at_)) <=? Twitter.CurrentIndex at_
              then Twitter.set_CurrentIndex 0 at_ else at_) in Hrun.
  unfold mbind at 1, M_bind at 1 in Hrun.
  destruct (index (Twitter.Content at1) (Twitter.CurrentIndex at1) w) as [o w0] eqn:Hidx.
  pose proof (silent_index _ _ w o w0 Hidx) as Hlog0.
  destruct o as [text|e|p]; try (inversion Hrun; subst; exists []; rewrite app_nil_r;
                                 split; [exact Hlog0 | simpl; lia]).
  unfold mbind at 1, M_bind at 1, attempt in Hrun.
  destruct (Twitter.CreateTweet (Twitter.Client at1) text w0) as [o w1] eqn:Hct.
  destruct (CreateTweet_at_most_one (Twitter.Client at1) text w0 o w1 Hct)
    as (xs & Hlog & Hlen).
  exists xs. split; [|exact Hlen].
  destruct o as [tweet|e|p]; unfold mbind, M_bind, Print, mret, M_ret in Hrun;
    simpl in Hrun; inversion Hrun; subst; simpl; congruence.
Qed.

(** *** The loop of [Start] *)

Lemma step_after_return a s s' :
  Twitter.status s = Twitter.Returned -> Twitter.step a s = Some s' ->
  Twitter.status s' = Twitter.Returned
  /\ Twitter.world s' = Twitter.world s /\ Twitter.tweeter s' = Twitter.tweeter s.
Proof.
  intros Hs Hstep. destruct a; unfold Twitter.step in Hstep; rewrite ?Hs in Hstep.
  - inversion Hstep; subst. now simpl.
  - destruct (Twitter.stopClosed s); inversion Hstep; subst. now simpl.
  - destruct (decide (Twitter.Returned = Twitter.Running)); discriminate.
  - destruct (decide (Twitter.Returned = Twitter.Running)); discriminate.
Qed.

Lemma exec_after_return acts : forall s s',
  Twitter.status s = Twitter.Returned -> Twitter.exec acts s = Some s' ->
  Twitter.status s' = Twitter.Returned
  /\ Twitter.world s' = Twitter.world s /\ Twitter.tweeter s' = Twitter.tweeter s.
Proof.
  induction acts as [|a acts IH]; intros s s' Hs Hexec; simpl in Hexec.
  - inversion Hexec; subst. auto.
  - destruct (Twitter.step a s) as [s1|] eqn:Hstep; [|discriminate]. simpl in Hexec.
    destruct (step_after_return a s s1 Hs Hstep) as (Hs1 & Hw1 & Ht1).
    destruct (IH s1 s' Hs1 Hexec) as (Hs' & Hw' & Ht'). split; [exact Hs'|]. split; congruence.
Qed.

(** A loop that has panicked does nothing more either. *)
Lemma step_after_crash a s s' :
  Twitter.status s = Twitter.Crashed -> Twitter.step a s = Some s' ->
  Twitter.status s' = Twitter.Crashed /\ Twitter.world s' = Twitter.world s
  /\ a ≠ Twitter.SelectTick.
Proof.
  intros Hs Hstep. destruct a; unfold Twitter.step in Hstep; rewrite ?Hs in Hstep.
  - inversion Hstep; subst. now simpl.
  - destruct (Twitter.stopClosed s); inversion Hstep; subst. now simpl.
  - destruct (decide (Twitter.Crashed = Twitter.Running)); discriminate.
  - destruct (decide (Twitter.Crashed = Twitter.Running)); discriminate.
Qed.

Lemma exec_after_crash acts : forall s s',
  Twitter.status s = Twitter.Crashed -> Twitter.exec acts s = Some s' ->
  Twitter.status s' = Twitter.Crashed /\ Twitter.world s' = Twitter.world s
  /\ ticksTaken acts = 0%nat.
Proof.
  induction acts as [|a acts IH]; intros s s' Hs Hexec; simpl in Hexec.
  - inversion Hexec; subst. auto.
  - destruct (Twitter.step a s) as [s1|] eqn:Hstep; [|discriminate]. simpl in Hexec.
    destruct (step_after_crash a s s1 Hs Hstep) as (Hs1 & Hw1 & Ha).
    destruct (IH s1 s' Hs1 Hexec) as (Hs' & Hw' & Hn).
    split; [exact Hs'|]. split; [congruence|].
    unfold ticksTaken in *. rewrite filter_cons_False by exact Ha. exact Hn.
Qed.

Lemma exec_returns_after_stop acts : forall s s',
  Twitter.stopClosed s = false -> Twitter.status s ≠ Twitter.Returned ->
  Twitter.exec acts s = Some s' -> Twitter.status s' = Twitter.Returned ->
  Twitter.CallStop ∈ acts.
Proof.
  induction acts as [|a acts IH]; intros s s' Hopen Hrun Hexec Hret; simpl in Hexec.
  - inversion Hexec; subst. contradiction.
  - destruct (Twitter.step a s) as [s1|] eqn:Hstep; [|discriminate]. simpl in Hexec.
    destruct (decide (a = Twitter.CallStop)) as [-> | Hne]; [apply elem_of_cons; now left|].
    apply elem_of_cons; right. apply (IH s1 s'); [| |exact Hexec | exact Hret].
    + destruct a; unfold Twitter.step in Hstep; try contradiction.
      * inversion Hstep; subst. exact Hopen.
      * destruct (decide (Twitter.status s = Twitter.Running)); [|discriminate].
        destruct (Twitter.tickReady s); [|discriminate].
        destruct (Twitter.onTick (Twitter.tweeter s) (Twitter.world s)) as [[?|?|?] ?];
          inversion Hstep; subst; exact Hopen.
      * destruct (decide (Twitter.status s = Twitter.Running)); [|discriminate].
        rewrite Hopen in Hstep. discriminate.
    + destruct a; unfold Twitter.step in Hstep; try contradiction.
      * inversion Hstep; subst. exact Hrun.
      * destruct (decide (Twitter.status s = Twitter.Running)); [|discriminate].
        destruct (Twitter.tickReady s); [|discriminate].
        destruct (Twitter.onTick (Twitter.tweeter s) (Twitter.world s)) as [[?|?|?] ?];
          inversion Hstep; subst; discriminate.
      * destruct (decide (Twitter.status s = Twitter.Running)); [|discriminate].
        rewrite Hopen in Hstep. discriminate.
Qed.

Lemma step_exchanges a s s' :
  Twitter.step a s = Some s' ->
  exists xs, log (Twitter.world s') = log (Twitter.world s) ++ xs
             /\ (length xs <= ticksTaken [a])%nat.
Proof.
  intros Hstep. destruct a; unfold Twitter.step in Hstep.
  - inversion Hstep; subst. exists []. now rewrite app_nil_r.
  - destruct (Twitter.stopClosed s); inversion Hstep; subst. exists []. now rewrite app_nil_r.
  - destruct (decide (Twitter.status s = Twitter.Running)); [|discriminate].
    destruct (Twitter.tickReady s); [|discriminate].
    destruct (Twitter.onTick (Twitter.tweeter s) (Twitter.world s)) as [o w'] eqn:Htick.
    destruct (onTick_at_most_one _ _ _ _ Htick) as (xs & Hlog & Hlen).
    exists xs. destruct o; inversion Hstep; subst; auto.
  - destruct (decide (Twitter.status s = Twitter.Running)); [|discriminate].
    destruct (Twitter.stopClosed s); inversion Hstep; subst. exists []. now rewrite app_nil_r.
Qed.

Lemma exec_exchanges acts : forall s s',
  Twitter.exec acts s = Some s' ->
  exists xs, log (Twitter.world s') = log (Twitter.world s) ++ xs
             /\ (length xs <= ticksTaken acts)%nat.
Proof.
  induction acts as [|a acts IH]; intros s s' Hexec; simpl in Hexec.
  - inversion Hexec; subst. exists []. rewrite app_nil_r. split; [reflexivity | simpl; lia].
  - destruct (Twitter.step a s) as [s1|] eqn:Hstep; [|discriminate]. simpl in Hexec.
    destruct (step_exchanges a s s1 Hstep) as (xs1 & Hlog1 & Hlen1).
    destruct (IH s1 s' Hexec) as (xs2 & Hlog2 & Hlen2).
    exists (xs1 ++ xs2). split; [now rewrite Hlog2, Hlog1, app_assoc|].
    rewrite length_app. unfold ticksTaken in *.
    change (a :: acts) with ([a] ++ acts). rewrite filter_app, length_app. lia.
Qed.

(** A tick leaves the interval as it is. *)
Lemma onTick_keeps_interval at_ w at' w' :
  Twitter.onTick at_ w = (Ok at', w') ->
  Twitter.PostInterval at' = Twitter.PostInterval at_.
Proof.
  unfold Twitter.onTick.
  set (at1 := if Z.of_nat (length (Twitter.Content at_)) <=? Twitter.CurrentIndex at_
              then Twitter.set_CurrentIndex 0 at_ else at_).
  assert (Twitter.PostInterval at1 = Twitter.PostInterval at_) as <-
    by (unfold at1; now destruct (_ <=? _)).
  unfold mbind at 1, M_bind at 1.
  destruct (index (Twitter.Content at1) (Twitter.CurrentIndex at1) w) as [[text|e|p] w0];
    try discriminate.
  unfold mbind at 1, M_bind at 1, attempt.
  destruct (Twitter.CreateTweet (Twitter.Client at1) text w0) as [[tweet|e|p] w1];
    unfold mbind, M_bind, Print, mret, M_ret; simpl; try discriminate.
  all: intros [= <- _]; reflexivity.
Qed.

(** The ticker measures the time in whole intervals, and a tick can only
    be taken after the ticker has fired for it. *)
Lemma step_interval a s s' :
  Twitter.step a s = Some s' ->
  Twitter.PostInterval (Twitter.tweeter s') = Twitter.PostInterval (Twitter.tweeter s)
  /\ Twitter.elapsed s'
     = Twitter.elapsed s + Twitter.PostInterval (Twitter.tweeter s) * Z.of_nat (firings [a])
  /\ (ticksTaken [a] + waiting s' <= firings [a] + waiting s)%nat.
Proof.
  intros Hstep. destruct a; unfold Twitter.step in Hstep; unfold waiting.
  - change (firings [Twitter.TickFires]) with 1%nat.
    change (ticksTaken [Twitter.TickFires]) with 0%nat.
    inversion Hstep; subst. cbn. split; [reflexivity|]. split; [lia|].
    destruct (decide (Twitter.status s = Twitter.Running)); destruct (Twitter.tickReady s);
      simpl; lia.
  - change (firings [Twitter.CallStop]) with 0%nat.
    change (ticksTaken [Twitter.CallStop]) with 0%nat.
    destruct (Twitter.stopClosed s); inversion Hstep; subst. cbn.
    split; [reflexivity|]. split; lia.
  - change (firings [Twitter.SelectTick]) with 0%nat.
    change (ticksTaken [Twitter.SelectTick]) with 1%nat.
    destruct (decide (Twitter.status s = Twitter.Running)) as [Hrun|]; [|discriminate].
    destruct (Twitter.tickReady s); [|discriminate].
    destruct (Twitter.onTick (Twitter.tweeter s) (Twitter.world s)) as [o w'] eqn:Htick.
    destruct o as [at'|err|p]; inversion Hstep; subst; cbn.
    + split; [now apply onTick_keeps_interval in Htick|]. split; lia.
    + split; [reflexivity|]. split; lia.
    + split; [reflexivity|]. split; lia.
  - change (firings [Twitter.SelectStop]) with 0%nat.
    change (ticksTaken [Twitter.SelectStop]) with 0%nat.
    destruct (decide (Twitter.status s = Twitter.Running)); [|discriminate].
    destruct (Twitter.stopClosed s); inversion Hstep; subst. cbn.
    split; [reflexivity|]. split; lia.
Qed.

Lemma exec_interval acts : forall s s',
  Twitter.exec acts s = Some s' ->
  Twitter.PostInterval (Twitter.tweeter s') = Twitter.PostInterval (Twitter.tweeter s)
  /\ Twitter.elapsed s'
     = Twitter.elapsed s + Twitter.PostInterval (Twitter.tweeter s) * Z.of_nat (firings acts)
  /\ (ticksTaken acts + waiting s' <= firings acts + waiting s)%nat.
Proof.
  induction acts as [|a acts IH]; intros s s' Hexec; simpl in Hexec.
  - inversion Hexec; subst. cbn. split; [reflexivity|]. split; lia.
  - destruct (Twitter.step a s) as [s1|] eqn:Hstep; [|discriminate]. simpl in Hexec.
    destruct (step_interval a s s1 Hstep) as (Hp1 & He1 & Hn1).
    destruct (IH s1 s' Hexec) as (Hp2 & He2 & Hn2).
    unfold ticksTaken, firings in *.
    change (a :: acts) with ([a] ++ acts). rewrite !filter_app, !length_app.
    split; [congruence|]. split; [rewrite He2, He1, Hp1; lia | lia].
Qed.

(** The loop on a tweeter with something to post and an index that is not
    negative never panics, and attempts one tweet for every tick it takes:
    the entries of [Content] from the index read first, in cyclic order. *)
Lemma exec_posts acts : forall s s',
  Twitter.Content (Twitter.tweeter s) ≠ [] ->
  0 <= Twitter.CurrentIndex (Twitter.tweeter s) ->
  Twitter.exec acts s = Some s' ->
  let at_ := Twitter.tweeter s in
  (Twitter.status s ≠ Twitter.Crashed -> Twitter.status s' ≠ Twitter.Crashed)
  /\ exists xs,
       log (Twitter.world s') = log (Twitter.world s) ++ xs
       /\ (NewRequest_err "POST" (Twitter.BaseURL (Twitter.Client at_) +:+ "/tweets") []
           = None ->
           request <$> xs
           = tweetRequest (Twitter.Client at_)
             <$> cycleFrom (Twitter.Content at_) (Z.to_nat (indexRead at_))
                           (ticksTaken acts)).
Proof.
  induction acts as [|a acts IH]; intros s s' Hne Hidx Hexec at_; simpl in Hexec.
  - inversion Hexec; subst. split; [auto|]. exists []. rewrite app_nil_r. now split.
  - destruct (Twitter.step a s) as [s1|] eqn:Hstep; [|discriminate]. simpl in Hexec.
    assert (Hquiet : Twitter.tweeter s1 = Twitter.tweeter s ->
                     Twitter.world s1 = Twitter.world s ->
                     (Twitter.status s ≠ Twitter.Crashed ->
                      Twitter.status s1 ≠ Twitter.Crashed) ->
                     a ≠ Twitter.SelectTick ->
                     (Twitter.status s ≠ Twitter.Crashed -> Twitter.status s' ≠ Twitter.Crashed)
                     /\ exists xs,
                          log (Twitter.world s') = log (Twitter.world s) ++ xs
                          /\ (NewRequest_err "POST"
                                (Twitter.BaseURL (Twitter.Client at_) +:+ "/tweets") [] = None ->
                              request <$> xs
                              = tweetRequest (Twitter.Client at_)
                                <$> cycleFrom (Twitter.Content at_) (Z.to_nat (indexRead at_))
                                              (ticksTaken (a :: acts)))).
    { intros Ht Hw Hs Ha.
      destruct (IH s1 s') as (Hs' & xs & Hlog & Hreq); [now rewrite Ht | now rewrite Ht | exact Hexec|].
      rewrite Ht, Hw in *. split; [auto|]. exists xs. split; [exact Hlog|].
      unfold ticksTaken in *. now rewrite filter_cons_False by exact Ha. }
    destruct a; unfold Twitter.step in Hstep.
    + inversion Hstep; subst. apply Hquiet; auto; discriminate.
    + destruct (Twitter.stopClosed s); inversion Hstep; subst.
      apply Hquiet; auto; discriminate.
    + destruct (decide (Twitter.status s = Twitter.Running)) as [Hrun|]; [|discriminate].
      destruct (Twitter.tickReady s); [|discriminate].
      destruct (Twitter.onTick (Twitter.tweeter s) (Twitter.world s)) as [o w'] eqn:Htick.
      destruct (onTick_spec at_ Hne Hidx _ _ _ Htick) as (xs1 & Hlog1 & text & Htext & -> & Hreq1).
      inversion Hstep; subst s1. clear Hstep.
      pose proof (indexRead_bounds at_ Hne Hidx) as Hj.
      assert (Hgo := fun A B => IH _ s' A B Hexec).
      cbn [Twitter.tweeter Twitter.world Twitter.status Twitter.Content Twitter.Client
           Twitter.CurrentIndex Twitter.set_CurrentIndex] in Hgo.
      destruct (Hgo Hne ltac:(lia)) as (Hs' & xs2 & Hlog2 & Hreq2).
      cbn [Twitter.tweeter Twitter.world Twitter.status Twitter.Content Twitter.Client
           Twitter.set_CurrentIndex] in *.
      split; [intros _; apply Hs'; discriminate|].
      exists (xs1 ++ xs2). split; [now rewrite Hlog2, Hlog1, app_assoc|].
      intros Hreq. rewrite fmap_app, (Hreq1 Hreq), (Hreq2 Hreq).
      fold at_. rewrite (indexRead_next at_ (indexRead at_) Hj), Nat2Z.id.
      unfold ticksTaken. rewrite filter_cons_True by reflexivity.
      cbn [length cycleFrom]. rewrite (Nat.mod_small (Z.to_nat (indexRead at_))) by lia.
      fold at_ in Htext. rewrite Htext. simpl. do 2 f_equal.
      apply cycleFrom_shift. now rewrite Nat.Div0.mod_mod.
    + destruct (decide (Twitter.status s = Twitter.Running)) as [Hrun|]; [|discriminate].
      destruct (Twitter.stopClosed s); inversion Hstep; subst.
      apply Hquiet; auto; discriminate.
Qed.

End Tweeter.

(** ** The claims about whole operations *)

Section Operations.
Context `{HTTPLib} `{MapRange} `{JSONDecode (gmap string JSON)}
        `{JSONDecode Instagram.MediaResponse}
        `{JSONDecode Threads.Thread} `{JSONDecode (list Threads.Thread)}
        `{JSONDecode Threads.Reply} `{JSONDecode (list Threads.Reply)}
        `{JSONDecode Twitter.TweetResponse} `{JSONDecode Twitter.TweetsResponse}.

(** C5 (amended): in [PostReel] and [PostCarousel] a response outside 2xx
    to a container-creation or publish request (the POSTs), and in the
    LinkedIn sequence of [PostWithImage] (register the upload, PUT the
    bytes, fetch the profile if needed, publish) a response outside 2xx to
    any request, ends the operation at once: it is the last exchange made
    and the error returned contains its body and its status code.  A status
    poll is judged by the [status_code] field of its body alone, whatever
    its HTTP status. *)
Theorem handshake_aborts_on_refusal :
  (forall c videoPath caption coverImagePath shareToFeed,
     Spec (Instagram.PostReel c videoPath caption coverImagePath shareToFeed)
          (Aborts isPOST))
  /\ (forall c mediaPaths caption,
        Spec (Instagram.PostCarousel c mediaPaths caption) (Aborts isPOST))
  /\ (forall c text imagePath authorType authorID,
        Spec (LinkedIn.PostWithImage c text imagePath authorType authorID)
             (Aborts always))
  /\ (forall code code' body, verdict (Response code body) = verdict (Response code' body)).
Proof.
  split; [|split; [|split]].
  - intros. apply PostReel_Aborts.
  - intros. apply PostCarousel_Aborts.
  - intros. apply PostWithImage_Aborts.
  - reflexivity.
Qed.


(** C7 (amended): [Start] panics at once, in [time.NewTicker], when
    [PostInterval] is not positive, and nothing is posted then.  Otherwise:
    once the [select] has taken the stop case the loop has returned for
    good and nothing more is posted; it can take that case at any [select]
    after [Stop] has closed the channel, and never does before; every
    exchange is made by a tick that the [select] took, and one tweet is
    attempted for each such tick: the entries of [Content] in cyclic order
    from the index read first, when [Content] is not empty and
    [CurrentIndex] not negative; and the ticks come at the fixed interval:
    the ticker fires once per [PostInterval] and the loop cannot take more
    ticks than the ticker has fired, so that [n] tweets take [n] intervals
    at least.  (A tick that is ready together with the closed channel may
    still be taken first.) *)
Theorem stop_ends_posting :
  (forall acts s s',
     Twitter.status s = Twitter.Returned -> Twitter.exec acts s = Some s' ->
     Twitter.status s' = Twitter.Returned
     /\ Twitter.world s' = Twitter.world s /\ Twitter.tweeter s' = Twitter.tweeter s)
  /\ (forall s,
        Twitter.status s = Twitter.Running -> Twitter.stopClosed s = true ->
        exists s', Twitter.step Twitter.SelectStop s = Some s'
                   /\ Twitter.status s' = Twitter.Returned
                   /\ Twitter.world s' = Twitter.world s)
  /\ (forall acts at_ w s',
        Twitter.exec acts (Twitter.start at_ w) = Some s' ->
        Twitter.status s' = Twitter.Returned -> Twitter.CallStop ∈ acts)
  /\ (forall acts s s',
        Twitter.exec acts s = Some s' ->
        exists xs, log (Twitter.world s') = log (Twitter.world s) ++ xs
                   /\ (length xs <= ticksTaken acts)%nat)
  /\ (forall acts at_ w s',
        Twitter.PostInterval at_ <= 0 ->
        Twitter.exec acts (Twitter.start at_ w) = Some s' ->
        Twitter.status s' = Twitter.Crashed /\ Twitter.world s' = w)
  /\ (forall acts at_ w s',
        Twitter.Content at_ ≠ [] -> 0 <= Twitter.CurrentIndex at_ ->
        Twitter.exec acts (Twitter.start at_ w) = Some s' ->
        (0 < Twitter.PostInterval at_ -> Twitter.status s' ≠ Twitter.Crashed)
        /\ exists xs,
             log (Twitter.world s') = log w ++ xs
             /\ (NewRequest_err "POST" (Twitter.BaseURL (Twitter.Client at_) +:+ "/tweets") []
                 = None ->
                 request <$> xs
                 = tweetRequest (Twitter.Client at_)
                   <$> cycleFrom (Twitter.Content at_) (Z.to_nat (indexRead at_))
                                 (ticksTaken acts)))
  /\ (forall acts at_ w s',
        Twitter.exec acts (Twitter.start at_ w) = Some s' ->
        Twitter.elapsed s' = Twitter.PostInterval at_ * Z.of_nat (firings acts)
        /\ (ticksTaken acts <= firings acts)%nat).
Proof.
  split; [|split; [|split; [|split; [|split; [|split]]]]].
  - intros acts s s'. apply exec_after_return.
  - intros s Hrun Hclosed. unfold Twitter.step. rewrite Hrun, Hclosed.
    destruct (decide (Twitter.Running = Twitter.Running)); [|contradiction].
    eexists. repeat split.
  - intros acts at_ w s' Hexec Hret.
    apply (exec_returns_after_stop acts (Twitter.start at_ w) s'); auto.
    unfold Twitter.start. simpl. destruct (Twitter.PostInterval at_ <=? 0); discriminate.
  - intros acts s s'. apply exec_exchanges.
  - intros acts at_ w s' Hbad Hexec.
    destruct (exec_after_crash acts (Twitter.start at_ w) s') as (Hs & Hw & _); auto.
    unfold Twitter.start. simpl. now rewrite (proj2 (Z.leb_le _ _) Hbad).
  - intros acts at_ w s' Hne Hidx Hexec.
    destruct (exec_posts acts (Twitter.start at_ w) s' Hne Hidx Hexec) as (Hs & Hxs).
    split; [|exact Hxs].
    intros Hpos. apply Hs. unfold Twitter.start. simpl.
    rewrite (proj2 (Z.leb_gt _ _) Hpos). discriminate.
  - intros acts at_ w s' Hexec.
    destruct (exec_interval acts (Twitter.start at_ w) s' Hexec) as (_ & He & Hn).
    unfold waiting in Hn. simpl in He, Hn. split; [lia|].
    destruct (Twitter.tickReady s'); lia.
Qed.


(** What [CreateVideoPost] returns when the post was accepted: a [nil]
    result next to a [nil] error, whatever the body said. *)
Lemma CreateVideoPost_returns_nil c text videoAssetURN authorType authorID w code body rest :
  LinkedIn.AccessToken c ≠ "" -> LinkedIn.UserID c ≠ "" ->
  NewRequest_err "POST" LinkedIn.UGCPostURL [] = None ->
  script w = Response code body :: rest ->
  code = 200 \/ code = 201 ->
  exists w', LinkedIn.CreateVideoPost c text videoAssetURN authorType authorID w
             = (Ok (None, c), w').
Proof.
  intros Htok Huid Hreq Hs Hcode. unfold LinkedIn.CreateVideoPost, LinkedIn.resolveAuthor.
  rewrite (eqb_empty_false _ Htok), (eqb_empty_false _ Huid).
  destruct ((authorID =? "")%string
            && ((if (authorType =? "")%string then "person" else authorType) =? "person")%string);
    run; rewrite Hreq; run; rewrite Hs; simpl;
    destruct Hcode as [-> | ->]; simpl; eexists; reflexivity.
Qed.

(** Its sibling [CreateImagePost] returns the id the body carries. *)
Lemma CreateImagePost_returns_id c text imageAssetURN authorType authorID w code body rest
    postResp postID :
  LinkedIn.AccessToken c ≠ "" -> LinkedIn.UserID c ≠ "" ->
  NewRequest_err "POST" LinkedIn.UGCPostURL [] = None ->
  script w = Response code body :: rest ->
  code = 200 \/ code = 201 ->
  json_Decode (T := gmap string JSON) body = inr postResp ->
  postResp !! "id" = Some (JString postID) ->
  exists w', LinkedIn.CreateImagePost c text imageAssetURN authorType authorID w
             = (Ok (LinkedIn.mkPostResponse postID "", c), w').
Proof.
  intros Htok Huid Hreq Hs Hcode Hdec Hid.
  unfold LinkedIn.CreateImagePost, LinkedIn.resolveAuthor.
  rewrite (eqb_empty_false _ Htok), (eqb_empty_false _ Huid).
  destruct ((authorID =? "")%string
            && ((if (authorType =? "")%string then "person" else authorType) =? "person")%string);
    run; rewrite Hreq; run; rewrite Hs; simpl;
    destruct Hcode as [-> | ->]; simpl; rewrite Hdec; run; rewrite Hid; simpl;
    eexists; reflexivity.
Qed.

End Operations.

(** ** The statements at work on sample runs *)

Section Runs.
Import Samples.

Lemma waitForMediaProcessing_times_out_run :
  let answers := replicate 30 pendingAnswer in
  let w := world answers in
  let w' := afterPolls statusURL answers [] w in
  Instagram.waitForMediaProcessing ig statusURL w = (Err "media processing timed out", w')
  /\ length (log w') = (length (log w) + 30)%nat
  /\ (forall (k : nat) r, answers !! k = Some r ->
        log w' !! (length (log w) + k)%nat
        = Some (mkExchange (clock w + 2 * (Z.of_nat k + 1)) (pollRequest statusURL) r))
  /\ clock w' = clock w + 60
  /\ script w' = [].
Proof.
  apply (waitForMediaProcessing_times_out ig statusURL (world (replicate 30 pendingAnswer))
           (replicate 30 pendingAnswer) []).
  - reflexivity.
  - reflexivity.
  - reflexivity.
  - apply Forall_replicate. vm_compute. reflexivity.
Defined.

(** C1 as the specification words it fails when an answer carries no
    [status_code] at all: no answer is terminal, yet the helper stops after
    one poll, with another error. *)
Lemma waitForMediaProcessing_malformed_stops :
  let w := world [Response 200 "{}"] in
  let run := Instagram.waitForMediaProcessing ig statusURL w in
  Forall (fun r => terminal r = false) (script w)
  /\ run.1 = Err "invalid status response"
  /\ length (log run.2) = 1%nat
  /\ ~ (run.1 = Err "media processing timed out" /\ length (log run.2) = 30%nat).
Proof.
  intros w run. split; [|split; [|split]].
  - constructor; [vm_compute; reflexivity | constructor].
  - vm_compute. reflexivity.
  - vm_compute. reflexivity.
  - intros [E _]. vm_compute in E. discriminate.
Qed.

Lemma waitForMediaProcessing_stops_early_run :
  let before := [pendingAnswer; pendingAnswer] in
  let rest := [Response 200 "{}"] in
  let w := world (before ++ finishedAnswer :: rest) in
  Instagram.waitForMediaProcessing ig statusURL w
  = (Ok tt, afterPolls statusURL (before ++ [finishedAnswer]) rest w).
Proof.
  intros before rest w.
  apply (waitForMediaProcessing_stops_early ig statusURL w before finishedAnswer rest).
  - reflexivity.
  - reflexivity.
  - simpl. lia.
  - repeat constructor.
  - reflexivity.
Defined.

Lemma handshake_aborts_on_refusal_run :
  let w := world [Response 500 "upstream down"] in
  let run := Instagram.PostReel ig "https://cdn.example.com/a.mp4" "caption" "" false w in
  exists xs, log run.2 = log w ++ xs /\ Aborts isPOST run.1 xs.
Proof.
  intros w run. destruct handshake_aborts_on_refusal as (Hreel & _).
  apply (Hreel ig "https://cdn.example.com/a.mp4" "caption" "" false w run.1 run.2).
  apply surjective_pairing.
Defined.

(** C5 as the specification words it fails at the polling step: a poll
    answered with status 500 and a body that says "FINISHED" does not end
    [PostReel]; the publish request goes out after it and the operation
    succeeds. *)
Lemma PostReel_goes_on_after_500_poll :
  let w := world [containerAnswer; finishedWith500; publishedAnswer] in
  let run := Instagram.PostReel ig "https://cdn.example.com/a.mp4" "caption" "" false w in
  run.1 = Ok (Instagram.mkMediaResponse "17890" "")
  /\ reply <$> log run.2 = [containerAnswer; finishedWith500; publishedAnswer]
  /\ Method <$> sent run.2 = ["POST"; "GET"; "POST"]
  /\ ~ Aborts always run.1 (log run.2).
Proof.
  vm_compute. repeat split.
  intros [Hall | (xs0 & x & code & body & e & _ & _ & _ & _ & _ & E & _)]; [|discriminate].
  inversion Hall as [|? ? _ Hrest]; subst. inversion Hrest as [|? ? Hbad _]; subst.
  vm_compute in Hbad. discriminate.
Qed.



Lemma stop_ends_posting_run :
  let acts := [Twitter.TickFires; Twitter.SelectTick; Twitter.TickFires; Twitter.TickFires;
               Twitter.SelectTick; Twitter.CallStop; Twitter.SelectStop] in
  let s0 := Twitter.start tweeter (world [Response 201 tweetText]) in
  (exists s', Twitter.exec acts s0 = Some s' /\ Twitter.status s' = Twitter.Returned)
  /\ (forall s',
        Twitter.exec acts s0 = Some s' ->
        (0 < Twitter.PostInterval tweeter -> Twitter.status s' ≠ Twitter.Crashed)
        /\ exists xs,
             log (Twitter.world s') = log (world [Response 201 tweetText]) ++ xs
             /\ (NewRequest_err "POST" (Twitter.BaseURL tw +:+ "/tweets") [] = None ->
                 request <$> xs
                 = tweetRequest tw <$> cycleFrom ["first"; "second"; "third"] 0 2))
  /\ (forall s',
        Twitter.exec acts s0 = Some s' ->
        Twitter.elapsed s' = 21600 * 3 /\ (2 <= 3)%nat).
Proof.
  intros acts s0.
  destruct stop_ends_posting as (_ & _ & _ & _ & _ & Hposts & Hinterval).
  split; [|split].
  - vm_compute. eexists. split; reflexivity.
  - intros s' Hexec.
    apply (Hposts acts tweeter (world [Response 201 tweetText]) s');
      [discriminate | simpl; lia | exact Hexec].
  - intros s' Hexec.
    apply (Hinterval acts tweeter (world [Response 201 tweetText]) s' Hexec).
Defined.

(** C7 as the specification words it fails when a tick is waiting at the
    moment [Stop] is called: the [select] may take the tick first, and a
    tweet goes out although the channel is already closed. *)
Lemma tweet_after_Stop :
  let s0 := Twitter.start tweeter (world [Response 201 tweetText]) in
  exists s1 s2,
    Twitter.exec [Twitter.TickFires; Twitter.CallStop] s0 = Some s1
    /\ Twitter.stopClosed s1 = true
    /\ sent (Twitter.world s1) = []
    /\ Twitter.exec [Twitter.SelectTick] s1 = Some s2
    /\ sent (Twitter.world s2) = [tweetRequest tw "first"]
    /\ Twitter.status s2 = Twitter.Running.
Proof. vm_compute. do 2 eexists. repeat split. Qed.

Lemma tick_index_in_bounds_run :
  let content := ["first"; "second"; "third"] in
  let at_ := Twitter.mkAutomatedTweeter tw 21600 content 5 in
  let w := world [] in
  let run := Twitter.ticks 4 at_ w in
  (exists xs,
     log run.2 = log w ++ xs
     /\ (exists at', run.1 = Ok at'
                     /\ 0 <= indexRead at' < 3
                     /\ Z.to_nat (indexRead at') = ((0 + 4) mod 3)%nat)
     /\ (NewRequest_err "POST" (Twitter.BaseURL tw +:+ "/tweets") [] = None ->
         request <$> xs = tweetRequest tw <$> cycleFrom content 0 4)
     /\ (forall k : nat, (k < 4)%nat ->
           cycleFrom content 0 4 !! k = content !! ((0 + k) mod 3)%nat))
  /\ indexRead at_ = 0
  /\ Body <$> sent run.2
     = (fun text => JSONBody (JObject {[ "text" := JString text ]}))
       <$> ["first"; "second"; "third"; "first"].
Proof.
  intros content at_ w run. split; [|vm_compute; split; reflexivity].
  destruct (tick_index_in_bounds at_) as (Hticks & _).
  destruct (Hticks ltac:(discriminate) ltac:(simpl; lia)) as [_ Hn].
  apply (Hn 4%nat w run.1 run.2). apply surjective_pairing.
Defined.

(** C8 as the specification words it fails on a tweeter whose
    [CurrentIndex] is negative, which the exported field allows: the guard
    of [Start] only looks for an index at or past the length, so the first
    tick reads [Content] at -1 and panics although [Content] is not
    empty. *)
Lemma negative_index_panics :
  let at_ := Twitter.mkAutomatedTweeter tw 21600 ["first"; "second"; "third"] (-1) in
  let w := world [Response 201 tweetText] in
  let run := Twitter.onTick at_ w in
  Twitter.Content at_ ≠ []
  /\ run.1 = Panic "runtime error: index out of range [-1]"
  /\ run.2 = w.
Proof. vm_compute. repeat split. discriminate. Qed.

Lemma empty_argument_rejected_run :
  exists e, invoke (GetThread ts "") (world []) = (Err e, world [])
            /\ Contains e "cannot be empty" = true.
Proof.
  apply (empty_argument_rejected (GetThread ts "") (world [])).
  apply elem_of_cons. now left.
Defined.


(** The same run, evaluated: which requests went out, with which
    parameters. *)
Lemma PostCarousel_run :
  let paths := ["https://cdn.example.com/clip.MP4"; "https://cdn.example.com/cover.jpg"] in
  let w := world [Response 200 (objectText [("id", "17891")]);
                  Response 200 (objectText [("id", "17892")]);
                  Response 200 (objectText [("id", "17890")]);
                  publishedAnswer] in
  let run := Instagram.PostCarousel ig paths "two items" w in
  run.1 = Ok (Instagram.mkMediaResponse "17890" "")
  /\ (fun req => assoc_get "media_type" (Query req)) <$> sent run.2
     = [Some "VIDEO"; Some "IMAGE"; Some "CAROUSEL"; None]
  /\ (fun req => assoc_get "children" (Query req)) <$> sent run.2
     = [None; None; Some "17891,17892"; None].
Proof. vm_compute. repeat split. Qed.

(** [CreateVideoPost] on an accepted post: no result and no error. *)
Lemma CreateVideoPost_run :
  (LinkedIn.CreateVideoPost li "launch" "urn:li:digitalmediaAsset:1" "" ""
     (world [Response 201 (objectText [("id", "urn:li:share:1")])])).1
  = Ok (None, li).
Proof. vm_compute. reflexivity. Qed.

(** [CreateImagePost] on the same answer: the id of the post. *)
Lemma CreateImagePost_run :
  (LinkedIn.CreateImagePost li "launch" "urn:li:digitalmediaAsset:1" "" ""
     (world [Response 201 (objectText [("id", "urn:li:share:1")])])).1
  = Ok (LinkedIn.mkPostResponse "urn:li:share:1" "", li).
Proof. vm_compute. reflexivity. Qed.

End Runs.

(** ** More on the status polls *)

Section PollCourse.
Context `{HTTPLib} `{JSONDecode Instagram.MediaResponse} `{JSONDecode (gmap string JSON)}.

Lemma pollsDone_nil url n (r : outcome unit) : r ≠ Ok tt -> pollsDone url n r [].
Proof.
  intros Hr. split; [simpl; lia|]. split; [constructor|]. split.
  - intros init x E. now destruct init.
  - intros E. contradiction.
Qed.

Lemma pollsDone_last url n (r : outcome unit) t a :
  (r = Ok tt -> verdict a = Finished) ->
  pollsDone url (S n) r [mkExchange t (pollRequest url) a].
Proof.
  intros Hr. split; [simpl; lia|]. split; [repeat constructor|]. split.
  - intros init x E. destruct init as [|y init]; [constructor|].
    destruct init; discriminate.
  - intros E. exists [], (mkExchange t (pollRequest url) a). split; [reflexivity | auto].
Qed.

Lemma pollsDone_cons url n (r : outcome unit) t a xs :
  verdict a = Pending ->
  pollsDone url n r xs ->
  pollsDone url (S n) r (mkExchange t (pollRequest url) a :: xs).
Proof.
  intros Ha (Hlen & Hreq & Hinit & Hok). split; [simpl; lia|].
  split; [now constructor|]. split.
  - intros init x E. destruct init as [|y init].
    + constructor.
    + simpl in E. injection E as <- E. constructor; [exact Ha|]. now apply (Hinit init x).
  - intros E. destruct (Hok E) as (init & x & -> & Hx).
    exists (mkExchange t (pollRequest url) a :: init), x. split; [reflexivity | exact Hx].
Qed.

Lemma poll_pollsDone url n : Spec (Instagram.poll url n) (pollsDone url n).
Proof.
  induction n as [|n IH]; cbn [Instagram.poll].
  - apply Spec_raise. now apply pollsDone_nil.
  - apply Spec_silent_bind; [apply silent_Sleep | |].
    { intros o Ho. apply pollsDone_nil. now destruct o. }
    intros _. apply Spec_NewRequest_bind_id.
    { intros e _. now apply pollsDone_nil. }
    intros _. apply Spec_DoOrErr_bind.
    { intros t e. apply pollsDone_last. discriminate. }
    intros t code body. apply Spec_Decode_bind_id.
    { intros e He. apply pollsDone_last. discriminate. }
    intros statusData Hd.
    assert (Hv : verdict (Response code body)
                 = match as_string (statusData !! "status_code") with
                   | None => Broken
                   | Some status =>
                       if (status =? "FINISHED")%string then Finished
                       else if (status =? "ERROR")%string then Failed else Pending
                   end) by (unfold verdict; now rewrite Hd).
    destruct (as_string (statusData !! "status_code")) as [status|].
    2:{ apply Spec_raise, pollsDone_last. discriminate. }
    destruct (status =? "FINISHED")%string.
    { apply Spec_ret, pollsDone_last. auto. }
    destruct (status =? "ERROR")%string.
    { apply Spec_raise, pollsDone_last. discriminate. }
    eapply Spec_weaken; [apply IH|]. intros r xs. now apply pollsDone_cons.
Qed.

(** The time spent sleeping: two seconds per round, a round being a poll
    unless the request could not be built. *)
Lemma poll_clock url n : forall w,
  clock w <= clock (Instagram.poll url n w).2 <= clock w + 2 * Z.of_nat n
  /\ (NewRequest_err "GET" url [] = None ->
      clock (Instagram.poll url n w).2
      = clock w + 2 * (Z.of_nat (length (log (Instagram.poll url n w).2))
                       - Z.of_nat (length (log w)))).
Proof.
  induction n as [|n IH]; intros w.
  - simpl. split; [lia|]. intros _. lia.
  - cbn [Instagram.poll]. run.
    destruct (NewRequest_err "GET" url []) as [e|] eqn:Hreq; simpl.
    { split; [lia | discriminate]. }
    set (a := match script w with [] => TransportError "connection refused" | a :: _ => a end).
    set (w1 := mkWorld (tail (script w)) (log w ++ [mkExchange (clock w + 2) (pollRequest url) a])
                       (clock w + 2) (stdout w) (fs w)).
    assert (Hstop : clock w <= clock w1 <= clock w + 2 * Z.of_nat (S n)
                    /\ (None = None (A := string) ->
                        clock w1 = clock w + 2 * (Z.of_nat (length (log w1))
                                                  - Z.of_nat (length (log w))))).
    { unfold w1. simpl. rewrite length_app. simpl. split; [lia|]. intros _. lia. }
    destruct a as [e|code body]; simpl; [exact Hstop|].
    destruct (json_Decode body) as [e|statusData]; simpl; [exact Hstop|].
    destruct (as_string (statusData !! "status_code")) as [status|]; simpl; [|exact Hstop].
    destruct (status =? "FINISHED")%string; simpl; [exact Hstop|].
    destruct (status =? "ERROR")%string; simpl; [exact Hstop|].
    repeat match goal with
           | |- context [Instagram.poll url n ?W] =>
               lazymatch W with w1 => fail | _ => change W with w1 end
           end.
    destruct (IH w1) as [Hb He]. specialize (He eq_refl).
    destruct Hstop as [Hb1 He1]. specialize (He1 eq_refl).
    assert (Hc1 : clock w1 = clock w + 2) by reflexivity.
    split; [lia|]. intros _. rewrite He. lia.
Qed.

(** X1: whatever the remote side answers, one call of
    [waitForMediaProcessing] makes at most 30 requests, all of them polls
    of the status URL, and sleeps at most 60 seconds: two seconds before
    each poll. *)
Theorem waitForMediaProcessing_bounded c statusURL w :
  let run := Instagram.waitForMediaProcessing c statusURL w in
  exists xs,
    log run.2 = log w ++ xs
    /\ (length xs <= 30)%nat
    /\ Forall (fun x => request x = pollRequest statusURL) xs
    /\ clock w <= clock run.2 <= clock w + 60
    /\ (NewRequest_err "GET" statusURL [] = None ->
        clock run.2 = clock w + 2 * Z.of_nat (length xs)).
Proof.
  intros run.
  destruct (poll_pollsDone statusURL Instagram.maxAttempts w run.1 run.2)
    as (xs & Hlog & Hlen & Hreq & _); [apply surjective_pairing|].
  destruct (poll_clock statusURL Instagram.maxAttempts w) as [Hb He].
  fold (Instagram.waitForMediaProcessing c statusURL w) in Hb, He. fold run in Hb, He.
  unfold Instagram.maxAttempts in *.
  exists xs. split; [exact Hlog|]. split; [exact Hlen|]. split; [exact Hreq|].
  split; [lia|]. intros Hok. rewrite (He Hok), Hlog, length_app. lia.
Qed.

(** X2: [waitForMediaProcessing] returns [nil] only when its last poll was
    answered with a body whose [status_code] is "FINISHED", and in every
    run each poll before the last one was answered with a pending status:
    an answer of any other kind (an error of the transport, a body that
    does not decode, a [status_code] that is missing or "ERROR") is never
    polled past. *)
Theorem waitForMediaProcessing_course c statusURL :
  Spec (Instagram.waitForMediaProcessing c statusURL)
       (fun r xs =>
          (forall init x, xs = init ++ [x] -> Forall pendingPoll init)
          /\ (r = Ok tt ->
              exists init x, xs = init ++ [x] /\ verdict (reply x) = Finished)).
Proof.
  eapply Spec_weaken; [apply poll_pollsDone|].
  intros r xs (_ & _ & Hinit & Hok). split; assumption.
Qed.

End PollCourse.

(** ** Publishing: what is published, and when *)

Section Publishing.
Context `{HTTPLib} `{JSONDecode Instagram.MediaResponse} `{JSONDecode (gmap string JSON)}.

Lemma publish_done c creationID what :
  Spec (Instagram.publish c creationID what) (publishDone c creationID).
Proof.
  unfold Instagram.publish. cbv zeta. apply Spec_NewRequest_bind_id.
  { intros e _. now left. }
  intros _. apply Spec_DoOrErr_bind.
  { intros t e. right. exists t, (TransportError e). split; [reflexivity | discriminate]. }
  intros t code body. destruct (Z.eqb_spec code 200) as [-> | Hcode]; simpl.
  - apply Spec_Decode_id.
    + intros e _. right. exists t, (Response 200 body). split; [reflexivity | discriminate].
    + intros v Hv. right. exists t, (Response 200 body). split; [reflexivity|].
      intros v' [= <-]. now exists body.
  - apply Spec_raise. right. exists t, (Response code body).
    split; [reflexivity | discriminate].
Qed.

Lemma poll_not_publish url (polls : list Exchange) :
  Forall (fun p => request p = pollRequest url) polls ->
  Forall (fun p => isPublish p = false) polls.
Proof.
  intros Hpolls. eapply Forall_impl; [exact Hpolls|].
  intros p Hp. unfold isPublish. now rewrite Hp.
Qed.

Lemma wait_if_needed_processed c (v : Instagram.MediaResponse) :
  Spec (if (Instagram.StatusURL v =? "")%string then mret tt
        else Instagram.waitForMediaProcessing c (Instagram.StatusURL v))
       (fun r xs => Forall (fun p => isPublish p = false) xs
                    /\ (r = Ok tt -> processed v xs)).
Proof.
  destruct (Instagram.StatusURL v =? "")%string eqn:Hurl.
  - apply Spec_ret. split; [constructor|]. intros _. split; [constructor|].
    now rewrite Hurl.
  - eapply Spec_weaken; [apply poll_pollsDone|].
    intros r xs (_ & Hreq & Hinit & Hok). split; [now apply poll_not_publish in Hreq|].
    intros Hr. split; [exact Hreq|]. rewrite Hurl.
    destruct (Hok Hr) as (init & x & -> & Hx). exists init, x.
    split; [reflexivity|]. split; [now apply (Hinit init x) | exact Hx].
Qed.

Lemma reelDone_stopped c (r : outcome Instagram.MediaResponse) xs :
  Forall (fun x => isPublish x = false) xs -> is_Ok r = false -> reelDone c r xs.
Proof.
  intros Hno Hr. split.
  - intros x Hx Hpub. rewrite Forall_forall in Hno. rewrite (Hno x Hx) in Hpub. discriminate.
  - intros v ->. discriminate.
Qed.

Lemma reelDone_published c (r : outcome Instagram.MediaResponse) container v polls t a :
  isPublish container = false ->
  answered (reply container) v ->
  Forall (fun p => isPublish p = false) polls ->
  processed v polls ->
  (forall v', r = Ok v' -> answered a v') ->
  reelDone c r (container :: polls ++ [mkExchange t (publishRequest c (Instagram.ID v)) a]).
Proof.
  intros Hc Hv Hpolls Hdone Hr. split.
  - intros x Hx Hpub. exists container, v, polls.
    apply elem_of_cons in Hx as [-> | Hx]; [congruence|].
    apply elem_of_app in Hx as [Hx | Hx].
    + rewrite Forall_forall in Hpolls. rewrite (Hpolls x Hx) in Hpub. discriminate.
    + apply list_elem_of_singleton in Hx as ->. auto.
  - intros v' Hv'. eexists. rewrite app_comm_cons, last_snoc.
    split; [reflexivity|]. split; [reflexivity | now apply Hr].
Qed.

(** X3: [PostReel] sends a publish request only as its last request, after
    the container request was answered 200 with a body that decodes, and
    for the id that body carried; when the container has a status URL, only
    after polls of that URL of which the last one said "FINISHED" and all
    earlier ones "not yet", and with no poll at all when it has none.  What
    [PostReel] returns is the decoded 200 answer to that publish request. *)
Theorem PostReel_publishes_what_it_created c videoPath caption coverImagePath shareToFeed :
  Spec (Instagram.PostReel c videoPath caption coverImagePath shareToFeed) (reelDone c).
Proof.
  unfold Instagram.PostReel.
  destruct ((Instagram.AccessToken c =? "")%string || (Instagram.UserID c =? "")%string).
  { apply Spec_raise. apply reelDone_stopped; [constructor | reflexivity]. }
  cbv zeta. apply Spec_NewRequest_bind_id.
  { intros e _. apply reelDone_stopped; [constructor | reflexivity]. }
  intros _.
  match goal with
  | |- Spec (DoOrErr _ ?req ≫= _) _ =>
      assert (Hc : forall t a, isPublish (mkExchange t req a) = false)
        by (intros; unfold isPublish; simpl;
            destruct (coverImagePath =? "")%string, shareToFeed; reflexivity)
  end.
  apply Spec_DoOrErr_bind.
  { intros t e. apply reelDone_stopped; [repeat constructor; apply Hc | reflexivity]. }
  intros t code body. destruct (Z.eqb_spec code 200) as [-> | Hcode]; simpl.
  2:{ apply Spec_raise. apply reelDone_stopped; [repeat constructor; apply Hc | reflexivity]. }
  apply Spec_Decode_bind_id.
  { intros e _. apply reelDone_stopped; [repeat constructor; apply Hc | reflexivity]. }
  intros v Hv. eapply Spec_bind; [apply wait_if_needed_processed | |].
  - intros o polls Ho [Hno _]. apply reelDone_stopped.
    + constructor; [apply Hc | exact Hno].
    + now destruct o.
  - intros [] polls [Hno Hdone]. specialize (Hdone eq_refl).
    eapply Spec_weaken; [apply publish_done|].
    intros r xs [[-> Hr] | (t' & a & -> & Hr)].
    + rewrite app_nil_r. apply reelDone_stopped; [|exact Hr].
      constructor; [apply Hc | exact Hno].
    + apply reelDone_published; auto. now exists body.
Qed.

End Publishing.

(** ** Single images, credentials, tokens *)

Section Accounts.
Context `{HTTPLib} `{Instagram.FormEncoding} `{JSONDecode (gmap string JSON)}
        `{JSONDecode Instagram.MediaResponse} `{JSONDecode Instagram.TokenResponse}
        `{JSONDecode (list Instagram.Metric)}.

(** X4: [PostImage] makes the container request and, only once that was
    answered 200 with a body that decodes, the publish request for the id
    that body carried; it makes no other request, so it never polls, even
    when the container answer names a status URL.  What it returns is the
    decoded 200 answer to the publish request. *)
Theorem PostImage_publishes_at_once c imagePath caption :
  Spec (Instagram.PostImage c imagePath caption) (imageDone c imagePath caption).
Proof.
  unfold Instagram.PostImage.
  destruct ((Instagram.AccessToken c =? "")%string || (Instagram.UserID c =? "")%string).
  { apply Spec_raise. now left. }
  cbv zeta. apply Spec_NewRequest_bind_id.
  { intros e _. now left. }
  intros _. apply Spec_DoOrErr_bind.
  { intros t e. right; left. now exists t, (TransportError e). }
  intros t code body. destruct (Z.eqb_spec code 200) as [-> | Hcode]; simpl.
  2:{ apply Spec_raise. right; left. now exists t, (Response code body). }
  apply Spec_Decode_bind_id.
  { intros e _. right; left. now exists t, (Response 200 body). }
  intros v Hv. eapply Spec_weaken; [apply publish_done|].
  intros r xs [[-> Hr] | (t' & a & -> & Hr)].
  - right; left. now exists t, (Response 200 body).
  - right; right. exists t, (Response 200 body), v, t', a.
    split; [reflexivity|]. split; [now exists body | exact Hr].
Qed.










Lemma itoa_nonempty (n : Z) : itoa n ≠ "".
Proof.
  unfold itoa. destruct (Z.to_int n) as [d|d]; simpl; [|discriminate].
  destruct d; discriminate.
Qed.

(** The answer [a] of the one exchange made is not a 200 that decodes, and
    the function did not succeed. *)
Ltac unanswered :=
  split;
  [ discriminate
  | let x := fresh "x" in
    let body := fresh "body" in
    intros (_ & x & ? & body & ? & ?); simplify_eq/=; congruence ].

Lemma GetLongLivedAccessToken_renewed c :
  Spec (Instagram.GetLongLivedAccessToken c)
       (renewed c (Instagram.BaseURL +:+ "/access_token") "ig_exchange_token").
Proof.
  unfold Instagram.GetLongLivedAccessToken.
  destruct (Instagram.AccessToken c =? "")%string.
  { apply Spec_raise. split; [simpl; lia|]. split; [constructor|]. intros. unanswered. }
  cbv zeta. apply Spec_NewRequest_bind_id.
  { intros e _. split; [simpl; lia|]. split; [constructor|]. intros. unanswered. }
  intros _. apply Spec_DoOrErr_bind.
  { intros t e. split; [simpl; lia|]. split; [repeat constructor|]. intros. unanswered. }
  intros t code body. destruct (Z.eqb_spec code 200) as [-> | Hcode]; simpl.
  2:{ apply Spec_raise. split; [simpl; lia|]. split; [repeat constructor|].
      intros. unanswered. }
  apply Spec_Decode_bind_id.
  { intros e He. split; [simpl; lia|]. split; [repeat constructor|]. intros. unanswered. }
  intros v Hv. apply Spec_ret. split; [simpl; lia|]. split; [repeat constructor|].
  intros tokenResp c'. split.
  - intros [= <- <-]. split; [reflexivity|]. eexists. split; [reflexivity|]. now exists body.
  - intros (-> & x & ? & body' & ? & ?). simplify_eq/=. congruence.
Qed.

Lemma RefreshAccessToken_renewed c :
  Spec (Instagram.RefreshAccessToken c)
       (renewed c (Instagram.BaseURL +:+ "/refresh_access_token") "ig_refresh_token").
Proof.
  unfold Instagram.RefreshAccessToken.
  destruct (Instagram.AccessToken c =? "")%string.
  { apply Spec_raise. split; [simpl; lia|]. split; [constructor|]. intros. unanswered. }
  cbv zeta. apply Spec_NewRequest_bind_id.
  { intros e _. split; [simpl; lia|]. split; [constructor|]. intros. unanswered. }
  intros _. apply Spec_DoOrErr_bind.
  { intros t e. split; [simpl; lia|]. split; [repeat constructor|]. intros. unanswered. }
  intros t code body. destruct (Z.eqb_spec code 200) as [-> | Hcode]; simpl.
  2:{ apply Spec_raise. split; [simpl; lia|]. split; [repeat constructor|].
      intros. unanswered. }
  apply Spec_Decode_bind_id.
  { intros e He. split; [simpl; lia|]. split; [repeat constructor|]. intros. unanswered. }
  intros v Hv. apply Spec_ret. split; [simpl; lia|]. split; [repeat constructor|].
  intros tokenResp c'. split.
  - intros [= <- <-]. split; [reflexivity|]. eexists. split; [reflexivity|]. now exists body.
  - intros (-> & x & ? & body' & ? & ?). simplify_eq/=. congruence.
Qed.

(** X6: a token renewal ([GetLongLivedAccessToken], [RefreshAccessToken])
    makes at most one request, a GET without headers that carries the
    client's current token and the grant type of the renewal as query
    parameters.  It succeeds exactly when that request was answered 200 with
    a body that decodes; the value returned is then the decoded body, and
    the client holds the token of that body in place of the old one, with
    its other fields unchanged. *)
Theorem renewal_replaces_token c :
  Spec (Instagram.GetLongLivedAccessToken c)
       (renewed c (Instagram.BaseURL +:+ "/access_token") "ig_exchange_token")
  /\ Spec (Instagram.RefreshAccessToken c)
          (renewed c (Instagram.BaseURL +:+ "/refresh_access_token") "ig_refresh_token").
Proof. split; [apply GetLongLivedAccessToken_renewed | apply RefreshAccessToken_renewed]. Qed.

Lemma answered_inj {T} `{JSONDecode T} (a : HTTPResult) (v v' : T) :
  answered a v -> answered a v' -> v = v'.
Proof. intros (body & -> & Hv) (body' & [= <-] & Hv'). congruence. Qed.

(** X7: the token a renewal stored is the one the next call presents.
    When [GetLongLivedAccessToken] is followed by [RefreshAccessToken] on
    the same client and the first request was answered 200 with a body that
    decodes, then: if the token in that body is empty (the field was
    absent), the second call sends nothing and fails with "no access token
    available"; otherwise every later request carries the token of that
    body, and exactly one is made when it can be built. *)
Theorem renewed_token_is_presented_next c :
  Spec ('(_, c') ← Instagram.GetLongLivedAccessToken c; Instagram.RefreshAccessToken c')
       (fun r xs =>
          forall x1 rest tokenResp,
            xs = x1 :: rest -> answered (reply x1) tokenResp ->
            let tok := Instagram.TokenAccessToken tokenResp in
            if (tok =? "")%string then rest = [] /\ r = Err "no access token available"
            else Forall (fun x => assoc_get "access_token" (Query (request x)) = Some tok)
                        rest
                 /\ (NewRequest_err "GET" (Instagram.BaseURL +:+ "/refresh_access_token")
                       [("grant_type", "ig_refresh_token"); ("access_token", tok)] = None ->
                     length rest = 1%nat)).
Proof.
  eapply Spec_bind; [apply GetLongLivedAccessToken_renewed | |].
  - intros o xs Ho (Hlen & _ & Hiff) x1 rest tokenResp -> Hans.
    destruct rest; [|simpl in Hlen; lia].
    destruct (Hiff tokenResp
                (Instagram.set_AccessToken (Instagram.TokenAccessToken tokenResp) c))
      as [_ Hok].
    rewrite Hok in Ho; [discriminate|]. split; [reflexivity|]. now exists x1.
  - intros [t1 c1] xs1 (_ & _ & Hiff).
    destruct (Hiff t1 c1) as [Hok _]. destruct (Hok eq_refl) as (-> & x & -> & Hx).
    unfold Instagram.RefreshAccessToken. cbn [Instagram.set_AccessToken Instagram.AccessToken].
    assert (Hsame : forall x1 tokenResp, answered (reply x1) tokenResp -> x = x1 ->
                      Instagram.TokenAccessToken tokenResp = Instagram.TokenAccessToken t1).
    { intros x1 tokenResp Hans <-. f_equal. exact (answered_inj _ _ _ Hans Hx). }
    destruct (Instagram.TokenAccessToken t1 =? "")%string eqn:Htok.
    + apply Spec_raise. intros x1 rest tokenResp [= <- <-] Hans. cbv zeta.
      rewrite (Hsame x tokenResp Hans eq_refl), Htok. now split.
    + cbv zeta. apply Spec_NewRequest_bind_id.
      { intros e He x1 rest tokenResp [= <- <-] Hans. cbv zeta.
        rewrite (Hsame x tokenResp Hans eq_refl), Htok. split; [constructor|].
        intros Hnone. rewrite Hnone in He. discriminate. }
      intros _. walk.
      all: intros x1 rest tokenResp [= <- <-] Hans; cbv zeta.
      all: rewrite (Hsame x tokenResp Hans eq_refl), Htok.
      all: split; [repeat constructor | reflexivity].
Qed.

(** X8: [GetAccessToken] checks no credential: it posts the form with the
    client's secret and the code as the body of one request, which has no
    query parameters.  When it succeeds, that request was answered 200, the
    value returned is the decoded body, and the client holds the token of
    the body and the decimal text of its user id; that text is never empty,
    so afterwards an operation is refused for its credentials exactly when
    the token in the body was empty. *)
Theorem GetAccessToken_fills_client c code :
  Spec (Instagram.GetAccessToken c code)
       (fun r xs =>
          (length xs <= 1)%nat
          /\ Forall (fun x => Method (request x) = "POST"
                              /\ URL (request x) = Instagram.InstagramAPIURL
                              /\ Query (request x) = []
                              /\ Body (request x)
                                 = RawBody (Instagram.Encode (codeForm c code))) xs
          /\ forall tokenResp c',
               r = Ok (tokenResp, c') ->
               (exists x, xs = [x] /\ answered (reply x) tokenResp)
               /\ Instagram.AccessToken c' = Instagram.TokenAccessToken tokenResp
               /\ Instagram.UserID c' = itoa (Instagram.TokenUserID tokenResp)
               /\ forall op,
                    unready c' op = (Instagram.TokenAccessToken tokenResp =? "")%string).
Proof.
  unfold Instagram.GetAccessToken. cbv zeta. apply Spec_NewRequest_bind_id.
  { intros e _. split; [simpl; lia|]. split; [constructor | discriminate]. }
  intros _. apply Spec_DoOrErr_bind.
  { intros t e. split; [simpl; lia|]. split; [repeat constructor | discriminate]. }
  intros t status body. destruct (Z.eqb_spec status 200) as [-> | Hcode]; simpl.
  2:{ apply Spec_raise. split; [simpl; lia|]. split; [repeat constructor | discriminate]. }
  apply Spec_Decode_bind_id.
  { intros e _. split; [simpl; lia|]. split; [repeat constructor | discriminate]. }
  intros v Hv. apply Spec_ret. split; [simpl; lia|]. split; [repeat constructor|].
  intros tokenResp c' [= <- <-].
  split; [eexists; split; [reflexivity | now exists body]|].
  split; [reflexivity|]. split; [reflexivity|].
  intros op. unfold unready. simpl.
  rewrite (eqb_empty_false _ (itoa_nonempty (Instagram.TokenUserID v))).
  now rewrite andb_false_r, orb_false_r.
Qed.

End Accounts.

(** ** Insights: which entry of the answer ends up in which field *)

Section Insights.
Context `{HTTPLib} `{JSONDecode (list Instagram.Metric)}.

Lemma default_last_cons {A} (d v : A) (l : list A) :
  default d (last (v :: l)) = default v (last l).
Proof. rewrite last_cons. now destruct (last l). Qed.

(** One round of a loop that keeps the last value [pick] finds. *)
Lemma foldl_last {S} (field : S -> Z) (body : S -> Instagram.Metric -> S)
    (pick : Instagram.Metric -> option Z) :
  (forall s metric, field (body s metric) = default (field s) (pick metric)) ->
  forall data s, field (foldl body s data) = default (field s) (last (omap pick data)).
Proof.
  intros Hbody. induction data as [|metric data IH]; intros s; [reflexivity|].
  cbn [foldl]. rewrite IH, Hbody. cbn [omap list_omap].
  destruct (pick metric) as [v|]; [|reflexivity].
  now rewrite default_last_cons.
Qed.

(** Decide the comparisons of a metric's name in sight. *)
Ltac names :=
  repeat match goal with
         | |- context [(Instagram.Name ?m =? ?s)%string] =>
             let E := fresh "E" in
             destruct (String.eqb_spec (Instagram.Name m) s) as [E|E];
             [try rewrite E; simpl; try reflexivity|]
         end;
  try reflexivity.

Lemma applyMediaMetric_fields insights metric :
  let pick name := if (Instagram.Name metric =? name)%string
                   then head (Instagram.Values metric) else None in
  let after := Instagram.applyMediaMetric insights metric in
  Instagram.Engagement after = default (Instagram.Engagement insights) (pick "engagement")
  /\ Instagram.Impressions after
     = default (Instagram.Impressions insights) (pick "impressions")
  /\ Instagram.Reach after = default (Instagram.Reach insights) (pick "reach")
  /\ Instagram.Saved after = default (Instagram.Saved insights) (pick "saved")
  /\ Instagram.VideoViews after
     = default (Instagram.VideoViews insights) (pick "video_views")
  /\ Instagram.Likes after = default (Instagram.Likes insights) (pick "likes")
  /\ Instagram.Comments after = default (Instagram.Comments insights) (pick "comments")
  /\ Instagram.Shares after = default (Instagram.Shares insights) (pick "shares")
  /\ Instagram.StoriesReplies after
     = default (Instagram.StoriesReplies insights) (pick "stories_replies").
Proof.
  cbv zeta. unfold Instagram.applyMediaMetric.
  destruct (Instagram.Values metric) as [|value others].
  { repeat split; simpl; names. }
  destruct insights. cbn [head].
  repeat split; names.
Qed.

Lemma applyUserMetric_fields insights metric :
  let pick name := if (Instagram.Name metric =? name)%string
                   then head (Instagram.Values metric) else None in
  let after := Instagram.applyUserMetric insights metric in
  Instagram.Followers after = default (Instagram.Followers insights) (pick "follower_count")
  /\ Instagram.ProfileViews after
     = default (Instagram.ProfileViews insights) (pick "profile_views")
  /\ Instagram.UserReach after = default (Instagram.UserReach insights) (pick "reach")
  /\ Instagram.UserImpressions after
     = default (Instagram.UserImpressions insights) (pick "impressions")
  /\ Instagram.WebsiteClicks after
     = default (Instagram.WebsiteClicks insights) (pick "website_clicks")
  /\ Instagram.FollowersDelta after
     = default (Instagram.FollowersDelta insights)
         (if (Instagram.Name metric =? "follower_count")%string then
            match Instagram.Values metric with
            | value :: previousValue :: _ =>
                Some (Instagram.wrap64 (value - previousValue))
            | _ => None
            end
          else None).
Proof.
  cbv zeta. unfold Instagram.applyUserMetric.
  destruct (Instagram.Values metric) as [|value [|previousValue others]].
  - repeat split; simpl; names.
  - destruct insights. cbn [head]. repeat split; names.
  - destruct insights. cbn [head]. repeat split; names.
Qed.

Lemma foldl_applyMediaMetric data :
  foldl Instagram.applyMediaMetric (Instagram.mkMediaInsights 0 0 0 0 0 0 0 0 0) data
  = mediaReadings data.
Proof.
  assert (Hfield : forall field name,
            (forall s metric,
               field (Instagram.applyMediaMetric s metric)
               = default (field s) (if (Instagram.Name metric =? name)%string
                                    then head (Instagram.Values metric) else None)) ->
            field (foldl Instagram.applyMediaMetric
                     (Instagram.mkMediaInsights 0 0 0 0 0 0 0 0 0) data)
            = default (field (Instagram.mkMediaInsights 0 0 0 0 0 0 0 0 0))
                      (reading name data)).
  { intros field name Hf. unfold reading. now apply foldl_last. }
  assert (Hround : forall s metric, _) by exact applyMediaMetric_fields.
  cbv zeta in Hround.
  pose proof (Hfield Instagram.Engagement "engagement" (fun s m => proj1 (Hround s m))).
  pose proof (Hfield Instagram.Impressions "impressions"
                (fun s m => proj1 (proj2 (Hround s m)))).
  pose proof (Hfield Instagram.Reach "reach"
                (fun s m => proj1 (proj2 (proj2 (Hround s m))))).
  pose proof (Hfield Instagram.Saved "saved"
                (fun s m => proj1 (proj2 (proj2 (proj2 (Hround s m)))))).
  pose proof (Hfield Instagram.VideoViews "video_views"
                (fun s m => proj1 (proj2 (proj2 (proj2 (proj2 (Hround s m))))))).
  pose proof (Hfield Instagram.Likes "likes"
                (fun s m => proj1 (proj2 (proj2 (proj2 (proj2 (proj2 (Hround s m)))))))).
  pose proof (Hfield Instagram.Comments "comments"
                (fun s m => proj1 (proj2 (proj2 (proj2 (proj2 (proj2 (proj2
                   (Hround s m))))))))).
  pose proof (Hfield Instagram.Shares "shares"
                (fun s m => proj1 (proj2 (proj2 (proj2 (proj2 (proj2 (proj2 (proj2
                   (Hround s m)))))))))).
  pose proof (Hfield Instagram.StoriesReplies "stories_replies"
                (fun s m => proj2 (proj2 (proj2 (proj2 (proj2 (proj2 (proj2 (proj2
                   (Hround s m)))))))))).
  unfold mediaReadings.
  destruct (foldl Instagram.applyMediaMetric _ data). simpl in *. congruence.
Qed.

Lemma foldl_applyUserMetric data :
  foldl Instagram.applyUserMetric (Instagram.mkUserInsights 0 0 0 0 0 0) data
  = userReadings data.
Proof.
  assert (Hfield : forall field name,
            (forall s metric,
               field (Instagram.applyUserMetric s metric)
               = default (field s) (if (Instagram.Name metric =? name)%string
                                    then head (Instagram.Values metric) else None)) ->
            field (foldl Instagram.applyUserMetric
                     (Instagram.mkUserInsights 0 0 0 0 0 0) data)
            = default (field (Instagram.mkUserInsights 0 0 0 0 0 0))
                      (reading name data)).
  { intros field name Hf. unfold reading. now apply foldl_last. }
  assert (Hround : forall s metric, _) by exact applyUserMetric_fields.
  cbv zeta in Hround.
  pose proof (Hfield Instagram.Followers "follower_count" (fun s m => proj1 (Hround s m))).
  pose proof (Hfield Instagram.ProfileViews "profile_views"
                (fun s m => proj1 (proj2 (Hround s m)))).
  pose proof (Hfield Instagram.UserReach "reach"
                (fun s m => proj1 (proj2 (proj2 (Hround s m))))).
  pose proof (Hfield Instagram.UserImpressions "impressions"
                (fun s m => proj1 (proj2 (proj2 (proj2 (Hround s m)))))).
  pose proof (Hfield Instagram.WebsiteClicks "website_clicks"
                (fun s m => proj1 (proj2 (proj2 (proj2 (proj2 (Hround s m))))))).
  pose proof (foldl_last Instagram.FollowersDelta Instagram.applyUserMetric _
                (fun s m => proj2 (proj2 (proj2 (proj2 (proj2 (Hround s m))))))
                data (Instagram.mkUserInsights 0 0 0 0 0 0)) as Hgrowth.
  fold (growth data) in Hgrowth.
  unfold userReadings.
  destruct (foldl Instagram.applyUserMetric _ data). simpl in *. congruence.
Qed.

(** X9: [GetMediaInsights] makes at most one request and succeeds exactly
    when it was answered 200 with a body that decodes.  Each field of the
    result is then the first value of the last entry of the answer that has
    the field's metric name and at least one value, and 0 when there is no
    such entry; entries with other names or without values change
    nothing. *)
Theorem GetMediaInsights_reads_last_entries c mediaID :
  Spec (Instagram.GetMediaInsights c mediaID)
       (fun r xs =>
          (length xs <= 1)%nat
          /\ forall insights,
               r = Ok insights
               <-> exists x data,
                     xs = [x] /\ answered (reply x) data /\ insights = mediaReadings data).
Proof.
  unfold Instagram.GetMediaInsights.
  destruct (Instagram.AccessToken c =? "")%string.
  { apply Spec_raise. split; [simpl; lia|]. intros. split; [discriminate|].
    intros (x & data & ? & _). discriminate. }
  cbv zeta. apply Spec_NewRequest_bind_id.
  { intros e _. split; [simpl; lia|]. intros. split; [discriminate|].
    intros (x & data & ? & _). discriminate. }
  intros _. apply Spec_DoOrErr_bind.
  { intros t e. split; [simpl; lia|]. intros. split; [discriminate|].
    intros (x & data & ? & (body & ? & _) & _). simplify_eq/=. }
  intros t status body. destruct (Z.eqb_spec status 200) as [-> | Hcode]; simpl.
  2:{ apply Spec_raise. split; [simpl; lia|]. intros. split; [discriminate|].
      intros (x & data & ? & (body' & ? & _) & _). simplify_eq/=. }
  apply Spec_Decode_bind_id.
  { intros e He. split; [simpl; lia|]. intros. split; [discriminate|].
    intros (x & data & ? & (body' & ? & ?) & _). simplify_eq/=. congruence. }
  intros data Hdata. apply Spec_ret. split; [simpl; lia|]. intros insights. split.
  - intros [= <-]. eexists _, data. split; [reflexivity|].
    split; [now exists body | apply foldl_applyMediaMetric].
  - intros (x & data' & ? & (body' & ? & ?) & ->). simplify_eq/=.
    rewrite foldl_applyMediaMetric. congruence.
Qed.

(** X10: [GetUserInsights] asks for the period it was given, and for "day"
    when it was given none.  It succeeds exactly when its one request was
    answered 200 with a body that decodes; each count of the result is then
    the first value of the last entry with that metric's name and a value,
    and the growth of the followers is the first value less the second one
    (as a 64-bit [int]) of the last "follower_count" entry that has two
    values, 0 when there is none. *)
Theorem GetUserInsights_reads_last_entries c period :
  Spec (Instagram.GetUserInsights c period)
       (fun r xs =>
          (length xs <= 1)%nat
          /\ Forall (fun x => assoc_get "period" (Query (request x))
                              = Some (if (period =? "")%string then "day" else period)) xs
          /\ forall insights,
               r = Ok insights
               <-> exists x data,
                     xs = [x] /\ answered (reply x) data /\ insights = userReadings data).
Proof.
  unfold Instagram.GetUserInsights.
  destruct ((Instagram.AccessToken c =? "")%string || (Instagram.UserID c =? "")%string).
  { apply Spec_raise. split; [simpl; lia|]. split; [constructor|].
    intros. split; [discriminate|]. intros (x & data & ? & _). discriminate. }
  cbv zeta. apply Spec_NewRequest_bind_id.
  { intros e _. split; [simpl; lia|]. split; [constructor|].
    intros. split; [discriminate|]. intros (x & data & ? & _). discriminate. }
  intros _. apply Spec_DoOrErr_bind.
  { intros t e. split; [simpl; lia|]. split; [repeat constructor|].
    intros. split; [discriminate|].
    intros (x & data & ? & (body & ? & _) & _). simplify_eq/=. }
  intros t status body. destruct (Z.eqb_spec status 200) as [-> | Hcode]; simpl.
  2:{ apply Spec_raise. split; [simpl; lia|]. split; [repeat constructor|].
      intros. split; [discriminate|].
      intros (x & data & ? & (body' & ? & _) & _). simplify_eq/=. }
  apply Spec_Decode_bind_id.
  { intros e He. split; [simpl; lia|]. split; [repeat constructor|].
    intros. split; [discriminate|].
    intros (x & data & ? & (body' & ? & ?) & _). simplify_eq/=. congruence. }
  intros data Hdata. apply Spec_ret. split; [simpl; lia|]. split; [repeat constructor|].
  intros insights. split.
  - intros [= <-]. eexists _, data. split; [reflexivity|].
    split; [now exists body | apply foldl_applyUserMetric].
  - intros (x & data' & ? & (body' & ? & ?) & ->). simplify_eq/=.
    rewrite foldl_applyUserMetric. congruence.
Qed.

End Insights.

(** ** The automatic replies *)

Section Replier.
Context `{HTTPLib} `{JSONDecode Twitter.TweetResponse} `{JSONDecode Twitter.TweetsResponse}.

(** [v, err := f(...)] where the caller looks at [err] and goes on. *)
Lemma Spec_attempt {A} (m : M A) (Q : outcome (string + A) -> list Exchange -> Prop) :
  Spec m (fun r xs => match r with
                      | Ok a => Q (Ok (inr a)) xs
                      | Err e => Q (Ok (inl e)) xs
                      | Panic p => Q (Panic p) xs
                      end) ->
  Spec (attempt m) Q.
Proof.
  intros Hm w r w' Hrun. unfold attempt in Hrun. destruct (m w) as [o w1] eqn:Hmw.
  destruct (Hm w o w1 Hmw) as (xs & Hlog & HQ).
  destruct o; inversion Hrun; subst; eauto.
Qed.

Lemma Spec_Print_bind {B} line (f : unit -> M B) (Q : outcome B -> list Exchange -> Prop) :
  Spec (f tt) Q -> Spec (Print line ≫= f) Q.
Proof.
  intros Hf w r w' Hrun. unfold mbind, M_bind, Print in Hrun.
  destruct (Hf _ r w' Hrun) as (xs & Hlog & HQ). now exists xs.
Qed.

Lemma Spec_Sleep_bind {B} d (f : unit -> M B) (Q : outcome B -> list Exchange -> Prop) :
  Spec (f tt) Q -> Spec (Sleep d ≫= f) Q.
Proof.
  intros Hf w r w' Hrun. unfold mbind, M_bind, Sleep in Hrun.
  destruct (Hf _ r w' Hrun) as (xs & Hlog & HQ). now exists xs.
Qed.

Lemma ReplyToTweet_replied c inReplyToTweetID text :
  Spec (Twitter.ReplyToTweet c inReplyToTweetID text)
       (fun r xs =>
          (forall p, r ≠ Panic p)
          /\ (length xs <= 1)%nat
          /\ (NewRequest_err "POST" (Twitter.BaseURL c +:+ "/tweets") [] = None ->
              request <$> xs = [replyRequest c inReplyToTweetID text])).
Proof.
  unfold Twitter.ReplyToTweet. walk.
  all: split; [intros p; discriminate|]; split; [simpl; lia|].
  all: intros Hreq; try reflexivity; congruence.
Qed.

Lemma SearchRecentTweets_found c query :
  Spec (Twitter.SearchRecentTweets c query 10)
       (fun r xs =>
          (forall p, r ≠ Panic p)
          /\ match xs with
             | [] => is_Ok r = false
             | x :: rest =>
                 rest = [] /\ request x = searchRequest c query
                 /\ forall tweets, r = Ok tweets <-> found (reply x) tweets
             end).
Proof.
  unfold Twitter.SearchRecentTweets. cbv zeta. change (0 <? 10) with true. cbv iota.
  apply Spec_NewRequest_bind.
  { intros e _. split; [discriminate | reflexivity]. }
  intros _. apply Spec_DoOrErr_bind.
  { intros t e. split; [discriminate|]. split; [reflexivity|]. split; [reflexivity|].
    intros tweets. split; [discriminate|].
    intros (resp & (body & ? & _) & _). discriminate. }
  intros t code body. destruct (Z.eqb_spec code 200) as [-> | Hcode]; simpl.
  2:{ apply Spec_raise. split; [discriminate|]. split; [reflexivity|]. split; [reflexivity|].
      intros tweets. split; [discriminate|].
      intros (resp & (body' & ? & _) & _). simplify_eq/=. }
  apply Spec_Decode_bind.
  { intros e He. split; [discriminate|]. split; [reflexivity|]. split; [reflexivity|].
    intros tweets. split; [discriminate|].
    intros (resp & (body' & ? & ?) & _). simplify_eq/=. congruence. }
  intros v Hv. apply Spec_ret. split; [discriminate|]. split; [reflexivity|].
  split; [reflexivity|]. intros tweets. split.
  - intros [= <-]. exists v. split; [now exists body | reflexivity].
  - intros (resp & (body' & ? & ?) & <-). simplify_eq/=. congruence.
Qed.

Lemma leb_refl (s : string) : String.leb s s = true.
Proof. now destruct (String.leb_total s s). Qed.

Lemma repliesTo_nil ar : repliesTo ar [] [].
Proof. split; [simpl; lia | reflexivity]. Qed.

Lemma same_client ar query id :
  Twitter.ReplierClient (Twitter.set_LastTweetID query id ar) = Twitter.ReplierClient ar
  /\ Twitter.ReplyContent (Twitter.set_LastTweetID query id ar) = Twitter.ReplyContent ar.
Proof. now split. Qed.

(** The loop over the tweets of one result. *)
Lemma replyOldestFirst_spec query lastID oldestFirst : forall ar,
  Spec (Twitter.replyOldestFirst ar query lastID oldestFirst)
       (fun r xs =>
          r = Ok (match last oldestFirst with
                  | Some newest =>
                      if Twitter.seenBefore lastID newest then ar
                      else Twitter.set_LastTweetID query (Twitter.ID newest) ar
                  | None => ar
                  end)
          /\ repliesTo ar (filter (isUnseen lastID) oldestFirst) xs).
Proof.
  induction oldestFirst as [|tweet newer IH]; intros ar; cbn [Twitter.replyOldestFirst].
  { apply Spec_ret. split; [reflexivity | apply repliesTo_nil]. }
  rewrite filter_cons, last_cons.
  destruct (decide (isUnseen lastID tweet)) as [Hseen | Hseen]; unfold isUnseen in Hseen;
    [|apply not_false_iff_true in Hseen]; rewrite Hseen.
  2:{ eapply Spec_weaken; [apply IH|]. intros r xs [-> Hxs]. split; [|exact Hxs].
    destruct (last newer); [reflexivity|]. now rewrite Hseen. }
  - cbv zeta.
    set (ar1 := match newer with
                | [] => Twitter.set_LastTweetID query (Twitter.ID tweet) ar
                | _ :: _ => ar
                end).
    assert (Hc : Twitter.ReplierClient ar1 = Twitter.ReplierClient ar
                 /\ Twitter.ReplyContent ar1 = Twitter.ReplyContent ar)
      by (unfold ar1; now destruct newer).
    destruct Hc as [Hclient Hcontent].
    apply Spec_bind with
      (Q1 := fun r xs =>
               is_Ok r = true
               /\ (length xs <= 1)%nat
               /\ (NewRequest_err "POST"
                     (Twitter.BaseURL (Twitter.ReplierClient ar) +:+ "/tweets") [] = None ->
                   request <$> xs
                   = [replyRequest (Twitter.ReplierClient ar) (Twitter.ID tweet)
                                   (Twitter.ReplyContent ar)])).
    + apply Spec_attempt. rewrite Hclient, Hcontent.
      eapply Spec_weaken; [apply ReplyToTweet_replied|].
      intros [a|e|p] xs (Hp & Hlen & Hreq); auto. now destruct (Hp p).
    + intros o xs Ho (Hok & _). congruence.
    + intros r xs1 (_ & Hxs1).
      destruct Hxs1 as [Hlen1 Hreq1].
      assert (Hrest : Spec (Twitter.replyOldestFirst ar1 query lastID newer)
                (fun r' xs2 =>
                   r' = Ok (match match last newer with
                                  | Some y => Some y
                                  | None => Some tweet
                                  end with
                            | Some newest =>
                                if Twitter.seenBefore lastID newest then ar
                                else Twitter.set_LastTweetID query (Twitter.ID newest) ar
                            | None => ar
                            end)
                   /\ repliesTo ar (tweet :: filter (isUnseen lastID) newer) (xs1 ++ xs2))).
      2:{ destruct r; apply Spec_Print_bind, Spec_Sleep_bind, Hrest. }
      eapply Spec_weaken; [apply IH|].
      intros r' xs2 [-> [Hlen2 Hreq2]]. split.
      * unfold ar1. destruct newer as [|next newer']; [simpl; now rewrite Hseen|].
        rewrite last_cons. now destruct (last newer').
      * rewrite Hclient, Hcontent in Hreq2. split.
        -- rewrite length_app. simpl. lia.
        -- intros Hreq. rewrite fmap_app, (Hreq1 Hreq), (Hreq2 Hreq). reflexivity.
Qed.

Lemma sameSetup_refl query ar : sameSetup query ar ar.
Proof. now repeat split. Qed.

Lemma sameSetup_set query id ar : sameSetup query ar (Twitter.set_LastTweetID query id ar).
Proof.
  repeat split. intros q Hq. simpl. now rewrite lookup_insert_ne.
Qed.

Lemma found_inj (a : HTTPResult) (tweets tweets' : list Twitter.Tweet) :
  found a tweets -> found a tweets' -> tweets = tweets'.
Proof.
  intros (resp & Hresp & <-) (resp' & Hresp' & <-).
  now rewrite (answered_inj a resp resp' Hresp Hresp').
Qed.

Lemma unseen_newest lastID newest older :
  Twitter.seenBefore lastID newest = false -> unseen lastID (newest :: older) ≠ [].
Proof.
  intros Hseen. unfold unseen. simpl. rewrite filter_app, filter_cons.
  rewrite decide_True by exact Hseen. now destruct (filter _ (rev older)).
Qed.

(** One pass over one query. *)
Lemma checkQuery_passDone ar query :
  Spec (Twitter.checkQuery ar query) (passDone ar query).
Proof.
  unfold Twitter.checkQuery.
  apply Spec_bind with
    (Q1 := fun r xs =>
             exists s, r = Ok s
               /\ match xs with
                  | [] => exists e, s = inl e
                  | x :: rest =>
                      rest = []
                      /\ request x = searchRequest (Twitter.ReplierClient ar) query
                      /\ forall tweets, s = inr tweets <-> found (reply x) tweets
                  end).
  - apply Spec_attempt. eapply Spec_weaken; [apply SearchRecentTweets_found|].
    intros [tweets|e|p] xs (Hp & Hxs); [| |now destruct (Hp p)].
    + eexists. split; [reflexivity|]. destruct xs as [|x rest]; [discriminate|].
      destruct Hxs as (-> & Hreq & Hiff). repeat split; auto.
      * intros [= ->]. now apply Hiff.
      * intros Hf. f_equal. apply Hiff in Hf. congruence.
    + eexists. split; [reflexivity|]. destruct xs as [|x rest]; [eauto|].
      destruct Hxs as (-> & Hreq & Hiff). repeat split; auto.
      * intros [=].
      * intros Hf. apply Hiff in Hf. discriminate.
  - intros o xs Ho (s & -> & _). discriminate.
  - intros s xs1 (s' & [= <-] & Hxs1). destruct s as [err|tweets].
    + apply Spec_Print_bind, Spec_ret. rewrite app_nil_r.
      exists ar. split; [reflexivity|]. split; [apply sameSetup_refl|].
      destruct xs1 as [|x rest]; [reflexivity|].
      destruct Hxs1 as (-> & Hreq & Hiff). split; [exact Hreq|]. split; [auto|].
      intros tweets Hf. apply Hiff in Hf. discriminate.
    + destruct xs1 as [|x rest]; [now destruct Hxs1|].
      destruct Hxs1 as (-> & Hreq & Hiff).
      assert (Hf : found (reply x) tweets) by now apply Hiff.
      destruct tweets as [|newest older]; cbn [length Nat.eqb].
      * apply Spec_ret. exists ar. split; [reflexivity|]. split; [apply sameSetup_refl|].
        split; [exact Hreq|]. split; [intros Hno; now destruct (Hno [])|].
        intros tweets Hf'. rewrite <- (found_inj _ _ _ Hf Hf'). cbv zeta.
        split; [apply repliesTo_nil|]. now split.
      * eapply Spec_weaken; [apply replyOldestFirst_spec|].
        intros r xs2 [-> Hreplies]. cbn [rev] in *. rewrite last_snoc. simpl.
        eexists. split; [reflexivity|].
        split; [destruct (Twitter.seenBefore _ newest);
                  [apply sameSetup_refl | apply sameSetup_set]|].
        split; [exact Hreq|]. split; [intros Hno; now destruct (Hno (newest :: older))|].
        intros tweets Hf'. rewrite <- (found_inj _ _ _ Hf Hf'). cbv zeta.
        split; [exact Hreplies|]. cbn [watermark].
        destruct (Twitter.seenBefore _ newest) eqn:Hseen.
        -- now split.
        -- split; [unfold Twitter.lastTweetID at 1; simpl; now rewrite lookup_insert_eq|].
           intros Hnone. now destruct (unseen_newest _ newest older Hseen).
Qed.

(** X11: one pass of [AutoReplier] over a query neither fails nor panics,
    whatever the remote side answers, and changes nothing of the replier
    but the tweet id remembered for that query.  It starts with the search
    for the query (ten results at most); when the search is not answered by
    a result nothing else is sent.  Otherwise the tweets of the result that
    were not seen before (there is no remembered id, or the tweet's id is
    greater than it as a string) are replied to, oldest first, one request
    per tweet with the configured text; and the remembered id becomes the
    id of the newest tweet of the result if that tweet was not seen before,
    whether or not the replies went through. *)
Theorem checkQuery_replies_to_unseen ar query :
  Spec (Twitter.checkQuery ar query) (passDone ar query).
Proof. apply checkQuery_passDone. Qed.

Lemma checkQueries_never_fail queries : forall ar,
  Spec (Twitter.checkQueries ar queries)
       (fun r xs =>
          exists ar',
            r = Ok ar'
            /\ Twitter.ReplierClient ar' = Twitter.ReplierClient ar
            /\ Twitter.SearchQueries ar' = Twitter.SearchQueries ar
            /\ Twitter.ReplyContent ar' = Twitter.ReplyContent ar
            /\ Twitter.CheckInterval ar' = Twitter.CheckInterval ar
            /\ forall q, q ∉ queries ->
                 Twitter.LastTweetIDs ar' !! q = Twitter.LastTweetIDs ar !! q).
Proof.
  induction queries as [|query rest IH]; intros ar; cbn [Twitter.checkQueries].
  { apply Spec_ret. exists ar. now repeat split. }
  eapply Spec_bind; [apply checkQuery_passDone | |].
  - intros o xs Ho (ar' & -> & _). discriminate.
  - intros ar1 xs1 (ar' & [= <-] & (Hc & Hq & Ht & Hi & Hl) & _).
    eapply Spec_weaken; [apply IH|].
    intros r xs2 (ar2 & -> & Hc2 & Hq2 & Ht2 & Hi2 & Hl2).
    exists ar2. split; [reflexivity|]. repeat split; try congruence.
    intros q Hq'. apply not_elem_of_cons in Hq' as [Hne Hrest].
    rewrite (Hl2 q Hrest). now apply Hl.
Qed.

(** X12: the body of a tick of [AutoReplier.Start], a pass over every
    query, always runs to its end: no answer of the remote side, no failed
    search and no failed reply makes it fail or panic.  It leaves the
    client, the queries, the reply text and the interval as they were, and
    changes the remembered tweet id of no query outside the list. *)
Theorem onCheck_never_fails ar :
  Spec (Twitter.onCheck ar)
       (fun r xs =>
          exists ar',
            r = Ok ar'
            /\ Twitter.ReplierClient ar' = Twitter.ReplierClient ar
            /\ Twitter.SearchQueries ar' = Twitter.SearchQueries ar
            /\ Twitter.ReplyContent ar' = Twitter.ReplyContent ar
            /\ Twitter.CheckInterval ar' = Twitter.CheckInterval ar
            /\ forall q, q ∉ Twitter.SearchQueries ar ->
                 Twitter.LastTweetIDs ar' !! q = Twitter.LastTweetIDs ar !! q).
Proof. apply checkQueries_never_fail. Qed.

Lemma unseen_none lastID tweets :
  lastID ≠ "" ->
  Forall (fun tweet => String.leb (Twitter.ID tweet) lastID = true) tweets ->
  unseen lastID tweets = [].
Proof.
  intros Hne Hall. unfold unseen.
  induction Hall as [|tweet tweets Hle Hall IH]; [reflexivity|].
  simpl. rewrite filter_app, IH, filter_cons, decide_False; [reflexivity|].
  unfold isUnseen, Twitter.seenBefore. rewrite Hle, (eqb_empty_false _ Hne). discriminate.
Qed.

(** X13: a pass that finds nothing new changes nothing.  When the id
    remembered for the query is not empty and every tweet of the search
    result has an id that is not greater than it as a string (as is the
    case when the same result comes back and its first tweet has the
    greatest id), the pass sends the search and no reply, and leaves the
    replier as it was. *)
Theorem checkQuery_nothing_new ar query :
  Twitter.lastTweetID ar query ≠ "" ->
  Spec (Twitter.checkQuery ar query)
       (fun r xs =>
          forall x rest tweets,
            xs = x :: rest -> found (reply x) tweets ->
            Forall (fun tweet => String.leb (Twitter.ID tweet) (Twitter.lastTweetID ar query)
                                 = true) tweets ->
            rest = [] /\ r = Ok ar).
Proof.
  intros Hne. eapply Spec_weaken; [apply checkQuery_passDone|].
  intros r xs (ar' & -> & _ & Hxs) x rest tweets -> Hf Hall.
  destruct Hxs as (_ & _ & Hfound). destruct (Hfound tweets Hf) as ([Hlen _] & _ & Hsame).
  rewrite (unseen_none _ _ Hne Hall) in Hlen, Hsame.
  split; [destruct rest; [reflexivity | simpl in Hlen; lia]|].
  now rewrite Hsame.
Qed.

End Replier.

(** ** The wrappers that make one request: failures and updates *)

Section Failures.
Context `{HTTPLib} `{JSONDecode Threads.Thread} `{JSONDecode (list Threads.Thread)}
        `{JSONDecode Threads.Reply} `{JSONDecode (list Threads.Reply)}
        `{JSONDecode Twitter.TweetResponse} `{JSONDecode Twitter.TweetsResponse}.

(** X14: no wrapper of [threads.go] and no tweet wrapper of [twitter.go]
    ever panics.  A wrapper that returns without having sent a request
    returns an error; a request that fails at the transport gives the error
    "error sending request: " followed by the transport's text; and an
    answer with an accepted status code whose body does not decode gives
    "error decoding response: " followed by the decoder's text. *)
Theorem failures_are_reported (call : Call) :
  Spec (invoke call)
       (fun r xs =>
          (forall p, r ≠ Panic p)
          /\ (xs = [] -> exists e, r = Err e)
          /\ (forall x e, x ∈ xs -> reply x = TransportError e ->
                r = Err ("error sending request: " +:+ e))
          /\ (forall x code body e,
                x ∈ xs -> reply x = Response code body -> accepts call code = true ->
                decoded call body = inl e ->
                r = Err ("error decoding response: " +:+ e))).
Proof.
  destruct call; unfold_call; walk.
  all: split; [intros p; discriminate|].
  all: split; [first [intros _; eexists; reflexivity | intros [=]]|].
  all: split; [intros x e' Hx Hr | intros x code' body' e' Hx Hr Hacc Hdec].
  all: repeat (apply elem_of_cons in Hx as [-> | Hx]); try (now apply not_elem_of_nil in Hx).
  all: cbn [reply] in Hr; try discriminate.
  all: try (injection Hr as <-; reflexivity).
  all: injection Hr as -> ->.
  all: cbn [accepts decoded map_outcome] in *.
  all: repeat match goal with
              | E : json_Decode ?b = _, Hd : context [json_Decode ?b] |- _ =>
                  rewrite E in Hd
              end.
  all: try discriminate; try (injection Hdec as <-; reflexivity).
  all: tests.
Qed.

Lemma given_lookup (title content : string) :
  let payload : gmap string string :=
    let payload := ∅ in
    let payload := if (title =? "")%string then payload else <["title" := title]> payload in
    if (content =? "")%string then payload else <["content" := content]> payload in
  payload !! "title" = given title /\ payload !! "content" = given content
  /\ (forall k, k ≠ "title" -> k ≠ "content" -> payload !! k = None)
  /\ ((size payload =? 0)%nat = true <-> title = "" /\ content = "").
Proof.
  cbv zeta. unfold given.
  destruct (String.eqb_spec title "") as [-> | Ht];
    destruct (String.eqb_spec content "") as [-> | Hc].
  all: rewrite ?map_size_insert_None, ?map_size_empty
         by (rewrite ?lookup_insert_ne by discriminate; apply lookup_empty).
  all: rewrite ?lookup_insert_eq, ?(lookup_insert_ne _ "content" "title") by discriminate.
  all: rewrite ?lookup_insert_eq, ?lookup_empty.
  all: split; [reflexivity|]; split; [reflexivity|]; split.
  all: try (intros k Hk1 Hk2; rewrite ?lookup_insert_ne by congruence; apply lookup_empty).
  all: split; try discriminate; try (intros [? ?]; congruence); auto.
Qed.

(** X15: [UpdateThread] sends only the fields it was given a value for: the
    body of its request holds the title exactly when the title is not
    empty, the content exactly when the content is not empty, and nothing
    else.  Given neither, for a thread ID that is not empty, it sends
    nothing and returns the error "no update parameters provided". *)
Theorem UpdateThread_sends_given_fields s threadID title content :
  Spec (Threads.UpdateThread s threadID title content)
       (fun r xs =>
          Forall (fun x => exists payload : gmap string string,
                      Body (request x) = Threads.payloadJSON payload
                      /\ payload !! "title" = given title
                      /\ payload !! "content" = given content
                      /\ forall k, k ≠ "title" -> k ≠ "content" -> payload !! k = None) xs
          /\ (title = "" -> content = "" ->
              xs = [] /\ (threadID ≠ "" -> r = Err "no update parameters provided"))).
Proof.
  unfold Threads.UpdateThread.
  destruct (String.eqb_spec threadID "") as [-> | Hid].
  { apply Spec_raise. split; [constructor|]. intros _ _. split; [reflexivity | congruence]. }
  destruct (given_lookup title content) as (Htitle & Hcontent & Hother & Hsize).
  cbv zeta in *.
  set (payload := if (content =? "")%string
                  then if (title =? "")%string then ∅ else <["title" := title]> ∅
                  else <["content" := content]>
                         (if (title =? "")%string then ∅ else <["title" := title]> ∅))
    in *.
  destruct (size payload =? 0)%nat eqn:Hempty.
  { apply Spec_raise. split; [constructor|]. intros _ _. now split. }
  assert (Hgiven : ~ (title = "" /\ content = ""))
    by (intros Hnone; apply Hsize in Hnone; congruence).
  walk.
  all: split; [repeat constructor; try (exists payload; now repeat split)|].
  all: intros Ht Hc; now destruct Hgiven.
Qed.

End Failures.

(** ** LinkedIn: profile, posts, uploads, company pages *)

Section LinkedInMore.
Context `{HTTPLib} `{MapRange} `{JSONDecode (gmap string JSON)}
        `{JSONDecode (list LinkedIn.Organization)}.

(** [v.(string)]: the value, or a panic. *)
Lemma Spec_must_string_bind {B} v (f : string -> M B)
    (Q : outcome B -> list Exchange -> Prop) :
  (as_string v = None -> forall p, Q (Panic p) []) ->
  (forall s, as_string v = Some s -> Spec (f s) Q) ->
  Spec (must_string v ≫= f) Q.
Proof.
  intros Hnone Hsome w r w' Hrun. unfold mbind, M_bind, must_string in Hrun.
  destruct (as_string v) as [s|].
  - exact (Hsome s eq_refl w r w' Hrun).
  - inversion Hrun; subst. exists []. rewrite app_nil_r. auto.
Qed.

Lemma Spec_must_map_bind {B} v (f : gmap string JSON -> M B)
    (Q : outcome B -> list Exchange -> Prop) :
  (as_map v = None -> forall p, Q (Panic p) []) ->
  (forall m, as_map v = Some m -> Spec (f m) Q) ->
  Spec (must_map v ≫= f) Q.
Proof.
  intros Hnone Hsome w r w' Hrun. unfold mbind, M_bind, must_map in Hrun.
  destruct (as_map v) as [m|].
  - exact (Hsome m eq_refl w r w' Hrun).
  - inversion Hrun; subst. exists []. rewrite app_nil_r. auto.
Qed.

(** [localized] either hands over a text or panics. *)
Lemma Spec_localized_bind {B} raw field old (f : string -> M B)
    (Q : outcome B -> list Exchange -> Prop) :
  (forall p, Q (Panic p) []) ->
  (forall s, Spec (f s) Q) ->
  Spec (LinkedIn.localized raw field old ≫= f) Q.
Proof.
  intros Hpanic Hf w r w' Hrun. unfold mbind, M_bind, LinkedIn.localized in Hrun.
  destruct (as_map (raw !! field)) as [m|]; [|exact (Hf old w r w' Hrun)].
  destruct (as_map (m !! "localized")) as [l|]; [|exact (Hf old w r w' Hrun)].
  destruct (size l =? 0)%nat; [exact (Hf old w r w' Hrun)|].
  unfold must_string in Hrun. destruct (as_string (range_first l)) as [s|].
  - exact (Hf s w r w' Hrun).
  - inversion Hrun; subst. exists []. rewrite app_nil_r. auto.
Qed.

Lemma GetUserProfile_profileDone c : Spec (LinkedIn.GetUserProfile c) (profileDone c).
Proof.
  unfold LinkedIn.GetUserProfile.
  assert (Hnone : forall r : outcome (LinkedIn.UserProfile * LinkedIn.LinkedInClient),
            is_Ok r = false -> profileDone c r []).
  { intros r Hr. split; [simpl; lia|]. split; [constructor|]. split.
    - intros profile c' ->. discriminate.
    - intros x raw Hx. now apply not_elem_of_nil in Hx. }
  assert (Hone : forall (r : outcome (LinkedIn.UserProfile * LinkedIn.LinkedInClient)) t a,
            is_Ok r = false ->
            (forall raw, answered a raw -> as_string (raw !! "id") = None ->
                         exists p, r = Panic p) ->
            profileDone c r [mkExchange t (profileRequest c) a]).
  { intros r t a Hr Hpanic. split; [simpl; lia|]. split; [repeat constructor|]. split.
    - intros profile c' ->. discriminate.
    - intros x raw Hx. apply list_elem_of_singleton in Hx as ->. apply Hpanic. }
  destruct (LinkedIn.AccessToken c =? "")%string; [now apply Spec_raise, Hnone|].
  cbv zeta. apply Spec_NewRequest_bind_id; [intros e _; now apply Hnone|].
  intros _. apply Spec_DoOrErr_bind.
  { intros t e. apply Hone; [reflexivity|]. intros raw (body & ? & _). discriminate. }
  intros t code body. destruct (Z.eqb_spec code 200) as [-> | Hcode]; simpl.
  2:{ apply Spec_raise, Hone; [reflexivity|]. intros raw (body' & ? & _). congruence. }
  apply Spec_Decode_bind_id.
  { intros e He. apply Hone; [reflexivity|]. intros raw (body' & ? & ?).
    simplify_eq/=. congruence. }
  intros rawProfile Hraw. apply Spec_must_string_bind.
  { intros Hid p. apply Hone; [reflexivity | eauto]. }
  intros profileID Hid.
  assert (Hpanic : forall p, profileDone c (Panic p)
                     [mkExchange t (profileRequest c) (Response 200 body)]).
  { intros p. apply Hone; [reflexivity | eauto]. }
  repeat (apply Spec_localized_bind; [exact Hpanic | intros ?]).
  apply Spec_ret. split; [simpl; lia|]. split; [repeat constructor|]. split.
  - intros profile c' [= <- <-]. eexists _, rawProfile. split; [reflexivity|].
    split; [now exists body|]. now repeat split.
  - intros x raw Hx (body' & ? & ?) Hno. apply list_elem_of_singleton in Hx as ->.
    simplify_eq/=. congruence.
Qed.

(** X16: [GetUserProfile] makes at most one request: a GET, with the
    bearer token, of "/me" under the [BaseURL] of the package, which is the
    Graph API address that [instagram.go] declares.  It returns a profile
    only for a 200 answer whose body decodes to an object with a string
    [id]; that id is the id of the profile and, from then on, the user ID
    of the client.  Picture, e-mail, industry, country and position of the
    profile are never filled.  A 200 answer whose body decodes to an object
    without a string [id] makes it panic. *)
Theorem GetUserProfile_remembers_id c :
  Spec (LinkedIn.GetUserProfile c) (profileDone c)
  /\ URL (profileRequest c) = "https://graph.facebook.com/v17.0/me"
  /\ bearer (LinkedIn.AccessToken c) (profileRequest c).
Proof. split; [apply GetUserProfile_profileDone | now split]. Qed.

(** A call whose error the caller prefixes. *)
Lemma Spec_wrapErr {A} (g : string -> string) (m : M A)
    (Q : outcome A -> list Exchange -> Prop) :
  Spec m (fun r xs => Q (match r with Err e => Err (g e) | _ => r end) xs) ->
  Spec (wrapErr g m) Q.
Proof.
  intros Hm w r w' Hrun. unfold wrapErr in Hrun. destruct (m w) as [o w1] eqn:Hmw.
  destruct (Hm w o w1 Hmw) as (xs & Hlog & HQ).
  destruct o; inversion Hrun; subst; eauto.
Qed.

Lemma resolveAuthor_resolved c authorType authorID :
  Spec (LinkedIn.resolveAuthor c authorType authorID)
       (fun r xs =>
          Forall (fun x => request x = profileRequest c) xs
          /\ forall t i c',
               r = Ok (t, i, c') ->
               t = authorKind authorType
               /\ LinkedIn.AccessToken c' = LinkedIn.AccessToken c
               /\ authorFrom c authorType authorID xs i).
Proof.
  unfold LinkedIn.resolveAuthor, authorFrom. cbv zeta. fold (authorKind authorType).
  destruct ((authorID =? "")%string && (authorKind authorType =? "person")%string).
  2:{ apply Spec_ret. split; [constructor|]. now intros t i c' [= <- <- <-]. }
  destruct (LinkedIn.UserID c =? "")%string.
  2:{ apply Spec_ret. split; [constructor|]. now intros t i c' [= <- <- <-]. }
  apply Spec_bind with
    (Q1 := fun r xs =>
             Forall (fun x => request x = profileRequest c) xs
             /\ forall profile c',
                  r = Ok (profile, c') ->
                  exists x rawProfile,
                    xs = [x] /\ answered (reply x) rawProfile
                    /\ as_string (rawProfile !! "id") = Some (LinkedIn.ID profile)
                    /\ c' = LinkedIn.set_UserID (LinkedIn.ID profile) c).
  - apply Spec_wrapErr. eapply Spec_weaken; [apply GetUserProfile_profileDone|].
    intros r xs (_ & Hreq & Hok & _). split; [exact Hreq|].
    intros profile c' Hr. destruct r as [[profile' c'']|e|p]; try discriminate.
    destruct (Hok profile c' Hr) as (x & raw & ? & ? & ? & ? & _). eauto 10.
  - intros o xs Ho [Hreq _]. split; [exact Hreq|]. intros t i c' Hr.
    destruct o; discriminate.
  - intros [profile c1] xs1 [Hreq Hok].
    destruct (Hok profile c1 eq_refl) as (x & raw & -> & Hans & Hid & ->).
    apply Spec_ret. rewrite app_nil_r. split; [exact Hreq|].
    intros t i c' [= <- <- <-]. split; [reflexivity|]. split; [reflexivity|].
    exists x, raw. inversion Hreq; subst. auto.
Qed.

Lemma posted_before c category description title text mediaURN authorType authorID xs :
  Forall (fun x => request x = profileRequest c) xs ->
  posted c category description title text mediaURN authorType authorID xs.
Proof.
  intros Hreq x Hx Hpost. rewrite Forall_forall in Hreq.
  rewrite (Hreq x Hx) in Hpost. discriminate.
Qed.

Lemma posted_last c category description title text mediaURN authorType authorID
    before authorID' t a :
  Forall (fun x => request x = profileRequest c) before ->
  authorFrom c authorType authorID before authorID' ->
  posted c category description title text mediaURN authorType authorID
    (before ++ [mkExchange t
                  (postRequest c
                     (LinkedIn.postData
                        ("urn:li:" +:+ authorKind authorType +:+ ":" +:+ authorID')
                        text category description mediaURN title)) a]).
Proof.
  intros Hreq Hfrom x Hx Hpost. apply elem_of_app in Hx as [Hx | Hx].
  - rewrite Forall_forall in Hreq. rewrite (Hreq x Hx) in Hpost. discriminate.
  - apply list_elem_of_singleton in Hx as ->. exists before, authorID'. auto.
Qed.

Lemma CreateImagePost_done c text imageAssetURN authorType authorID :
  Spec (LinkedIn.CreateImagePost c text imageAssetURN authorType authorID)
       (fun r xs =>
          posted c "IMAGE" "Image description" "Image title" text imageAssetURN
                 authorType authorID xs
          /\ forall resp c',
               r = Ok (resp, c') ->
               exists x code body postResp,
                 last xs = Some x /\ Method (request x) = "POST"
                 /\ reply x = Response code body /\ (code = 200 \/ code = 201)
                 /\ json_Decode body = inr postResp
                 /\ as_string (postResp !! "id") = Some (LinkedIn.PostID resp)
                 /\ LinkedIn.Status resp = "").
Proof.
  unfold LinkedIn.CreateImagePost.
  destruct (LinkedIn.AccessToken c =? "")%string.
  { apply Spec_raise. split; [now apply posted_before | discriminate]. }
  eapply Spec_bind; [apply resolveAuthor_resolved | |].
  { intros o xs Ho [Hreq _]. split; [now apply posted_before|]. now destruct o. }
  intros [[t i] c1] before [Hreq Hok].
  destruct (Hok t i c1 eq_refl) as (-> & Htok & Hfrom). cbv zeta. rewrite Htok.
  apply Spec_NewRequest_bind_id.
  { intros e _. rewrite app_nil_r. split; [now apply posted_before | discriminate]. }
  intros _. apply Spec_DoOrErr_bind.
  { intros t e. split; [now apply posted_last | discriminate]. }
  intros t code body.
  destruct (negb (code =? 201) && negb (code =? 200)) eqn:Hcode.
  { apply Spec_raise. split; [now apply posted_last | discriminate]. }
  apply Spec_Decode_bind_id.
  { intros e _. split; [now apply posted_last | discriminate]. }
  intros postResp Hresp. destruct (as_string (postResp !! "id")) as [postID|] eqn:Hid.
  2:{ apply Spec_raise. split; [now apply posted_last | discriminate]. }
  apply Spec_ret. split; [now apply posted_last|].
  intros resp c' [= <- <-]. eexists _, code, body, postResp. rewrite last_snoc.
  split; [reflexivity|]. split; [reflexivity|]. split; [reflexivity|].
  split; [tests|]. auto.
Qed.

(** X17: [CreateImagePost] makes a POST only as its last request, to the
    posts address, for the author "urn:li:" kind ":" id, where the kind is
    "person" unless another one was given and the id is the one given, or,
    for a person without an id, the user ID of the client, or, when that is
    empty too, the [id] of the answer to a profile request made first.  (No
    id given for another kind of author goes out as an empty id.)  It
    returns a post only when that POST was answered 200 or 201 with a body
    that decodes to an object with a string [id], which is the id of the
    post returned; the status of the post returned is always empty. *)
Theorem CreateImagePost_posts_for_author c text imageAssetURN authorType authorID :
  Spec (LinkedIn.CreateImagePost c text imageAssetURN authorType authorID)
       (fun r xs =>
          posted c "IMAGE" "Image description" "Image title" text imageAssetURN
                 authorType authorID xs
          /\ forall resp c',
               r = Ok (resp, c') ->
               exists x code body postResp,
                 last xs = Some x /\ Method (request x) = "POST"
                 /\ reply x = Response code body /\ (code = 200 \/ code = 201)
                 /\ json_Decode body = inr postResp
                 /\ as_string (postResp !! "id") = Some (LinkedIn.PostID resp)
                 /\ LinkedIn.Status resp = "").
Proof. apply CreateImagePost_done. Qed.

(** X18: [CreateVideoPost] makes its POST like [CreateImagePost]: as the
    last request, for the author found the same way.  It never returns a
    post: whenever that POST is answered 200 or 201 the function returns
    [nil] for the post next to a [nil] error, whatever the body says, and it
    succeeds in no other case. *)
Theorem CreateVideoPost_never_returns_a_post c text videoAssetURN authorType authorID :
  Spec (LinkedIn.CreateVideoPost c text videoAssetURN authorType authorID)
       (fun r xs =>
          posted c "VIDEO" "Video description" "Video title" text videoAssetURN
                 authorType authorID xs
          /\ (forall x code body,
                x ∈ xs -> Method (request x) = "POST" -> reply x = Response code body ->
                code = 200 \/ code = 201 ->
                exists c', r = Ok (None, c'))
          /\ (forall v c',
                r = Ok (v, c') ->
                v = None
                /\ exists x code body,
                     last xs = Some x /\ Method (request x) = "POST"
                     /\ reply x = Response code body /\ (code = 200 \/ code = 201))).
Proof.
  unfold LinkedIn.CreateVideoPost.
  assert (Hbefore : forall (r : outcome (option LinkedIn.PostResponse
                                          * LinkedIn.LinkedInClient)) xs,
            Forall (fun x => request x = profileRequest c) xs -> is_Ok r = false ->
            posted c "VIDEO" "Video description" "Video title" text videoAssetURN
                   authorType authorID xs
            /\ (forall x code body,
                  x ∈ xs -> Method (request x) = "POST" -> reply x = Response code body ->
                  code = 200 \/ code = 201 -> exists c', r = Ok (None, c'))
            /\ (forall v c',
                  r = Ok (v, c') ->
                  v = None
                  /\ exists x code body,
                       last xs = Some x /\ Method (request x) = "POST"
                       /\ reply x = Response code body /\ (code = 200 \/ code = 201))).
  { intros r xs Hreq Hr. split; [now apply posted_before|]. split.
    - intros x code body Hx Hpost. rewrite Forall_forall in Hreq.
      rewrite (Hreq x Hx) in Hpost. discriminate.
    - intros v c' ->. discriminate. }
  destruct (LinkedIn.AccessToken c =? "")%string.
  { apply Spec_raise. now apply Hbefore. }
  eapply Spec_bind; [apply resolveAuthor_resolved | |].
  { intros o xs Ho [Hreq _]. apply Hbefore; [exact Hreq | now destruct o]. }
  intros [[t i] c1] before [Hreq Hok].
  destruct (Hok t i c1 eq_refl) as (-> & Htok & Hfrom). cbv zeta. rewrite Htok.
  apply Spec_NewRequest_bind_id.
  { intros e _. rewrite app_nil_r. now apply Hbefore. }
  intros _.
  assert (Hlast : forall x t a,
            x ∈ before ++ [mkExchange t
                             (postRequest c
                                (LinkedIn.postData
                                   ("urn:li:" +:+ authorKind authorType +:+ ":" +:+ i) text
                                   "VIDEO" "Video description" videoAssetURN "Video title"))
                             a] ->
            Method (request x) = "POST" -> reply x = a).
  { intros x t a Hx Hpost. apply elem_of_app in Hx as [Hx | Hx].
    - rewrite Forall_forall in Hreq. rewrite (Hreq x Hx) in Hpost. discriminate.
    - now apply list_elem_of_singleton in Hx as ->. }
  apply Spec_DoOrErr_bind.
  { intros t e. split; [now apply posted_last|]. split; [|discriminate].
    intros x code body Hx Hpost Hr. rewrite (Hlast x t _ Hx Hpost) in Hr. discriminate. }
  intros t code body.
  destruct (negb (code =? 201) && negb (code =? 200)) eqn:Hcode.
  - apply Spec_raise. split; [now apply posted_last|]. split; [|discriminate].
    intros x code' body' Hx Hpost Hr Hc. rewrite (Hlast x t _ Hx Hpost) in Hr.
    injection Hr as -> ->. tests.
  - apply Spec_ret. split; [now apply posted_last|]. split.
    + intros x code' body' Hx Hpost Hr Hc. now exists c1.
    + intros v c' [= <- <-]. split; [reflexivity|].
      eexists _, code, body. rewrite last_snoc. repeat split. tests.
Qed.

Lemma registered_inj (a : HTTPResult) (value value' mech mech' : gmap string JSON) :
  registered a value mech -> registered a value' mech' -> value = value' /\ mech = mech'.
Proof.
  intros (resp & Hresp & Hv & Hm) (resp' & Hresp' & Hv' & Hm').
  rewrite <- (answered_inj a resp resp' Hresp Hresp') in Hv'.
  assert (value = value') as <- by congruence. split; congruence.
Qed.

Lemma InitiateImageUpload_initiated c imageType :
  Spec (LinkedIn.InitiateImageUpload c imageType) imageUploadInitiated.
Proof.
  unfold LinkedIn.InitiateImageUpload.
  assert (Hnone : forall r : outcome (string * gmap string JSON),
            is_Ok r = false -> imageUploadInitiated r []).
  { intros r Hr. split; [simpl; lia|]. split; [constructor|]. split.
    - intros asset mech. split; [intros ->; discriminate|].
      intros (x & value & info & url & ? & _). discriminate.
    - intros x value mech Hx. now apply not_elem_of_nil in Hx. }
  assert (Hone : forall (r : outcome (string * gmap string JSON)) t req a,
            Method req = "POST" -> URL req = LinkedIn.AssetUploadURL ->
            is_Ok r = false ->
            (forall value mech, registered a value mech ->
               (as_map (mech !! LinkedIn.mechanismKey) = None -> exists p, r = Panic p)
               /\ (forall info url asset,
                     as_map (mech !! LinkedIn.mechanismKey) = Some info ->
                     as_string (info !! "uploadUrl") = Some url ->
                     as_string (value !! "asset") = Some asset -> False)) ->
            imageUploadInitiated r [mkExchange t req a]).
  { intros r t req a Hm Hu Hr Hpanic. split; [simpl; lia|].
    split; [repeat constructor; assumption|]. split.
    - intros asset mech. split; [intros ->; discriminate|].
      intros (x & value & info & url & [= <-] & Hregd & Hasset & Hkey & Hurl).
      destruct (proj2 (Hpanic _ _ Hregd) _ _ _ Hkey Hurl Hasset).
    - intros x value mech Hx Hregd. apply list_elem_of_singleton in Hx as ->.
      apply (Hpanic _ _ Hregd). }
  destruct (LinkedIn.AccessToken c =? "")%string; [now apply Spec_raise, Hnone|].
  cbv zeta. apply Spec_NewRequest_bind_id; [intros e _; now apply Hnone|].
  intros _. apply Spec_DoOrErr_bind.
  { intros t e. apply Hone; try reflexivity.
    intros value mech (resp & (body & ? & _) & _). discriminate. }
  intros t code body. destruct (Z.eqb_spec code 200) as [-> | Hcode]; simpl.
  2:{ apply Spec_raise, Hone; try reflexivity.
      intros value mech (resp & (body' & ? & _) & _). congruence. }
  apply Spec_Decode_bind_id.
  { intros e He. apply Hone; try reflexivity.
    intros value mech (resp & (body' & ? & ?) & _). simplify_eq/=. congruence. }
  intros uploadResp Hresp.
  assert (Hreg : forall value mech,
            registered (Response 200 body) value mech ->
            as_map (uploadResp !! "value") = Some value
            /\ as_map (value !! "uploadMechanism") = Some mech).
  { intros value mech (resp & (body' & ? & ?) & Hv & Hm). simplify_eq/=.
    assert (resp = uploadResp) as -> by congruence. auto. }
  destruct (as_map (uploadResp !! "value")) as [value|] eqn:Hvalue.
  2:{ apply Spec_raise, Hone; try reflexivity.
      intros value mech Hr. destruct (Hreg _ _ Hr). discriminate. }
  destruct (as_map (value !! "uploadMechanism")) as [mech|] eqn:Hmech.
  2:{ apply Spec_raise, Hone; try reflexivity.
      intros value' mech Hr. destruct (Hreg _ _ Hr) as [[= <-] ?]. congruence. }
  assert (Hsame : forall value' mech',
            registered (Response 200 body) value' mech' -> value' = value /\ mech' = mech).
  { intros value' mech' Hr. destruct (Hreg _ _ Hr) as [[= <-] Hm]. split; congruence. }
  apply Spec_must_map_bind.
  { intros Hnokey p. apply Hone; try reflexivity.
    intros value' mech' Hr. destruct (Hsame _ _ Hr) as [-> ->].
    split; [eauto | congruence]. }
  intros uploadInfo Hkey. apply Spec_Print_bind.
  destruct (as_string (uploadInfo !! "uploadUrl")) as [uploadURL|] eqn:Hurl; cbn [default].
  2:{ apply Spec_raise, Hone; try reflexivity.
      intros value' mech' Hr. destruct (Hsame _ _ Hr) as [-> ->].
      split; [congruence|]. intros info url asset Hkey' Hurl'.
      assert (info = uploadInfo) as -> by congruence. congruence. }
  destruct (as_string (value !! "asset")) as [asset|] eqn:Hasset.
  2:{ apply Spec_raise, Hone; try reflexivity.
      intros value' mech' Hr. destruct (Hsame _ _ Hr) as [-> ->].
      split; congruence. }
  apply Spec_ret. split; [simpl; lia|]. split; [repeat constructor|]. split.
  - intros asset' mech'. split.
    + intros [= <- <-]. eexists _, value, uploadInfo, uploadURL.
      split; [reflexivity|]. split; [|auto].
      exists uploadResp. split; [now exists body | auto].
    + intros (x & value' & info & url & [= <-] & Hr & Hasset' & _).
      destruct (Hsame _ _ Hr) as [-> ->]. do 2 f_equal. congruence.
  - intros x value' mech' Hx Hr Hno. apply list_elem_of_singleton in Hx as ->.
    destruct (Hsame _ _ Hr) as [-> ->]. congruence.
Qed.

Lemma InitiateVideoUpload_initiated c :
  Spec (LinkedIn.InitiateVideoUpload c) videoUploadInitiated.
Proof.
  unfold LinkedIn.InitiateVideoUpload.
  assert (Hnone : forall e, videoUploadInitiated (Err e) []).
  { intros e. split; [discriminate|]. split; [simpl; lia|]. split; [constructor|].
    intros asset mech. split; [discriminate|]. intros (x & value & ? & _). discriminate. }
  assert (Hone : forall e t req a,
            Method req = "POST" -> URL req = LinkedIn.AssetUploadURL ->
            (forall value mech asset, registered a value mech ->
               as_string (value !! "asset") = Some asset -> False) ->
            videoUploadInitiated (Err e) [mkExchange t req a]).
  { intros e t req a Hm Hu Hno. split; [discriminate|]. split; [simpl; lia|].
    split; [repeat constructor; assumption|].
    intros asset mech. split; [discriminate|].
    intros (x & value & [= <-] & Hr & Hasset). destruct (Hno _ _ _ Hr Hasset). }
  destruct (LinkedIn.AccessToken c =? "")%string; [apply Spec_raise, Hnone|].
  cbv zeta. apply Spec_NewRequest_bind_id; [intros e _; apply Hnone|].
  intros _. apply Spec_DoOrErr_bind.
  { intros t e. apply Hone; try reflexivity.
    intros value mech asset (resp & (body & ? & _) & _). discriminate. }
  intros t code body. destruct (Z.eqb_spec code 200) as [-> | Hcode]; simpl.
  2:{ apply Spec_raise, Hone; try reflexivity.
      intros value mech asset (resp & (body' & ? & _) & _). congruence. }
  apply Spec_Decode_bind_id.
  { intros e He. apply Hone; try reflexivity.
    intros value mech asset (resp & (body' & ? & ?) & _). simplify_eq/=. congruence. }
  intros uploadResp Hresp.
  assert (Hreg : forall value mech,
            registered (Response 200 body) value mech ->
            as_map (uploadResp !! "value") = Some value
            /\ as_map (value !! "uploadMechanism") = Some mech).
  { intros value mech (resp & (body' & ? & ?) & Hv & Hm). simplify_eq/=.
    assert (resp = uploadResp) as -> by congruence. auto. }
  destruct (as_map (uploadResp !! "value")) as [value|] eqn:Hvalue.
  2:{ apply Spec_raise, Hone; try reflexivity.
      intros value mech asset Hr. destruct (Hreg _ _ Hr). discriminate. }
  destruct (as_map (value !! "uploadMechanism")) as [mech|] eqn:Hmech.
  2:{ apply Spec_raise, Hone; try reflexivity.
      intros value' mech asset Hr. destruct (Hreg _ _ Hr) as [[= <-] ?]. congruence. }
  destruct (as_string (value !! "asset")) as [asset|] eqn:Hasset.
  2:{ apply Spec_raise, Hone; try reflexivity.
      intros value' mech' asset Hr. destruct (Hreg _ _ Hr) as [[= <-] ?]. congruence. }
  apply Spec_ret. split; [discriminate|]. split; [simpl; lia|].
  split; [repeat constructor|]. intros asset' mech'. split.
  - intros [= <- <-]. eexists _, value. split; [reflexivity|]. split; [|exact Hasset].
    exists uploadResp. split; [now exists body | auto].
  - intros (x & value' & [= <-] & Hr & Hasset'). destruct (Hreg _ _ Hr) as [[= <-] Hm].
    do 2 f_equal; congruence.
Qed.

Lemma uploaded_nil (r : outcome string) : is_Ok r = false -> uploaded r [].
Proof.
  intros Hr. split; [|split].
  - intros x Hx. now apply not_elem_of_nil in Hx.
  - intros x Hx. now apply not_elem_of_nil in Hx.
  - intros urn ->. discriminate.
Qed.

Lemma uploaded_registration (r : outcome string) xs :
  (length xs <= 1)%nat -> Forall isRegister xs -> is_Ok r = false -> uploaded r xs.
Proof.
  intros Hlen Hreg Hr. destruct xs as [|reg [|? ?]]; [now apply uploaded_nil| |simpl in Hlen; lia].
  inversion Hreg as [|? ? [Hm Hu] _]; subst. split; [|split].
  - intros x Hx Hput. apply list_elem_of_singleton in Hx as ->. congruence.
  - intros x Hx _. apply list_elem_of_singleton in Hx as ->. now repeat split.
  - intros urn ->. discriminate.
Qed.

Lemma uploaded_put (r : outcome string) reg value mech request uploadURL asset t contents a :
  isRegister reg ->
  registered (reply reg) value mech ->
  as_map (mech !! LinkedIn.mechanismKey) = Some request ->
  as_string (request !! "uploadUrl") = Some uploadURL ->
  as_string (value !! "asset") = Some asset ->
  (forall urn, r = Ok urn ->
     urn = asset /\ exists code body, a = Response code body /\ code ∈ [200; 201; 204]) ->
  uploaded r [reg; mkExchange t (mkRequest "PUT" uploadURL [] [] (RawBody contents)) a].
Proof.
  intros Hreg Hregd Hkey Hurl Hasset Hr. destruct Hreg as [Hm Hu]. split; [|split].
  - intros x Hx Hput. apply elem_of_cons in Hx as [-> | Hx]; [congruence|].
    apply list_elem_of_singleton in Hx as ->. exists reg, value, mech, request.
    now repeat split.
  - intros x Hx Hput. apply elem_of_cons in Hx as [-> | Hx]; [now repeat split|].
    apply list_elem_of_singleton in Hx as ->. now destruct Hput.
  - intros urn Hurn. destruct (Hr urn Hurn) as (-> & code & body & -> & Hcode).
    eexists reg, _, value, mech, code, body. now repeat split.
Qed.

Lemma accepted_upload (code : Z) :
  negb (code =? 200) && negb (code =? 201) && negb (code =? 204) = false ->
  code ∈ [200; 201; 204].
Proof.
  intros Hcode.
  destruct (Z.eqb_spec code 200) as [E | ?]; [subst; apply elem_of_cons; now left|].
  destruct (Z.eqb_spec code 201) as [E | ?];
    [subst; apply elem_of_cons; right; apply elem_of_cons; now left|].
  destruct (Z.eqb_spec code 204) as [E | ?]; [subst|discriminate].
  do 2 (apply elem_of_cons; right). apply elem_of_cons; now left.
Qed.

Lemma UploadImage_uploaded c imagePath :
  Spec (LinkedIn.UploadImage c imagePath)
       (fun r xs =>
          uploaded r xs
          /\ forall x value mech,
               head xs = Some x -> registered (reply x) value mech ->
               as_map (mech !! LinkedIn.mechanismKey) = None ->
               xs = [x] /\ exists p, r = Panic p).
Proof.
  unfold LinkedIn.UploadImage.
  destruct (LinkedIn.AccessToken c =? "")%string.
  { apply Spec_raise. split; [now apply uploaded_nil | discriminate]. }
  eapply Spec_bind; [apply InitiateImageUpload_initiated | |].
  { intros o xs Ho (Hlen & Hreg & _ & Hpanic). split.
    - apply uploaded_registration; auto. now destruct o.
    - intros x value mech Hx Hr Hno. destruct xs as [|y [|? ?]]; simplify_eq/=; [|lia].
      split; [reflexivity|].
      destruct (Hpanic x value mech) as [p ->]; auto; [|now exists p].
      apply elem_of_cons; now left. }
  intros [assetURN mech] xs1 (_ & Hreg & Hok & _).
  destruct (proj1 (Hok assetURN mech) eq_refl)
    as (reg & value & request & uploadURL & -> & Hregd & Hasset & Hkey & Hurl).
  inversion Hreg as [|? ? Hisreg _]; subst.
  assert (Hstop : forall r : outcome string,
            is_Ok r = false ->
            uploaded r ([reg] ++ [])
            /\ forall x value' mech',
                 head ([reg] ++ []) = Some x -> registered (reply x) value' mech' ->
                 as_map (mech' !! LinkedIn.mechanismKey) = None ->
                 [reg] ++ [] = [x] /\ exists p, r = Panic p).
  { intros r Hr. split.
    - apply uploaded_registration; auto; simpl; lia.
    - intros x value' mech' [= <-] Hr' Hno.
      destruct (registered_inj _ _ _ _ _ Hregd Hr') as [_ <-]. congruence. }
  apply Spec_must_map_bind; [intros Hno p; congruence|].
  intros request' Hkey'. assert (request' = request) as -> by congruence. rewrite Hurl.
  apply Spec_silent_bind; [apply silent_ReadFile | |].
  { intros o Ho. apply Hstop. now destruct o. }
  intros contents. apply Spec_NewRequest_bind_id; [intros e _; now apply Hstop|].
  intros _.
  assert (Hput : forall (r : outcome string) t a,
            (forall urn, r = Ok urn ->
               urn = assetURN
               /\ exists code body, a = Response code body /\ code ∈ [200; 201; 204]) ->
            uploaded r ([reg] ++ [mkExchange t (mkRequest "PUT" uploadURL [] []
                                                 (RawBody contents)) a])
            /\ forall x value' mech',
                 head ([reg] ++ [mkExchange t (mkRequest "PUT" uploadURL [] []
                                                (RawBody contents)) a]) = Some x ->
                 registered (reply x) value' mech' ->
                 as_map (mech' !! LinkedIn.mechanismKey) = None ->
                 [reg] ++ [mkExchange t (mkRequest "PUT" uploadURL [] []
                                           (RawBody contents)) a] = [x]
                 /\ exists p, r = Panic p).
  { intros r t a Hr. split.
    - now apply (uploaded_put r reg value mech request uploadURL assetURN).
    - intros x value' mech' [= <-] Hr' Hno.
      destruct (registered_inj _ _ _ _ _ Hregd Hr') as [_ <-]. congruence. }
  apply Spec_DoOrErr_bind; [intros t e; apply Hput; discriminate|].
  intros t code body.
  destruct (negb (code =? 200) && negb (code =? 201) && negb (code =? 204)) eqn:Hcode.
  - apply Spec_raise, Hput. discriminate.
  - apply Spec_ret, Hput. intros urn [= <-]. split; [reflexivity|].
    exists code, body. split; [reflexivity | now apply accepted_upload].
Qed.

Lemma UploadVideo_uploaded c videoPath :
  Spec (LinkedIn.UploadVideo c videoPath)
       (fun r xs =>
          uploaded r xs
          /\ (forall p, r ≠ Panic p)
          /\ forall x value mech,
               head xs = Some x -> registered (reply x) value mech ->
               as_map (mech !! LinkedIn.mechanismKey) = None ->
               xs = [x]
               /\ (as_string (value !! "asset") ≠ None ->
                   r = Err "invalid upload mechanism format")).
Proof.
  unfold LinkedIn.UploadVideo.
  destruct (LinkedIn.AccessToken c =? "")%string.
  { apply Spec_raise. split; [now apply uploaded_nil|]. split; discriminate. }
  eapply Spec_bind; [apply InitiateVideoUpload_initiated | |].
  { intros o xs Ho (Hnp & Hlen & Hreg & Hiff). split; [|split].
    - apply uploaded_registration; auto. now destruct o.
    - destruct o; try discriminate. intros p' [= <-]. now destruct (Hnp p).
    - intros x value mech Hx Hr Hno. destruct xs as [|y [|? ?]]; simplify_eq/=; [|lia].
      split; [reflexivity|]. intros Hasset.
      destruct (as_string (value !! "asset")) as [asset|] eqn:Ha; [|congruence].
      destruct (Hiff asset mech) as [_ Hback].
      rewrite Hback in Ho by (exists x, value; auto). discriminate. }
  intros [assetURN mech] xs1 (_ & _ & Hreg & Hiff).
  destruct (Hiff assetURN mech) as [Hok _].
  destruct (Hok eq_refl) as (reg & value & -> & Hregd & Hasset).
  inversion Hreg as [|? ? Hisreg _]; subst.
  assert (Hstop : forall e,
            (as_map (mech !! LinkedIn.mechanismKey) = None ->
             e = "invalid upload mechanism format") ->
            uploaded (Err e) ([reg] ++ [])
            /\ (forall p, Err (A := string) e ≠ Panic p)
            /\ forall x value' mech',
                 head ([reg] ++ []) = Some x -> registered (reply x) value' mech' ->
                 as_map (mech' !! LinkedIn.mechanismKey) = None ->
                 [reg] ++ [] = [x]
                 /\ (as_string (value' !! "asset") ≠ None ->
                     Err (A := string) e = Err "invalid upload mechanism format")).
  { intros e He. split; [|split; [discriminate|]].
    - apply uploaded_registration; auto; simpl; lia.
    - intros x value' mech' [= <-] Hr' Hno.
      destruct (registered_inj _ _ _ _ _ Hregd Hr') as [_ <-].
      split; [reflexivity|]. intros _. now rewrite He. }
  destruct (as_map (mech !! LinkedIn.mechanismKey)) as [uploadInfo|] eqn:Hkey.
  2:{ apply Spec_raise, Hstop. reflexivity. }
  destruct (as_string (uploadInfo !! "uploadUrl")) as [uploadURL|] eqn:Hurl.
  2:{ apply Spec_raise, Hstop. discriminate. }
  intros w r w' Hrun. unfold mbind at 1, M_bind at 1, ReadFile in Hrun.
  destruct (fs w !! videoPath) as [contents|].
  2:{ inversion Hrun; subst. exists []. split; [now rewrite app_nil_r|].
      apply Hstop. discriminate. }
  revert w r w' Hrun. change (Spec (NewRequest "PUT" uploadURL [] (RawBody contents)
    ≫= λ uploadReq, DoOrErr id uploadReq
    ≫= λ '(code, bodyBytes),
         if negb (code =? 200) && negb (code =? 201) && negb (code =? 204)
         then raise ("failed to upload video: " +:+ bodyBytes +:+ ", status: " +:+ itoa code)
         else mret assetURN)
    (fun r xs2 =>
       uploaded r ([reg] ++ xs2)
       /\ (forall p, r ≠ Panic p)
       /\ forall x value' mech',
            head ([reg] ++ xs2) = Some x -> registered (reply x) value' mech' ->
            as_map (mech' !! LinkedIn.mechanismKey) = None ->
            [reg] ++ xs2 = [x]
            /\ (as_string (value' !! "asset") ≠ None ->
                r = Err "invalid upload mechanism format"))).
  apply Spec_NewRequest_bind_id; [intros e _; apply Hstop; discriminate|].
  intros _.
  assert (Hput : forall (r : outcome string) t a,
            (forall p, r ≠ Panic p) ->
            (forall urn, r = Ok urn ->
               urn = assetURN
               /\ exists code body, a = Response code body /\ code ∈ [200; 201; 204]) ->
            uploaded r ([reg] ++ [mkExchange t (mkRequest "PUT" uploadURL [] []
                                                 (RawBody contents)) a])
            /\ (forall p, r ≠ Panic p)
            /\ forall x value' mech',
                 head ([reg] ++ [mkExchange t (mkRequest "PUT" uploadURL [] []
                                                (RawBody contents)) a]) = Some x ->
                 registered (reply x) value' mech' ->
                 as_map (mech' !! LinkedIn.mechanismKey) = None ->
                 [reg] ++ [mkExchange t (mkRequest "PUT" uploadURL [] []
                                           (RawBody contents)) a] = [x]
                 /\ (as_string (value' !! "asset") ≠ None ->
                     r = Err "invalid upload mechanism format")).
  { intros r t a Hnp Hr. split; [|split; [exact Hnp|]].
    - now apply (uploaded_put r reg value mech uploadInfo uploadURL assetURN).
    - intros x value' mech' [= <-] Hr' Hno.
      destruct (registered_inj _ _ _ _ _ Hregd Hr') as [_ <-]. congruence. }
  apply Spec_DoOrErr_bind; [intros t e; apply Hput; discriminate|].
  intros t code body.
  destruct (negb (code =? 200) && negb (code =? 201) && negb (code =? 204)) eqn:Hcode.
  - apply Spec_raise, Hput; discriminate.
  - apply Spec_ret, Hput; [discriminate|]. intros urn [= <-]. split; [reflexivity|].
    exists code, body. split; [reflexivity | now apply accepted_upload].
Qed.

(** X19: an upload ([UploadImage], [UploadVideo]) registers the upload and
    then makes at most one more request: a PUT, without any header, to the
    upload URL that the registration answer gives under the HTTP mechanism;
    the asset it returns is the one of that answer, once the PUT was
    answered 200, 201 or 204.  When the registration answer has no entry for
    the HTTP mechanism, nothing more is sent, and the two functions differ:
    [UploadImage] panics, on the type assertion in [InitiateImageUpload];
    [UploadVideo], which never panics, returns the error "invalid upload
    mechanism format" (if the answer names an asset). *)
Theorem upload_without_mechanism c path :
  Spec (LinkedIn.UploadImage c path)
       (fun r xs =>
          uploaded r xs
          /\ forall x value mech,
               head xs = Some x -> registered (reply x) value mech ->
               as_map (mech !! LinkedIn.mechanismKey) = None ->
               xs = [x] /\ exists p, r = Panic p)
  /\ Spec (LinkedIn.UploadVideo c path)
          (fun r xs =>
             uploaded r xs
             /\ (forall p, r ≠ Panic p)
             /\ forall x value mech,
                  head xs = Some x -> registered (reply x) value mech ->
                  as_map (mech !! LinkedIn.mechanismKey) = None ->
                  xs = [x]
                  /\ (as_string (value !! "asset") ≠ None ->
                      r = Err "invalid upload mechanism format")).
Proof. split; [apply UploadImage_uploaded | apply UploadVideo_uploaded]. Qed.

Lemma InitiateImageUpload_fs c imageType w :
  fs (LinkedIn.InitiateImageUpload c imageType w).2 = fs w.
Proof.
  unfold LinkedIn.InitiateImageUpload.
  destruct (LinkedIn.AccessToken c =? "")%string; [reflexivity|].
  cbv zeta. unfold mbind at 1, M_bind at 1, NewRequest.
  destruct (NewRequest_err _ _ _); [reflexivity|].
  unfold mret at 1, M_ret at 1. unfold mbind at 1, M_bind at 1, DoOrErr.
  unfold mbind at 1, M_bind at 1, Do. cbv beta iota zeta.
  destruct (match script w with
            | [] => TransportError "connection refused"
            | a :: _ => a
            end) as [e|code body]; [reflexivity|].
  unfold mret at 1, M_ret at 1. cbv beta iota.
  destruct (negb (code =? 200)); [reflexivity|].
  unfold mbind at 1, M_bind at 1, Decode.
  destruct (json_Decode body) as [e|uploadResp]; [reflexivity|].
  unfold mret at 1, M_ret at 1. cbv beta iota.
  destruct (as_map (uploadResp !! "value")) as [value|]; [|reflexivity].
  destruct (as_map (value !! "uploadMechanism")) as [mech|]; [|reflexivity].
  unfold mbind at 1, M_bind at 1, must_map.
  destruct (as_map (mech !! LinkedIn.mechanismKey)) as [info|]; [|reflexivity].
  unfold mret at 1, M_ret at 1. cbv beta iota.
  unfold mbind at 1, M_bind at 1, Print. cbv beta iota.
  destruct (as_string (info !! "uploadUrl")); [|reflexivity].
  destruct (as_string (value !! "asset")); reflexivity.
Qed.

(** With a token and a request that can be built, [InitiateImageUpload]
    sends the registration request, whatever follows. *)
Lemma InitiateImageUpload_sends c imageType w :
  LinkedIn.AccessToken c ≠ "" ->
  NewRequest_err "POST" LinkedIn.AssetUploadURL [] = None ->
  log (LinkedIn.InitiateImageUpload c imageType w).2
  = log w ++ [mkExchange (clock w) (imageRegistration c) (nextAnswer w)].
Proof.
  intros Htok Hreq. unfold LinkedIn.InitiateImageUpload.
  rewrite (eqb_empty_false _ Htok).
  cbv zeta. unfold mbind at 1, M_bind at 1, NewRequest. rewrite Hreq.
  unfold mret at 1, M_ret at 1. unfold mbind at 1, M_bind at 1, DoOrErr.
  unfold mbind at 1, M_bind at 1, Do. cbv beta iota zeta. fold (nextAnswer w).
  destruct (nextAnswer w) as [e|code body]; [reflexivity|].
  unfold mret at 1, M_ret at 1. cbv beta iota.
  destruct (negb (code =? 200)); [reflexivity|].
  unfold mbind at 1, M_bind at 1, Decode.
  destruct (json_Decode body) as [e|uploadResp]; [reflexivity|].
  unfold mret at 1, M_ret at 1. cbv beta iota.
  destruct (as_map (uploadResp !! "value")) as [value|]; [|reflexivity].
  destruct (as_map (value !! "uploadMechanism")) as [mech|]; [|reflexivity].
  unfold mbind at 1, M_bind at 1, must_map.
  destruct (as_map (mech !! LinkedIn.mechanismKey)) as [info|]; [|reflexivity].
  unfold mret at 1, M_ret at 1. cbv beta iota.
  unfold mbind at 1, M_bind at 1, Print. cbv beta iota.
  destruct (as_string (info !! "uploadUrl")); [|reflexivity].
  destruct (as_string (value !! "asset")); reflexivity.
Qed.

(** X20: [UploadImage] opens the file only after the upload has been
    registered.  When the file cannot be read, the function fails and makes
    no PUT, but the registration request has gone out all the same by then:
    with a token and a request that can be built, exactly that one request
    was sent and answered; and on an answer that registers the upload in
    full, the error returned is that of opening the file. *)
Theorem UploadImage_opens_file_late c imagePath w :
  fs w !! imagePath = None ->
  let run := LinkedIn.UploadImage c imagePath w in
  exists xs,
    log run.2 = log w ++ xs
    /\ (length xs <= 1)%nat /\ Forall isRegister xs
    /\ is_Ok run.1 = false
    /\ (LinkedIn.AccessToken c ≠ "" ->
        NewRequest_err "POST" LinkedIn.AssetUploadURL [] = None ->
        xs = [mkExchange (clock w) (imageRegistration c) (nextAnswer w)])
    /\ forall x value mech uploadInfo uploadURL asset,
         xs = [x] -> registered (reply x) value mech ->
         as_map (mech !! LinkedIn.mechanismKey) = Some uploadInfo ->
         as_string (uploadInfo !! "uploadUrl") = Some uploadURL ->
         as_string (value !! "asset") = Some asset ->
         run.1 = Err ("open " +:+ imagePath +:+ ": no such file or directory").
Proof.
  intros Hfile run. unfold run, LinkedIn.UploadImage.
  destruct (LinkedIn.AccessToken c =? "")%string eqn:Htok.
  { exists []. rewrite app_nil_r. split; [reflexivity|]. split; [simpl; lia|].
    split; [constructor|]. split; [reflexivity|]. split.
    - intros Hne. apply String.eqb_eq in Htok. contradiction.
    - intros ? ? ? ? ? ? [=]. }
  pose proof (InitiateImageUpload_fs c "image" w) as Hfs.
  pose proof (InitiateImageUpload_sends c "image" w) as Hsends.
  destruct (LinkedIn.InitiateImageUpload c "image" w) as [o w1] eqn:Hinit.
  destruct (InitiateImageUpload_initiated c "image" w o w1 Hinit)
    as (xs & Hlog & Hlen & Hreg & Hiff & _).
  simpl in Hfs, Hsends. exists xs.
  assert (Hsent : LinkedIn.AccessToken c ≠ "" ->
                  NewRequest_err "POST" LinkedIn.AssetUploadURL [] = None ->
                  xs = [mkExchange (clock w) (imageRegistration c) (nextAnswer w)]).
  { intros Hne Hreq. specialize (Hsends Hne Hreq). rewrite Hlog in Hsends.
    now apply app_inv_head in Hsends. }
  assert (Hfull : forall x value mech uploadInfo uploadURL asset,
            xs = [x] -> registered (reply x) value mech ->
            as_map (mech !! LinkedIn.mechanismKey) = Some uploadInfo ->
            as_string (uploadInfo !! "uploadUrl") = Some uploadURL ->
            as_string (value !! "asset") = Some asset ->
            o = Ok (asset, mech)).
  { intros x value mech info url asset -> Hregd Hkey Hurl Hasset. apply Hiff.
    exists x, value, info, url. auto. }
  destruct o as [[assetURN mech]|e|p];
    [rewrite (bind_Ok _ _ _ _ _ Hinit) | rewrite (bind_Err _ _ _ _ _ Hinit)
    | rewrite (bind_Panic _ _ _ _ _ Hinit)]; simpl.
  2,3: split; [exact Hlog|]; split; [exact Hlen|]; split; [exact Hreg|];
       split; [reflexivity|]; split; [exact Hsent|];
       intros x value mech' info url asset Hxs Hregd Hkey Hurl Hasset;
       now specialize (Hfull _ _ _ _ _ _ Hxs Hregd Hkey Hurl Hasset).
  destruct (proj1 (Hiff assetURN mech) eq_refl)
    as (reg & value & uploadInfo & uploadURL & -> & Hregd & Hasset & Hkey & Hurl).
  unfold mbind, M_bind, must_map, mret, M_ret. rewrite Hkey, Hurl.
  unfold ReadFile. rewrite Hfs, Hfile. simpl.
  split; [exact Hlog|]. split; [exact Hlen|]. split; [exact Hreg|].
  split; [reflexivity|]. now split.
Qed.

(** X21: in [PostWithImage] the asset that the registration answer names
    is the media of the post: whenever the request that creates the post
    goes out, the first request of the run was the registration, its answer
    registered the upload with an asset, and the post document carries that
    asset, for the author found as in [CreateImagePost]. *)
Theorem PostWithImage_posts_registered_asset c text imagePath authorType authorID :
  Spec (LinkedIn.PostWithImage c text imagePath authorType authorID)
       (fun r xs =>
          forall x,
            x ∈ xs -> Method (request x) = "POST" ->
            URL (request x) = LinkedIn.UGCPostURL ->
            exists reg value mech asset authorID',
              head xs = Some reg /\ isRegister reg
              /\ registered (reply reg) value mech
              /\ as_string (value !! "asset") = Some asset
              /\ request x
                 = postRequest c
                     (LinkedIn.postData
                        ("urn:li:" +:+ authorKind authorType +:+ ":" +:+ authorID')
                        text "IMAGE" "Image description" asset "Image title")).
Proof.
  unfold LinkedIn.PostWithImage.
  apply Spec_bind with (Q1 := fun r xs => uploaded r xs).
  - apply Spec_wrapErr. eapply Spec_weaken; [apply UploadImage_uploaded|].
    intros r xs [(Hput & Hother & Hok) _]. split; [exact Hput|]. split; [exact Hother|].
    intros urn Hr. destruct r; try discriminate. now apply Hok.
  - intros o xs Ho (Hput & Hother & _) x Hx Hpost Hurl.
    destruct (Hother x Hx) as [_ [_ Hu]]; [congruence|]. rewrite Hu in Hurl. discriminate.
  - intros assetURN xs1 (Hput & Hother & Hok).
    destruct (Hok assetURN eq_refl)
      as (reg & put & value & mech & code & body & -> & Hm & Hregd & Hasset & _).
    assert (Hisreg : isRegister reg).
    { destruct (Hother reg) as [_ Hreg]; auto.
      - apply elem_of_cons; now left.
      - destruct (Hput put) as (reg' & ? & ? & ? & [= <-] & [Hpost _] & _); auto.
        + apply elem_of_cons; right. apply elem_of_cons; now left.
        + congruence. }
    eapply Spec_weaken; [apply CreateImagePost_done|].
    intros r xs2 [Hposted _] x Hx Hpost Hurl.
    apply elem_of_app in Hx as [Hx | Hx].
    + apply elem_of_cons in Hx as [-> | Hx].
      * destruct Hisreg as [_ Hu]. rewrite Hu in Hurl. discriminate.
      * apply list_elem_of_singleton in Hx as ->. congruence.
    + destruct (Hposted x Hx Hpost) as (before & authorID' & _ & _ & Hreq).
      exists reg, value, mech, assetURN, authorID'. auto.
Qed.








End LinkedInMore.

(** ** Publishing a carousel *)

Section CarouselPublish.
Context `{HTTPLib} `{JSONDecode Instagram.MediaResponse} `{JSONDecode (gmap string JSON)}.

Lemma item_not_publish c path t a :
  isPublish (mkExchange t (itemRequest c path) a) = false.
Proof.
  unfold isPublish, itemRequest, Instagram.carouselItemParams, Instagram.carouselItemKind.
  simpl. now destruct (HasSuffix (ToLower path) ".mp4").
Qed.

Lemma poll_not_carousel url (polls : list Exchange) :
  Forall (fun p => request p = pollRequest url) polls ->
  Forall (fun p => isPublish p = false /\ isCarousel p = false) polls.
Proof.
  intros Hpolls. eapply Forall_impl; [exact Hpolls|].
  intros p Hp. unfold isPublish, isCarousel. now rewrite Hp.
Qed.

Lemma wait_if_needed_quiet c (v : Instagram.MediaResponse) :
  Spec (if (Instagram.StatusURL v =? "")%string then mret tt
        else Instagram.waitForMediaProcessing c (Instagram.StatusURL v))
       (fun r xs => Forall (fun p => isPublish p = false /\ isCarousel p = false) xs).
Proof.
  destruct (Instagram.StatusURL v =? "")%string.
  - apply Spec_ret. constructor.
  - eapply Spec_weaken; [apply poll_pollsDone|].
    intros r xs (_ & Hreq & _). now apply poll_not_carousel in Hreq.
Qed.

Lemma carouselChildren_quiet c mediaPaths : forall childrenIDs,
  Spec (Instagram.carouselChildren c mediaPaths childrenIDs)
       (fun r xs => Forall (fun p => isPublish p = false /\ isCarousel p = false) xs).
Proof.
  induction mediaPaths as [|mediaPath rest IH]; intros ids; cbn [Instagram.carouselChildren].
  { apply Spec_ret. constructor. }
  apply Spec_NewRequest_bind_id; [intros; constructor|]. intros _.
  assert (Hitem : forall t a,
            isPublish (mkExchange t (itemRequest c mediaPath) a) = false
            /\ isCarousel (mkExchange t (itemRequest c mediaPath) a) = false)
    by (intros; split; [apply item_not_publish | apply item_not_carousel]).
  apply Spec_DoOrErr_bind; [intros t e; repeat constructor; apply Hitem|].
  intros t code body. destruct (negb (code =? 200)).
  { apply Spec_raise. repeat constructor; apply Hitem. }
  apply Spec_Decode_bind_id; [intros e _; repeat constructor; apply Hitem|].
  intros v _. eapply Spec_bind; [apply wait_if_needed_quiet | |].
  - intros o xs _ Hxs. constructor; [apply Hitem | exact Hxs].
  - intros u xs1 Hxs1. eapply Spec_weaken; [apply IH|].
    intros r xs2 Hxs2. constructor; [apply Hitem|]. now apply Forall_app.
Qed.

(** X23: [PostCarousel] sends a publish request only as its last request,
    right after the request that creates the carousel was answered 200 with
    a body that decodes, and for the id that body carried (not for the id of
    an item); every request before those two is an item request or a status
    poll.  What [PostCarousel] returns is the decoded 200 answer to the
    publish request. *)
Theorem PostCarousel_publishes_the_carousel c mediaPaths caption :
  Spec (Instagram.PostCarousel c mediaPaths caption) (carouselPublished c).
Proof.
  unfold Instagram.PostCarousel.
  assert (Hstop : forall (r : outcome Instagram.MediaResponse) xs,
            Forall (fun p => isPublish p = false) xs -> is_Ok r = false ->
            carouselPublished c r xs).
  { intros r xs Hno Hr. split.
    - intros x Hx Hpub. rewrite Forall_forall in Hno. rewrite (Hno x Hx) in Hpub.
      discriminate.
    - intros v ->. discriminate. }
  destruct ((Instagram.AccessToken c =? "")%string || (Instagram.UserID c =? "")%string).
  { apply Spec_raise, Hstop; [constructor | reflexivity]. }
  eapply Spec_bind; [apply carouselChildren_quiet | |].
  { intros o xs Ho Hxs. apply Hstop; [|now destruct o].
    eapply Forall_impl; [exact Hxs|]. now intros p [? _]. }
  intros childrenIDs before Hbefore.
  assert (Hquiet : Forall (fun p => isPublish p = false) before)
    by (eapply Forall_impl; [exact Hbefore|]; now intros p [? _]).
  cbv zeta. apply Spec_NewRequest_bind_id.
  { intros e _. rewrite app_nil_r. now apply Hstop. }
  intros _.
  assert (Halone : forall (r : outcome Instagram.MediaResponse) x,
            isPublish x = false -> is_Ok r = false -> carouselPublished c r (before ++ [x])).
  { intros r x Hx Hr. apply Hstop; [|exact Hr]. apply Forall_app. split; [exact Hquiet|].
    now repeat constructor. }
  apply Spec_DoOrErr_bind; [intros t e; now apply Halone|].
  intros t code body. destruct (Z.eqb_spec code 200) as [-> | Hcode]; simpl.
  2:{ apply Spec_raise. now apply Halone. }
  apply Spec_Decode_bind_id; [intros e _; now apply Halone|].
  intros carouselResp Hresp. eapply Spec_weaken; [apply publish_done|].
  intros r xs [[-> Hr] | (t' & a & -> & Hr)]; [now apply Halone|].
  split.
  - intros x Hx Hpub. apply elem_of_app in Hx as [Hx | Hx].
    { rewrite Forall_forall in Hquiet. rewrite (Hquiet x Hx) in Hpub. discriminate. }
    apply elem_of_cons in Hx as [-> | Hx]; [discriminate|].
    apply list_elem_of_singleton in Hx as ->.
    eexists before, _, carouselResp. split; [reflexivity|]. split; [exact Hbefore|].
    split; [reflexivity|]. split; [now exists body | reflexivity].
  - intros v Hv. eexists.
    change (before ++ [?x; ?y]) with (before ++ [x] ++ [y]).
    rewrite app_assoc, last_snoc. split; [reflexivity|]. split; [reflexivity|].
    now apply Hr.
Qed.

End CarouselPublish.

(** ** Every wrapper: the answer that is not accepted *)

Section ReportRules.
Context `{HTTPLib}.
Context (accepts : Request -> Z -> bool).












End ReportRules.



Section InstagramReports.
Context `{HTTPLib} `{Instagram.FormEncoding} `{JSONDecode (gmap string JSON)}
        `{JSONDecode Instagram.MediaResponse} `{JSONDecode Instagram.TokenResponse}
        `{JSONDecode (list Instagram.Metric)}.






End InstagramReports.

Section LinkedInReports.
Context `{HTTPLib} `{Instagram.FormEncoding} `{MapRange} `{JSONDecode (gmap string JSON)}
        `{JSONDecode Instagram.TokenResponse} `{JSONDecode (list LinkedIn.Organization)}.















End LinkedInReports.

(** ** Every wrapper: the answer that is accepted *)

Section ReturnRules.
Context `{HTTPLib}.
Context {A R : Type} (final : Exchange -> bool) (accepts : Request -> Z -> bool)
        (reads : string -> R -> Prop) (g : A -> R).

Lemma Returns_quiet (r : outcome R) xs :
  Forall (fun x => final x = false) xs -> Returns final accepts reads r xs.
Proof.
  intros Hq x code body v Hx Hf. rewrite Forall_forall in Hq.
  rewrite (Hq x Hx) in Hf. discriminate.
Qed.

Lemma Returns_nil (r : outcome R) : Returns final accepts reads r [].
Proof. apply Returns_quiet. constructor. Qed.




Lemma Spec_Returns_silent_bind {A'} (m : M A') (f : A' -> M A) :
  silent m ->
  (forall a, Spec (f a) (fun r xs => Returns final accepts reads (map_outcome g r) xs)) ->
  Spec (m ≫= f) (fun r xs => Returns final accepts reads (map_outcome g r) xs).
Proof.
  intros Hm Hf. apply Spec_silent_bind; [exact Hm | | exact Hf].
  intros o _. apply Returns_nil.
Qed.



End ReturnRules.





(** At a [return] after the answer that carries the result: either the
    status code was not accepted, or the body does not stand for a result,
    or the result returned is the one the body stands for. *)
Ltac settle :=
  split; [reflexivity|];
  let Hacc := fresh "Hacc" in
  let v := fresh "v" in
  let Hreads := fresh "Hreads" in
  intros Hacc v Hreads;
  unfold OnInstagram.accepts, OnInstagram.accepted, OnLinkedIn.accepts,
    OnLinkedIn.accepted in Hacc;
  simpl in Hacc; rewrite ?andb_false_r, ?orb_false_r in Hacc;
  cbn [map_outcome stopped fst snd];
  try solve [exfalso; tests];
  cbn [OnInstagram.decoded OnLinkedIn.reads] in Hreads;
  repeat match goal with
         | E : json_Decode ?b = _, Hd : context [json_Decode ?b] |- _ => rewrite E in Hd
         end;
  try discriminate;
  try (injection Hreads as <-; reflexivity).

Section InstagramReturns.
Context `{HTTPLib} `{Instagram.FormEncoding} `{JSONDecode (gmap string JSON)}
        `{JSONDecode Instagram.MediaResponse} `{JSONDecode Instagram.TokenResponse}
        `{JSONDecode (list Instagram.Metric)}.


End InstagramReturns.

Section LinkedInReturns.
Context `{HTTPLib} `{Instagram.FormEncoding} `{MapRange} `{JSONDecode (gmap string JSON)}
        `{JSONDecode Instagram.TokenResponse} `{JSONDecode (list LinkedIn.Organization)}.




(** What the answer to the request that creates a post stands for. *)
Ltac posted :=
  settle;
  match goal with
  | Hreads : exists _, _ |- _ =>
      let Hresp := fresh "Hresp" in
      let Hid := fresh "Hid" in
      destruct Hreads as (? & ? & Hresp & Hid & ->);
      try discriminate; injection Hresp as <-; congruence
  end.












End LinkedInReturns.

(** ** Every wrapper of the four files *)

Section EveryWrapper.
Context `{HTTPLib} `{Instagram.FormEncoding} `{MapRange} `{JSONDecode (gmap string JSON)}
        `{JSONDecode Instagram.MediaResponse} `{JSONDecode Instagram.TokenResponse}
        `{JSONDecode (list Instagram.Metric)} `{JSONDecode (list LinkedIn.Organization)}
        `{JSONDecode Threads.Thread} `{JSONDecode (list Threads.Thread)}
        `{JSONDecode Threads.Reply} `{JSONDecode (list Threads.Reply)}
        `{JSONDecode Twitter.TweetResponse} `{JSONDecode Twitter.TweetsResponse}.



End EveryWrapper.

(** ** The further statements at work on sample runs *)

Section MoreRuns.
Import Cases.

Lemma waitForMediaProcessing_bounded_run :
  let w := world [Samples.pendingAnswer; Samples.finishedAnswer] in
  let run := Instagram.waitForMediaProcessing ig Samples.statusURL w in
  (exists xs,
     log run.2 = log w ++ xs
     /\ (length xs <= 30)%nat
     /\ Forall (fun x => request x = pollRequest Samples.statusURL) xs
     /\ clock w <= clock run.2 <= clock w + 60
     /\ (NewRequest_err "GET" Samples.statusURL [] = None ->
         clock run.2 = clock w + 2 * Z.of_nat (length xs)))
  /\ clock run.2 = 4.
Proof.
  intros w run. split; [|vm_compute; reflexivity].
  apply (waitForMediaProcessing_bounded ig Samples.statusURL w).
Defined.

Lemma waitForMediaProcessing_course_run :
  let w := world [Samples.pendingAnswer; Response 200 "<html>"; Samples.finishedAnswer] in
  holdsAt (Instagram.waitForMediaProcessing ig Samples.statusURL) w
          (fun r xs =>
             (forall init x, xs = init ++ [x] -> Forall pendingPoll init)
             /\ (r = Ok tt ->
                 exists init x, xs = init ++ [x] /\ verdict (reply x) = Finished))
  /\ (Instagram.waitForMediaProcessing ig Samples.statusURL w).1
     = Err "invalid character looking for beginning of value".
Proof.
  intros w. split; [|vm_compute; reflexivity].
  apply (waitForMediaProcessing_course ig Samples.statusURL w _ _), surjective_pairing.
Defined.

Lemma PostReel_publishes_what_it_created_run :
  let w := world [Samples.containerAnswer; Samples.pendingAnswer; Samples.finishedAnswer;
                  Samples.publishedAnswer] in
  let m := Instagram.PostReel ig "https://cdn.example.com/a.mp4" "caption" "" false in
  holdsAt m w (reelDone ig)
  /\ (m w).1 = Ok (Instagram.mkMediaResponse "17890" "")
  /\ last (sent (m w).2) = Some (publishRequest ig "17889").
Proof.
  intros w m. split; [|vm_compute; split; reflexivity].
  apply (PostReel_publishes_what_it_created ig "https://cdn.example.com/a.mp4" "caption" ""
           false w _ _), surjective_pairing.
Defined.

Lemma PostImage_publishes_at_once_run :
  let w := world [Samples.containerAnswer; Samples.publishedAnswer] in
  let m := Instagram.PostImage ig "https://cdn.example.com/a.jpg" "caption" in
  holdsAt m w (imageDone ig "https://cdn.example.com/a.jpg" "caption")
  /\ sent (m w).2 = [imageRequest ig "https://cdn.example.com/a.jpg" "caption";
                     publishRequest ig "17889"].
Proof.
  intros w m. split; [|vm_compute; reflexivity].
  apply (PostImage_publishes_at_once ig "https://cdn.example.com/a.jpg" "caption" w _ _),
    surjective_pairing.
Defined.


Lemma renewal_replaces_token_run :
  let w := world [Response 200 tokenText] in
  holdsAt (Instagram.RefreshAccessToken ig) w
          (renewed ig (Instagram.BaseURL +:+ "/refresh_access_token") "ig_refresh_token")
  /\ (Instagram.RefreshAccessToken ig w).1
     = Ok (sampleToken, Instagram.set_AccessToken "LONGTOKEN" ig).
Proof.
  intros w. split; [|vm_compute; reflexivity].
  apply (proj2 (renewal_replaces_token ig) w _ _), surjective_pairing.
Defined.

Lemma renewed_token_is_presented_next_run :
  let w := world [Response 200 tokenText; Response 200 tokenText] in
  let m := '(_, c') ← Instagram.GetLongLivedAccessToken ig;
           Instagram.RefreshAccessToken c' in
  (exists xs,
     log (m w).2 = log w ++ xs
     /\ forall x1 rest tokenResp,
          xs = x1 :: rest -> answered (reply x1) tokenResp ->
          let tok := Instagram.TokenAccessToken tokenResp in
          if (tok =? "")%string
          then rest = [] /\ (m w).1 = Err "no access token available"
          else Forall (fun x => assoc_get "access_token" (Query (request x)) = Some tok)
                      rest
               /\ (NewRequest_err "GET" (Instagram.BaseURL +:+ "/refresh_access_token")
                     [("grant_type", "ig_refresh_token"); ("access_token", tok)] = None ->
                   length rest = 1%nat))
  /\ (fun req => assoc_get "access_token" (Query req)) <$> sent (m w).2
     = [Some "IGTOKEN"; Some "LONGTOKEN"].
Proof.
  intros w m. split; [|vm_compute; reflexivity].
  apply (renewed_token_is_presented_next ig w _ _), surjective_pairing.
Defined.

Lemma GetAccessToken_fills_client_run :
  let w := world [Response 200 tokenText] in
  let m := Instagram.GetAccessToken newcomer "AUTHCODE" in
  (exists xs,
     log (m w).2 = log w ++ xs
     /\ (length xs <= 1)%nat
     /\ Forall (fun x => Method (request x) = "POST"
                         /\ URL (request x) = Instagram.InstagramAPIURL
                         /\ Query (request x) = []
                         /\ Body (request x)
                            = RawBody (Instagram.Encode (codeForm newcomer "AUTHCODE"))) xs
     /\ forall tokenResp c',
          (m w).1 = Ok (tokenResp, c') ->
          (exists x, xs = [x] /\ answered (reply x) tokenResp)
          /\ Instagram.AccessToken c' = Instagram.TokenAccessToken tokenResp
          /\ Instagram.UserID c' = itoa (Instagram.TokenUserID tokenResp)
          /\ forall op,
               unready c' op = (Instagram.TokenAccessToken tokenResp =? "")%string)
  /\ (m w).1
     = Ok (sampleToken,
           Instagram.mkInstagramClient "app" "secret" "https://example.com/cb"
                                       "LONGTOKEN" "17841400000").
Proof.
  intros w m. split; [|vm_compute; reflexivity].
  apply (GetAccessToken_fills_client newcomer "AUTHCODE" w _ _), surjective_pairing.
Defined.

Lemma GetMediaInsights_reads_last_entries_run :
  let w := world [Response 200 metricsText] in
  let m := Instagram.GetMediaInsights ig "17890" in
  (exists xs,
     log (m w).2 = log w ++ xs
     /\ (length xs <= 1)%nat
     /\ forall insights,
          (m w).1 = Ok insights
          <-> exists x data,
                xs = [x] /\ answered (reply x) data /\ insights = mediaReadings data)
  /\ (m w).1 = Ok (Instagram.mkMediaInsights 0 0 150 0 0 0 0 0 0).
Proof.
  intros w m. split; [|vm_compute; reflexivity].
  apply (GetMediaInsights_reads_last_entries ig "17890" w _ _), surjective_pairing.
Defined.

Lemma GetUserInsights_reads_last_entries_run :
  let w := world [Response 200 metricsText] in
  let m := Instagram.GetUserInsights ig "" in
  (exists xs,
     log (m w).2 = log w ++ xs
     /\ (length xs <= 1)%nat
     /\ Forall (fun x => assoc_get "period" (Query (request x))
                         = Some (if ("" =? "")%string then "day" else "")) xs
     /\ forall insights,
          (m w).1 = Ok insights
          <-> exists x data,
                xs = [x] /\ answered (reply x) data /\ insights = userReadings data)
  /\ (m w).1 = Ok (Instagram.mkUserInsights 210 10 0 150 0 0).
Proof.
  intros w m. split; [|vm_compute; reflexivity].
  apply (GetUserInsights_reads_last_entries ig "" w _ _), surjective_pairing.
Defined.

Lemma checkQuery_replies_to_unseen_run :
  let ar := Twitter.set_LastTweetID "golang" "1001" replier in
  let w := world [Response 200 searchText] in
  let m := Twitter.checkQuery ar "golang" in
  holdsAt m w (passDone ar "golang")
  /\ sent (m w).2
     = [searchRequest tw "golang"; replyRequest tw "1002" "Thanks for sharing!";
        replyRequest tw "1003" "Thanks for sharing!"]
  /\ (m w).1 = Ok caughtUp.
Proof.
  intros ar w m. split; [|vm_compute; split; reflexivity].
  apply (checkQuery_replies_to_unseen ar "golang" w _ _), surjective_pairing.
Defined.

Lemma onCheck_never_fails_run :
  let w := world [Response 503 "over capacity"] in
  let m := Twitter.onCheck replier in
  (exists xs,
     log (m w).2 = log w ++ xs
     /\ exists ar',
          (m w).1 = Ok ar'
          /\ Twitter.ReplierClient ar' = Twitter.ReplierClient replier
          /\ Twitter.SearchQueries ar' = Twitter.SearchQueries replier
          /\ Twitter.ReplyContent ar' = Twitter.ReplyContent replier
          /\ Twitter.CheckInterval ar' = Twitter.CheckInterval replier
          /\ forall q, q ∉ Twitter.SearchQueries replier ->
               Twitter.LastTweetIDs ar' !! q = Twitter.LastTweetIDs replier !! q)
  /\ (m w).1 = Ok replier.
Proof.
  intros w m. split; [|vm_compute; reflexivity].
  apply (onCheck_never_fails replier w _ _), surjective_pairing.
Defined.

Lemma checkQuery_nothing_new_run :
  let w := world [Response 200 searchText] in
  let m := Twitter.checkQuery caughtUp "golang" in
  (exists xs,
     log (m w).2 = log w ++ xs
     /\ forall x rest tweets,
          xs = x :: rest -> found (reply x) tweets ->
          Forall (fun tweet => String.leb (Twitter.ID tweet)
                                          (Twitter.lastTweetID caughtUp "golang") = true)
                 tweets ->
          rest = [] /\ (m w).1 = Ok caughtUp)
  /\ sent (m w).2 = [searchRequest tw "golang"].
Proof.
  intros w m. split; [|vm_compute; reflexivity].
  apply (checkQuery_nothing_new caughtUp "golang"); [|apply surjective_pairing].
  intros E. vm_compute in E. discriminate.
Defined.

Lemma failures_are_reported_run :
  let call := ListThreads ts 1 20 in
  let w := world [] in
  (exists xs,
     log (invoke call w).2 = log w ++ xs
     /\ (forall p, (invoke call w).1 ≠ Panic p)
     /\ (xs = [] -> exists e, (invoke call w).1 = Err e)
     /\ (forall x e, x ∈ xs -> reply x = TransportError e ->
           (invoke call w).1 = Err ("error sending request: " +:+ e))
     /\ (forall x code body e,
           x ∈ xs -> reply x = Response code body -> accepts call code = true ->
           decoded call body = inl e ->
           (invoke call w).1 = Err ("error decoding response: " +:+ e)))
  /\ (invoke call w).1 = Err "error sending request: connection refused".
Proof.
  intros call w. split; [|vm_compute; reflexivity].
  apply (failures_are_reported call w _ _), surjective_pairing.
Defined.

Lemma UpdateThread_sends_given_fields_run :
  let w := world [Response 200 Samples.threadText] in
  let m := Threads.UpdateThread ts "t1" "" "Second thoughts" in
  (exists xs,
     log (m w).2 = log w ++ xs
     /\ Forall (fun x => exists payload : gmap string string,
                  Body (request x) = Threads.payloadJSON payload
                  /\ payload !! "title" = given ""
                  /\ payload !! "content" = given "Second thoughts"
                  /\ forall k, k ≠ "title" -> k ≠ "content" -> payload !! k = None) xs
     /\ ("" = "" -> "Second thoughts" = "" ->
         xs = [] /\ ("t1" ≠ "" -> (m w).1 = Err "no update parameters provided")))
  /\ Body <$> sent (m w).2
     = [JSONBody (JObject {[ "content" := JString "Second thoughts" ]})]
  /\ (Threads.UpdateThread ts "t1" "" "" w).1 = Err "no update parameters provided".
Proof.
  intros w m. split; [|vm_compute; split; reflexivity].
  apply (UpdateThread_sends_given_fields ts "t1" "" "Second thoughts" w _ _),
    surjective_pairing.
Defined.

Lemma GetUserProfile_remembers_id_run :
  let w := world [Response 200 profileText] in
  holdsAt (LinkedIn.GetUserProfile stranger) w (profileDone stranger)
  /\ (LinkedIn.GetUserProfile stranger w).1
     = Ok (LinkedIn.mkUserProfile "u99" "" "" "" "" "" "" "" "",
           LinkedIn.set_UserID "u99" stranger)
  /\ (exists p, (LinkedIn.GetUserProfile stranger (world [Response 200 pageText])).1
                = Panic p).
Proof.
  intros w. split; [|vm_compute; split; [reflexivity | eexists; reflexivity]].
  apply (proj1 (GetUserProfile_remembers_id stranger) w _ _), surjective_pairing.
Defined.

Lemma CreateImagePost_posts_for_author_run :
  let w := world [Response 200 profileText; Response 201 postText] in
  let m := LinkedIn.CreateImagePost stranger "launch" "urn:li:digitalmediaAsset:1" "" "" in
  (exists xs,
     log (m w).2 = log w ++ xs
     /\ posted stranger "IMAGE" "Image description" "Image title" "launch"
               "urn:li:digitalmediaAsset:1" "" "" xs
     /\ forall resp c',
          (m w).1 = Ok (resp, c') ->
          exists x code body postResp,
            last xs = Some x /\ Method (request x) = "POST"
            /\ reply x = Response code body /\ (code = 200 \/ code = 201)
            /\ json_Decode body = inr postResp
            /\ as_string (postResp !! "id") = Some (LinkedIn.PostID resp)
            /\ LinkedIn.Status resp = "")
  /\ sent (m w).2
     = [profileRequest stranger;
        postRequest stranger
          (LinkedIn.postData "urn:li:person:u99" "launch" "IMAGE" "Image description"
                             "urn:li:digitalmediaAsset:1" "Image title")]
  /\ (m w).1 = Ok (LinkedIn.mkPostResponse "urn:li:share:1" "",
                   LinkedIn.set_UserID "u99" stranger).
Proof.
  intros w m. split; [|vm_compute; split; reflexivity].
  apply (CreateImagePost_posts_for_author stranger "launch" "urn:li:digitalmediaAsset:1"
           "" "" w _ _), surjective_pairing.
Defined.

Lemma CreateVideoPost_never_returns_a_post_run :
  let w := world [Response 201 postText] in
  let m := LinkedIn.CreateVideoPost li "launch" "urn:li:digitalmediaAsset:1" "" "" in
  (exists xs,
     log (m w).2 = log w ++ xs
     /\ posted li "VIDEO" "Video description" "Video title" "launch"
               "urn:li:digitalmediaAsset:1" "" "" xs
     /\ (forall x code body,
           x ∈ xs -> Method (request x) = "POST" -> reply x = Response code body ->
           code = 200 \/ code = 201 ->
           exists c', (m w).1 = Ok (None, c'))
     /\ (forall v c',
           (m w).1 = Ok (v, c') ->
           v = None
           /\ exists x code body,
                last xs = Some x /\ Method (request x) = "POST"
                /\ reply x = Response code body /\ (code = 200 \/ code = 201)))
  /\ (m w).1 = Ok (None, li).
Proof.
  intros w m. split; [|vm_compute; reflexivity].
  apply (CreateVideoPost_never_returns_a_post li "launch" "urn:li:digitalmediaAsset:1"
           "" "" w _ _), surjective_pairing.
Defined.

Lemma upload_without_mechanism_run :
  let w := world [Response 200 bareRegisterText] in
  (exists xs,
     log (LinkedIn.UploadVideo li "/tmp/clip.mp4" w).2 = log w ++ xs
     /\ uploaded (LinkedIn.UploadVideo li "/tmp/clip.mp4" w).1 xs
     /\ (forall p, (LinkedIn.UploadVideo li "/tmp/clip.mp4" w).1 ≠ Panic p)
     /\ forall x value mech,
          head xs = Some x -> registered (reply x) value mech ->
          as_map (mech !! LinkedIn.mechanismKey) = None ->
          xs = [x]
          /\ (as_string (value !! "asset") ≠ None ->
              (LinkedIn.UploadVideo li "/tmp/clip.mp4" w).1
              = Err "invalid upload mechanism format"))
  /\ (LinkedIn.UploadVideo li "/tmp/clip.mp4" w).1 = Err "invalid upload mechanism format"
  /\ (LinkedIn.UploadImage li "/tmp/logo.png" w).1
     = Panic "interface conversion: interface {} is not map[string]interface {}".
Proof.
  intros w. split; [|vm_compute; split; reflexivity].
  apply (proj2 (upload_without_mechanism li "/tmp/clip.mp4") w _ _), surjective_pairing.
Defined.

Lemma UploadImage_opens_file_late_run :
  let w := world [Response 200 registerText] in
  let run := LinkedIn.UploadImage li "/tmp/logo.png" w in
  (exists xs,
     log run.2 = log w ++ xs
     /\ (length xs <= 1)%nat /\ Forall isRegister xs
     /\ is_Ok run.1 = false
     /\ (LinkedIn.AccessToken li ≠ "" ->
         NewRequest_err "POST" LinkedIn.AssetUploadURL [] = None ->
         xs = [mkExchange (clock w) (imageRegistration li) (nextAnswer w)])
     /\ forall x value mech uploadInfo uploadURL asset,
          xs = [x] -> registered (reply x) value mech ->
          as_map (mech !! LinkedIn.mechanismKey) = Some uploadInfo ->
          as_string (uploadInfo !! "uploadUrl") = Some uploadURL ->
          as_string (value !! "asset") = Some asset ->
          run.1 = Err ("open " +:+ "/tmp/logo.png" +:+ ": no such file or directory"))
  /\ run.1 = Err "open /tmp/logo.png: no such file or directory"
  /\ Method <$> sent run.2 = ["POST"].
Proof.
  intros w run. split; [|vm_compute; split; reflexivity].
  apply (UploadImage_opens_file_late li "/tmp/logo.png" w). reflexivity.
Defined.

Lemma PostWithImage_posts_registered_asset_run :
  let w := mkWorld [Response 200 registerText; Response 201 ""; Response 201 postText]
                   [] 0 [] {[ "/tmp/logo.png" := "PNG" ]} in
  let m := LinkedIn.PostWithImage li "launch" "/tmp/logo.png" "" "" in
  (exists xs,
     log (m w).2 = log w ++ xs
     /\ forall x,
          x ∈ xs -> Method (request x) = "POST" ->
          URL (request x) = LinkedIn.UGCPostURL ->
          exists reg value mech asset authorID',
            head xs = Some reg /\ isRegister reg
            /\ registered (reply reg) value mech
            /\ as_string (value !! "asset") = Some asset
            /\ request x
               = postRequest li
                   (LinkedIn.postData
                      ("urn:li:" +:+ authorKind "" +:+ ":" +:+ authorID')
                      "launch" "IMAGE" "Image description" asset "Image title"))
  /\ (fun req => (Method req, URL req)) <$> sent (m w).2
     = [("POST", LinkedIn.AssetUploadURL); ("PUT", uploadURL);
        ("POST", LinkedIn.UGCPostURL)]
  /\ (m w).1 = Ok (LinkedIn.mkPostResponse "urn:li:share:1" "", li).
Proof.
  intros w m. split; [|vm_compute; split; reflexivity].
  apply (PostWithImage_posts_registered_asset li "launch" "/tmp/logo.png" "" "" w
           (m w).1 (m w).2), surjective_pairing.
Defined.


Lemma PostCarousel_publishes_the_carousel_run :
  let paths := ["https://cdn.example.com/clip.MP4"; "https://cdn.example.com/cover.jpg"] in
  let w := world [Response 200 (Samples.objectText [("id", "17891")]);
                  Response 200 (Samples.objectText [("id", "17892")]);
                  Samples.containerAnswer; Samples.publishedAnswer] in
  let m := Instagram.PostCarousel ig paths "two items" in
  holdsAt m w (carouselPublished ig)
  /\ last (sent (m w).2) = Some (publishRequest ig "17889").
Proof.
  intros paths w m. split; [|vm_compute; reflexivity].
  apply (PostCarousel_publishes_the_carousel ig paths "two items" w _ _),
    surjective_pairing.
Defined.





End MoreRuns.
